(** * Client-side resilience layer of the knowledge-management UI

    A shallow embedding of the TypeScript sources

    - [utils/errorHandler.ts]: retry policy and error classification;
    - [utils/cache.ts]: [ApiCache], a store with time-to-live and a size
      bound (the class is in the second half of [unnamed/part_009]);
    - [services/cachedApiClient.ts]: [CachedApiClient], the read path and the
      background refresh (the class is in the second half of
      [pages/Dashboard.tsx]);
    - [utils/fileValidation.ts]: pre-flight validation of a batch;
    - [hooks/useFileUpload.ts]: the upload manager ([unnamed/part_005]);
    - [hooks/useOptimisticUpdate.ts]: optimistic update with delayed rollback;
    - [hooks/useAsyncOperation.ts]: the state of an asynchronous call
      ([unnamed/part_007]);
    - [utils/errorTranslation.ts]: translation of error messages (the first
      half of [unnamed/part_009]);

    followed by the properties the specification states about them, and by
    further properties of the same code.

    Conventions of the embedding.
    - JavaScript numbers that hold counts, byte sizes, HTTP statuses and
      millisecond clock readings are [Z]; the retry delays, which the presets
      make fractional (base 1.5), are exact rationals [Q], where the source
      has doubles: the value of a delay is only stated where no rounding
      occurs.
    - Texts are sequences of bytes; lower-casing is the one of ASCII, and
      what depends on the lower-casing of other characters is stated for
      texts in ASCII or for an arbitrary lower-casing function.
    - [if (v)] on a value of a type parameter is the [Js.Truthy] test of the
      type.
    - [Date.now()] and [Math.random()] are explicit arguments.
    - A JavaScript [Map]/[Set] is kept in insertion order ([JsMap], [JsSet]);
      the map of in-flight background refreshes, which is only probed by key,
      is a [gmap].
    - An [async] function is cut at its [await]s: the part that runs
      synchronously when it is called, and the continuation that runs when the
      awaited promise settles.  The suspended continuations are part of the
      state. *)

From Stdlib Require Import ZArith QArith Qminmax Qpower String Ascii List Bool Lia.
From Stdlib Require Import DecimalString DecimalZ DecimalPos.
From stdpp Require Import base option list strings gmap.

Local Open Scope string_scope.
Local Open Scope list_scope.

(* ===================================================================== *)
(** * JavaScript values shared by the modules                             *)
(* ===================================================================== *)

Module Js.

(** [String(n)] / template interpolation of an integer number: its
    decimal digits, which is what JavaScript prints for the integers of
    magnitude below [10^21] (byte sizes, clock readings, query numbers). *)
Definition numToString (z : Z) : string :=
  NilZero.string_of_int (Z.to_int z).

(** [a || b] on strings: the empty string is falsy. *)
Definition strOr (a b : string) : string :=
  match a with
  | EmptyString => b
  | _ => a
  end.

(** [a || b] where [a] may also be [undefined]. *)
Definition optStrOr (a : option string) (b : string) : string :=
  match a with
  | Some s => strOr s b
  | None => b
  end.

(** [a || b] on numbers: [undefined] and [0] are falsy. *)
Definition numOr (a : option Z) (b : Z) : Z :=
  match a with
  | Some 0%Z | None => b
  | Some n => n
  end.

(** [ToBoolean]: what [if (v)] tests on the values of a type. *)
Class Truthy (V : Type) := truthy : V -> bool.

(** The empty string is the one falsy string. *)
#[global] Instance string_truthy : Truthy string :=
  fun s => match s with
           | EmptyString => false
           | _ => true
           end.

(** [0] is the one falsy integer. *)
#[global] Instance number_truthy : Truthy Z :=
  fun n => negb (n =? 0)%Z.

(** [false] is falsy. *)
#[global] Instance boolean_truthy : Truthy bool :=
  fun b => b.

(** [null] and [undefined], written [None], are falsy. *)
#[global] Instance nullable_truthy {V : Type} `{Truthy V} : Truthy (option V) :=
  fun v => match v with
           | Some x => truthy x
           | None => false
           end.

End Js.

(** ** [Map<string, V>] in insertion order *)

Module JsMap.
Section Defs.
Context {V : Type}.

Definition keys (m : list (string * V)) : list string := map fst m.

Definition size (m : list (string * V)) : nat := length m.

Fixpoint get (k : string) (m : list (string * V)) : option V :=
  match m with
  | [] => None
  | (k', v) :: rest => if String.eqb k k' then Some v else get k rest
  end.

Definition has (k : string) (m : list (string * V)) : bool :=
  match get k m with
  | Some _ => true
  | None => false
  end.

(** [m.set(k, v)]: an existing key keeps its position, a new key goes
    last. *)
Fixpoint set (k : string) (v : V) (m : list (string * V)) : list (string * V) :=
  match m with
  | [] => [(k, v)]
  | (k', v') :: rest =>
      if String.eqb k k' then (k', v) :: rest else (k', v') :: set k v rest
  end.

Fixpoint delete (k : string) (m : list (string * V)) : list (string * V) :=
  match m with
  | [] => []
  | (k', v') :: rest =>
      if String.eqb k k' then rest else (k', v') :: delete k rest
  end.

(** [ks.forEach(k => m.delete(k))] *)
Definition deleteAll (ks : list string) (m : list (string * V)) : list (string * V) :=
  fold_left (fun acc k => delete k acc) ks m.

Definition wf (m : list (string * V)) : Prop := NoDup (keys m).
End Defs.
End JsMap.

(** ** [Set<string>] in insertion order *)

Module JsSet.

Definition has (x : string) (s : list string) : bool :=
  existsb (String.eqb x) s.

Definition add (x : string) (s : list string) : list string :=
  if has x s then s else s ++ [x].

Definition delete (x : string) (s : list string) : list string :=
  List.filter (fun y => negb (String.eqb x y)) s.

Definition size (s : list string) : nat := length s.
End JsSet.

(* ===================================================================== *)
(** * utils/errorHandler.ts                                               *)
(* ===================================================================== *)

Module ErrorHandler.

Record RetryConfig := {
  maxAttempts : Z;
  baseDelay : Q;
  maxDelay : Q;
  exponentialBase : Q;
  jitter : bool
}.

(** [Partial<RetryConfig>] *)
Record PartialRetryConfig := {
  p_maxAttempts : option Z;
  p_baseDelay : option Q;
  p_maxDelay : option Q;
  p_exponentialBase : option Q;
  p_jitter : option bool
}.

Record ErrorContext := {
  ctx_url : option string;
  ctx_method : option string;
  ctx_status : option Z;
  ctx_attempt : option Z;
  ctx_maxAttempts : option Z
}.

Definition emptyContext : ErrorContext :=
  {| ctx_url := None; ctx_method := None; ctx_status := None;
     ctx_attempt := None; ctx_maxAttempts := None |}.

(** [class NetworkError extends Error]; [name] tells the subclass
    [RetryableError] apart. *)
Record NetworkError := {
  name : string;
  message : string;
  status : option Z;
  isNetworkError : bool;
  isRetryable : bool;
  context : ErrorContext
}.

Definition newNetworkError (msg : string) (st : option Z)
    (ctx : ErrorContext) (retryable : bool) : NetworkError :=
  {| name := "NetworkError"; message := msg; status := st;
     isNetworkError := true; isRetryable := retryable; context := ctx |}.

Definition newRetryableError (msg : string) (st : option Z)
    (ctx : ErrorContext) : NetworkError :=
  {| name := "RetryableError"; message := msg; status := st;
     isNetworkError := true; isRetryable := true; context := ctx |}.

(** The error a transport call rejects with: [message], and [response]
    when the server answered ([response.status], [response.data.message]). *)
Record Response := {
  resp_status : Z;
  resp_data_message : option string
}.

Record TransportError := {
  te_message : string;
  te_response : option Response
}.

(** What an operation under [withRetry] can reject with: a raw transport
    error, or an already classified [NetworkError] (which has the fields of
    the class above and, in particular, no [response]). *)
Inductive ErrorValue :=
| RawError (e : TransportError)
| Classified (e : NetworkError).

Definition errMessage (e : ErrorValue) : string :=
  match e with
  | RawError t => te_message t
  | Classified n => message n
  end.

(** [error.response] *)
Definition errResponse (e : ErrorValue) : option Response :=
  match e with
  | RawError t => te_response t
  | Classified _ => None
  end.

Definition retryableStatuses : list Z :=
  [408; 409; 429; 500; 502; 503; 504]%Z.

Definition isRetryableError (error : ErrorValue) : bool :=
  match errResponse error with
  | None => true
  | Some r => existsb (Z.eqb (resp_status r)) retryableStatuses
  end.

(** [Math.random()] is the argument [rnd].  The source computes in
    doubles; here the expression is evaluated exactly.  The two give the
    same number when nothing is rounded on the way: with jitter off, for
    whole-number settings with [baseDelay >= 1], [exponentialBase >= 1] and
    [maxDelay] below [2^31], the range of [setTimeout] (a product that
    leaves the exact range of the doubles is above [maxDelay], and the
    minimum is [maxDelay] either way).  What is proved about the value of
    a delay is stated on that domain. *)
Definition calculateDelay (attempt : Z) (config : RetryConfig) (rnd : Q) : Q :=
  let exponentialDelay :=
    (baseDelay config * exponentialBase config ^ (attempt - 1))%Q in
  let delay := Qmin exponentialDelay (maxDelay config) in
  if jitter config then
    let jit := (delay * (1 # 4) * (rnd * 2 - 1))%Q in
    Qmax 0 (delay + jit)
  else delay.

Definition defaultRetryConfig : RetryConfig :=
  {| maxAttempts := 3; baseDelay := 1000; maxDelay := 10000;
     exponentialBase := 2; jitter := true |}.

(** [{ ...defaults, ...config }] *)
Definition mergeRetryConfig (config : PartialRetryConfig) : RetryConfig :=
  {| maxAttempts := default (maxAttempts defaultRetryConfig) (p_maxAttempts config);
     baseDelay := default (baseDelay defaultRetryConfig) (p_baseDelay config);
     maxDelay := default (maxDelay defaultRetryConfig) (p_maxDelay config);
     exponentialBase :=
       default (exponentialBase defaultRetryConfig) (p_exponentialBase config);
     jitter := default (jitter defaultRetryConfig) (p_jitter config) |}.

Definition fullConfig (c : RetryConfig) : PartialRetryConfig :=
  {| p_maxAttempts := Some (maxAttempts c); p_baseDelay := Some (baseDelay c);
     p_maxDelay := Some (maxDelay c);
     p_exponentialBase := Some (exponentialBase c);
     p_jitter := Some (jitter c) |}.

Inductive Outcome (T : Type) :=
| Resolved (v : T)
| Rejected (e : ErrorValue).
Arguments Resolved {T} v.
Arguments Rejected {T} e.

(** What [withRetry] throws: the [NetworkError] built in the loop, or
    [lastError] after the loop ([undefined] when the loop body never ran). *)
Inductive RetryThrown :=
| ThrownNetwork (e : NetworkError)
| ThrownLast (lastError : option ErrorValue).

(** One run of [withRetry]: how it settled, how many times [operation]
    was called, and the delays slept between the calls. *)
Record Run (T : Type) := {
  settled : T + RetryThrown;
  calls : nat;
  sleeps : list Q
}.
Arguments settled {T} r.
Arguments calls {T} r.
Arguments sleeps {T} r.

Section WithRetry.
Context {T : Type}.
(** [operation n] is how the call made at attempt [n] settles;
    [random n] is the value [Math.random()] returns at attempt [n]. *)
Variable operation : Z -> Outcome T.
Variable random : Z -> Q.
Variable retryConfig : RetryConfig.
Variable context0 : ErrorContext.

(** The error thrown from the [catch] block when no retry follows. *)
Definition terminalError (attempt : Z) (error : ErrorValue) : NetworkError :=
  let errorContext :=
    {| ctx_url := ctx_url context0;
       ctx_method := ctx_method context0;
       ctx_status := ctx_status context0;
       ctx_attempt := Some attempt;
       ctx_maxAttempts := Some (maxAttempts retryConfig) |} in
  newNetworkError (Js.strOr (errMessage error) "Request failed")
                  (resp_status <$> errResponse error)
                  errorContext false.

(** The [for] loop, [iterations] being the number of values of
    [attempt] still to run through. *)
Fixpoint retryLoop (iterations : nat) (attempt : Z)
    (lastError : option ErrorValue) : Run T :=
  match iterations with
  | O => {| settled := inr (ThrownLast lastError); calls := 0; sleeps := [] |}
  | S rest =>
      match operation attempt with
      | Resolved result =>
          {| settled := inl result; calls := 1; sleeps := [] |}
      | Rejected error =>
          if (attempt =? maxAttempts retryConfig)%Z
             || negb (isRetryableError error)
          then
            {| settled := inr (ThrownNetwork (terminalError attempt error));
               calls := 1; sleeps := [] |}
          else
            let delay := calculateDelay attempt retryConfig (random attempt) in
            let r := retryLoop rest (attempt + 1) (Some error) in
            {| settled := settled r; calls := S (calls r);
               sleeps := delay :: sleeps r |}
      end
  end.
End WithRetry.

Definition withRetry {T : Type} (operation : Z -> Outcome T) (random : Z -> Q)
    (config : PartialRetryConfig) (context0 : ErrorContext) : Run T :=
  let retryConfig := mergeRetryConfig config in
  retryLoop operation random retryConfig context0
    (Z.to_nat (maxAttempts retryConfig)) 1 None.

Definition getUserFriendlyErrorMessage (error : TransportError) : string :=
  match te_response error with
  | None => "Проблемы с подключением к серверу. Проверьте интернет-соединение."
  | Some r =>
      let status := resp_status r in
      let message := Js.optStrOr (resp_data_message r) (te_message error) in
      match status with
      | 400 => "Некорректный запрос. Проверьте введенные данные."
      | 401 => "Необходима авторизация. Пожалуйста, войдите в систему."
      | 403 => "Недостаточно прав для выполнения операции."
      | 404 => "Запрашиваемый ресурс не найден."
      | 409 => "Конфликт данных. Возможно, ресурс уже существует."
      | 429 => "Слишком много запросов. Попробуйте позже."
      | 500 => "Внутренняя ошибка сервера. Мы работаем над исправлением."
      | 502 => "Сервер временно недоступен. Попробуйте позже."
      | 503 => "Сервис временно недоступен. Попробуйте позже."
      | 504 => "Превышено время ожидания ответа сервера."
      | _ => Js.strOr message ("Ошибка сервера (" ++ Js.numToString status ++ ")")
      end%Z
  end.

Definition handleApiError (error : TransportError) (ctx : ErrorContext)
    : NetworkError :=
  let errorMessage := getUserFriendlyErrorMessage error in
  let status := resp_status <$> te_response error in
  if isRetryableError (RawError error)
  then newRetryableError errorMessage status ctx
  else newNetworkError errorMessage status ctx false.

Definition RETRY_quick : RetryConfig :=
  {| maxAttempts := 2; baseDelay := 500; maxDelay := 2000;
     exponentialBase := 2; jitter := true |}.
Definition RETRY_standard : RetryConfig :=
  {| maxAttempts := 3; baseDelay := 1000; maxDelay := 5000;
     exponentialBase := 2; jitter := true |}.
Definition RETRY_heavy : RetryConfig :=
  {| maxAttempts := 5; baseDelay := 2000; maxDelay := 30000;
     exponentialBase := 3 # 2; jitter := true |}.


(** A transport failure without a response, used below; it is
    retryable. *)
Definition timeoutError : ErrorValue :=
  RawError {| te_message := "timeout of 30000ms exceeded"; te_response := None |}.

End ErrorHandler.

(* ===================================================================== *)
(** * utils/cache.ts                                                      *)
(* ===================================================================== *)

(** ** [JSON.stringify] on request parameters

    A params object is the list of its own enumerable properties in the order
    the engine enumerates them, which for keys that are not array indices is
    the order in which they were inserted.  Values are the scalars of a query:
    [null], booleans, integers and strings.  Characters are bytes; bytes above
    127 (UTF-8 sequences) are copied unchanged, as [JSON.stringify] copies the
    characters they encode. *)

Module Json.

Inductive Prim :=
| PNull
| PBool (b : bool)
| PNum (n : Z)
| PStr (s : string).

Definition Params := list (string * Prim).

Definition dquote : ascii := ascii_of_nat 34.
Definition backslash : ascii := ascii_of_nat 92.

Definition hexDigit (n : nat) : ascii :=
  match String.get n "0123456789abcdef" with
  | Some c => c
  | None => "0"%char
  end.

Definition escapeChar (c : ascii) : string :=
  let n := nat_of_ascii c in
  if (n =? 34)%nat then String backslash (String dquote EmptyString)
  else if (n =? 92)%nat then String backslash (String backslash EmptyString)
  else if (n =? 8)%nat then String backslash "b"
  else if (n =? 12)%nat then String backslash "f"
  else if (n =? 10)%nat then String backslash "n"
  else if (n =? 13)%nat then String backslash "r"
  else if (n =? 9)%nat then String backslash "t"
  else if (n <? 32)%nat then
    String backslash
      (String "u" (String "0" (String "0"
         (String (hexDigit (n / 16)) (String (hexDigit (n mod 16)) EmptyString)))))
  else String c EmptyString.

Fixpoint escape (s : string) : string :=
  match s with
  | EmptyString => EmptyString
  | String c rest => escapeChar c ++ escape rest
  end.

Definition quote (s : string) : string :=
  String dquote (escape s ++ String dquote EmptyString).

Definition serPrim (v : Prim) : string :=
  match v with
  | PNull => "null"
  | PBool true => "true"
  | PBool false => "false"
  | PNum n => Js.numToString n
  | PStr s => quote s
  end.

Definition serEntry (kv : string * Prim) : string :=
  quote (fst kv) ++ ":" ++ serPrim (snd kv).

(** The properties, separated by commas, up to and including the closing
    brace. *)
Fixpoint serEntries (l : list (string * Prim)) : string :=
  match l with
  | [] => "}"
  | [kv] => serEntry kv ++ "}"
  | kv :: rest => serEntry kv ++ "," ++ serEntries rest
  end.

Definition stringify (params : Params) : string :=
  "{" ++ serEntries params.

(** *** Reading the text back

    The functions below are not part of the source: they read a text made
    by [quote] back, and classify the characters of a number, to show that
    [stringify] loses nothing. *)

Definition hexValue (c : ascii) : option nat :=
  let n := nat_of_ascii c in
  if ((48 <=? n) && (n <=? 57))%nat then Some (n - 48)%nat
  else if ((97 <=? n) && (n <=? 102))%nat then Some (n - 87)%nat
  else None.

(** Reads an escaped string up to and including its closing quote; gives the
    string and what follows the quote. *)
Fixpoint unescape (s : string) : option (string * string) :=
  match s with
  | EmptyString => None
  | String c rest =>
      if Ascii.eqb c dquote then Some (EmptyString, rest)
      else if Ascii.eqb c backslash then
        match rest with
        | String d rest1 =>
            if Ascii.eqb d "u" then
              match rest1 with
              | String _ (String _ (String h1 (String h2 rest2))) =>
                  match hexValue h1, hexValue h2 with
                  | Some a, Some b =>
                      match unescape rest2 with
                      | Some (x, r') => Some (String (ascii_of_nat (16 * a + b)) x, r')
                      | None => None
                      end
                  | _, _ => None
                  end
              | _ => None
              end
            else
              let x :=
                if Ascii.eqb d "b" then ascii_of_nat 8
                else if Ascii.eqb d "f" then ascii_of_nat 12
                else if Ascii.eqb d "n" then ascii_of_nat 10
                else if Ascii.eqb d "r" then ascii_of_nat 13
                else if Ascii.eqb d "t" then ascii_of_nat 9
                else d in
              match unescape rest1 with
              | Some (a, r') => Some (String x a, r')
              | None => None
              end
        | EmptyString => None
        end
      else
        match unescape rest with
        | Some (a, r') => Some (String c a, r')
        | None => None
        end
  end.

Definition isNumChar (c : ascii) : bool :=
  let n := nat_of_ascii c in
  ((48 <=? n) && (n <=? 57))%nat || (n =? 45)%nat.

Fixpoint allChars (p : ascii → bool) (s : string) : bool :=
  match s with
  | EmptyString => true
  | String c rest => p c && allChars p rest
  end.

(** [s] begins with one of the two characters that can follow a value. *)
Definition closes (s : string) : Prop :=
  ∃ rest, s = String "," rest ∨ s = String "}" rest.

(** What follows an entry: the closing brace, or a comma and the rest. *)
Definition tailText (l : list (string * Prim)) : string :=
  match l with
  | [] => "}"
  | _ => "," ++ serEntries l
  end.


End Json.

Module Cache.

Record CacheConfig := {
  defaultTTL : Z;
  maxSize : Z
}.

(** [private generateKey(url, params?)] *)
Definition generateKey (url : string) (params : option Json.Params) : string :=
  let paramString :=
    match params with
    | Some p => Json.stringify p
    | None => EmptyString
    end in
  url ++ ":" ++ paramString.

(** [key.includes(pattern)] *)
Fixpoint includes (pattern s : string) : bool :=
  String.prefix pattern s ||
  match s with
  | EmptyString => false
  | String _ rest => includes pattern rest
  end.

Section ApiCache.
(** The cached response bodies. *)
Context {V : Type}.

Record CacheItem := {
  data : V;
  timestamp : Z;
  ttl : Z
}.

Variable config : CacheConfig.

(** [Date.now()] is the argument [now]; one call of a method reads the
    clock once. *)
Definition isExpired (now : Z) (item : CacheItem) : bool :=
  (now - timestamp item >? ttl item)%Z.

Definition isFresh (now : Z) (entry : string * CacheItem) : bool :=
  negb (isExpired now (snd entry)).

(** First loop of [cleanup]: visit every entry, delete the expired. *)
Definition removeExpired (now : Z) (cache : list (string * CacheItem))
    : list (string * CacheItem) :=
  fold_left
    (fun acc entry =>
       if isExpired now (snd entry) then JsMap.delete (fst entry) acc else acc)
    cache cache.

Definition cleanup (now : Z) (cache : list (string * CacheItem))
    : list (string * CacheItem) :=
  let cache1 := removeExpired now cache in
  if (Z.of_nat (JsMap.size cache1) >? maxSize config)%Z then
    let keysToDelete :=
      take (Z.to_nat (Z.of_nat (JsMap.size cache1) - maxSize config))
           (JsMap.keys cache1) in
    JsMap.deleteAll keysToDelete cache1
  else cache1.

(** [get]: the value, or [None] for [null], and the store it leaves. *)
Definition get (now : Z) (url : string) (params : option Json.Params)
    (cache : list (string * CacheItem))
    : option V * list (string * CacheItem) :=
  let cache1 := cleanup now cache in
  let key := generateKey url params in
  match JsMap.get key cache1 with
  | Some item =>
      if negb (isExpired now item) then (Some (data item), cache1)
      else (None, cache1)
  | None => (None, cache1)
  end.

Definition set (now : Z) (url : string) (value : V)
    (params : option Json.Params) (ttl0 : option Z)
    (cache : list (string * CacheItem)) : list (string * CacheItem) :=
  let key := generateKey url params in
  let item :=
    {| data := value; timestamp := now;
       ttl := Js.numOr ttl0 (defaultTTL config) |} in
  cleanup now (JsMap.set key item cache).

Definition invalidate (url : string) (params : option Json.Params)
    (cache : list (string * CacheItem)) : list (string * CacheItem) :=
  JsMap.delete (generateKey url params) cache.

Definition invalidatePattern (pattern : string)
    (cache : list (string * CacheItem)) : list (string * CacheItem) :=
  let keysToDelete := List.filter (includes pattern) (JsMap.keys cache) in
  JsMap.deleteAll keysToDelete cache.

Definition clear (cache : list (string * CacheItem))
    : list (string * CacheItem) := [].

(** The stores a cache instance can hold: it starts empty and changes
    only through its public methods, called at any clock reading. *)
Inductive reachable : list (string * CacheItem) -> Prop :=
| reach_new : reachable []
| reach_get now url params cache :
    reachable cache -> reachable (snd (get now url params cache))
| reach_set now url value params ttl0 cache :
    reachable cache -> reachable (set now url value params ttl0 cache)
| reach_invalidate url params cache :
    reachable cache -> reachable (invalidate url params cache)
| reach_invalidatePattern pattern cache :
    reachable cache -> reachable (invalidatePattern pattern cache)
| reach_clear cache :
    reachable cache -> reachable (clear cache).

(** One [set] call of a test that fills the cache. *)
Record Insertion := {
  ins_now : Z;
  ins_url : string;
  ins_value : V;
  ins_params : option Json.Params;
  ins_ttl : option Z
}.

Definition ins_key (i : Insertion) : string :=
  generateKey (ins_url i) (ins_params i).

(** The entry an insertion writes. *)
Definition entryOf (i : Insertion) : string * CacheItem :=
  (ins_key i,
   {| data := ins_value i; timestamp := ins_now i;
      ttl := Js.numOr (ins_ttl i) (defaultTTL config) |}).

Definition insert (cache : list (string * CacheItem)) (i : Insertion)
    : list (string * CacheItem) :=
  set (ins_now i) (ins_url i) (ins_value i) (ins_params i) (ins_ttl i) cache.

Definition insertAll (l : list Insertion) (cache : list (string * CacheItem))
    : list (string * CacheItem) :=
  fold_left insert l cache.

(** No entry written by [l] has expired at the clock reading of its own
    or of a later insertion. *)
Fixpoint staysFresh (l : list Insertion) : Prop :=
  match l with
  | [] => True
  | i :: rest =>
      Forall (fun j => (ins_now j - ins_now i
                          <= Js.numOr (ins_ttl i) (defaultTTL config))%Z)
             (i :: rest)
      /\ staysFresh rest
  end.
End ApiCache.

Arguments CacheItem V : clear implicits.
Arguments Insertion V : clear implicits.

(** [export const apiCache = new ApiCache({...})] *)
Definition apiCacheConfig : CacheConfig :=
  {| defaultTTL := 5 * 60 * 1000; maxSize := 100 |}.

(** A cache of two entries and three writes to it, used below. *)
Definition smallCacheConfig : CacheConfig :=
  {| defaultTTL := 5 * 60 * 1000; maxSize := 2 |}.

Definition visit (now : Z) (url : string) : Insertion string :=
  {| ins_now := now; ins_url := url; ins_value := "body";
     ins_params := None; ins_ttl := None |}.

Definition threeVisits : list (Insertion string) :=
  [visit 0 "/dashboard"; visit 10 "/documents"; visit 20 "/health"].

(** The cache of two entries after the first two of these writes. *)
Definition twoEntries : list (string * CacheItem string) :=
  set smallCacheConfig 10 "/documents" "body" None None
      (set smallCacheConfig 0 "/dashboard" "body" None None []).

End Cache.

(* ===================================================================== *)
(** * services/cachedApiClient.ts                                         *)
(* ===================================================================== *)

Module CachedApiClient.
Import ErrorHandler.

(** [keyof typeof RETRY_CONFIGS | false] *)
Inductive RetrySetting :=
| quick
| standard
| heavy
| noRetry.

Definition RETRY_CONFIGS (p : RetrySetting) : RetryConfig :=
  match p with
  | quick => RETRY_quick
  | heavy => RETRY_heavy
  | _ => RETRY_standard
  end.

(** [CachedRequestConfig]; an absent field is [None]. *)
Record CachedRequestConfig := {
  useCache : option bool;
  cacheTTL : option Z;
  cacheKey : option string;
  staleWhileRevalidate : option bool;
  retryConfig : option RetrySetting;
  params : option Json.Params
}.

Definition defaultRequest : CachedRequestConfig :=
  {| useCache := None; cacheTTL := None; cacheKey := None;
     staleWhileRevalidate := None; retryConfig := None; params := None |}.

Section Client.
(** Response bodies.  [get] tests a cached body with [if (cached)], so
    the type comes with its [ToBoolean]. *)
Context {V : Type} {toBoolean : Js.Truthy V}.

Inductive TransportOutcome :=
| Responded (body : V)
| Failed (e : TransportError).

Inductive Phase :=
| AwaitingResponse
| AwaitingFinally.

(** A background refresh whose promise chain has not run to its end. *)
Record Refresh := {
  r_id : nat;
  r_key : string;
  r_params : option Json.Params;
  r_ttl : option Z;
  r_phase : Phase
}.

Record Client := {
  cache : list (string * Cache.CacheItem V);
  backgroundRefreshPromises : gmap string nat;
  chains : list Refresh;
  nextPromise : nat
}.

Definition newClient : Client :=
  {| cache := []; backgroundRefreshPromises := ∅; chains := [];
     nextPromise := 0 |}.

Definition apiCache := Cache.apiCacheConfig.

(** [private refreshInBackground(url, config, cacheTTL, cacheKey)], up
    to the point where the request has been issued and registered. *)
Definition refreshInBackground (url : string) (params0 : option Json.Params)
    (cacheTTL0 : option Z) (cacheKey0 : option string) (c : Client) : Client :=
  let key := Js.optStrOr cacheKey0 url in
  match backgroundRefreshPromises c !! key with
  | Some _ => c
  | None =>
      let promise := nextPromise c in
      {| cache := cache c;
         backgroundRefreshPromises :=
           <[key := promise]> (backgroundRefreshPromises c);
         chains :=
           chains c ++
             [{| r_id := promise; r_key := key; r_params := params0;
                 r_ttl := cacheTTL0; r_phase := AwaitingResponse |}];
         nextPromise := S promise |}
  end.

Definition findChain (id : nat) (c : Client) : option Refresh :=
  List.find (fun r => (r_id r =? id)%nat) (chains c).

Definition setPhase (id : nat) (ph : Phase) (l : list Refresh) : list Refresh :=
  map (fun r =>
         if (r_id r =? id)%nat
         then {| r_id := r_id r; r_key := r_key r; r_params := r_params r;
                 r_ttl := r_ttl r; r_phase := ph |}
         else r) l.

(** The [.then]/[.catch] callbacks of chain [id], run when its request
    settles at clock reading [now]. *)
Definition refreshSettled (id : nat) (outcome : TransportOutcome) (now : Z)
    (c : Client) : option Client :=
  match findChain id c with
  | Some r =>
      match r_phase r with
      | AwaitingResponse =>
          let cache' :=
            match outcome with
            | Responded body =>
                Cache.set apiCache now (r_key r) body (r_params r) (r_ttl r)
                          (cache c)
            | Failed _ => cache c
            end in
          Some {| cache := cache';
                  backgroundRefreshPromises := backgroundRefreshPromises c;
                  chains := setPhase id AwaitingFinally (chains c);
                  nextPromise := nextPromise c |}
      | AwaitingFinally => None
      end
  | None => None
  end.

(** The [.finally] callback of chain [id]. *)
Definition refreshFinally (id : nat) (c : Client) : option Client :=
  match findChain id c with
  | Some r =>
      match r_phase r with
      | AwaitingFinally =>
          Some {| cache := cache c;
                  backgroundRefreshPromises :=
                    delete (r_key r) (backgroundRefreshPromises c);
                  chains :=
                    List.filter (fun r' => negb (r_id r' =? id)%nat) (chains c);
                  nextPromise := nextPromise c |}
      | AwaitingResponse => None
      end
  | None => None
  end.

(** [get], first part: the cache lookup.  [Some v] is a hit that is
    returned to the caller (after the refresh was triggered, under
    stale-while-revalidate); [None] goes on to the transport, as does a
    cached body that is falsy. *)
Definition getLookup (now : Z) (url : string) (config : CachedRequestConfig)
    (c : Client) : option V * Client :=
  if default true (useCache config) then
    let '(cached, cache') :=
      Cache.get apiCache now (Js.optStrOr (cacheKey config) url)
                (params config) (cache c) in
    let c1 :=
      {| cache := cache';
         backgroundRefreshPromises := backgroundRefreshPromises c;
         chains := chains c; nextPromise := nextPromise c |} in
    match cached with
    | Some v =>
        if Js.truthy v then
          if default false (staleWhileRevalidate config)
          then (Some v,
                refreshInBackground url (params config) (cacheTTL config)
                                    (cacheKey config) c1)
          else (Some v, c1)
        else (None, c1)
    | None => (None, c1)
    end
  else (None, c).

(** [get], second part: [requestOperation], alone or under [withRetry].
    [transport n] is how the [n]-th call of [this.client.get] made for
    this request settles. *)
Definition requestOperation (transport : Z -> TransportOutcome) (url : string)
    (n : Z) : Outcome V :=
  match transport n with
  | Responded body => Resolved body
  | Failed error =>
      Rejected (Classified
        (handleApiError error
           {| ctx_url := Some url; ctx_method := Some "GET";
              ctx_status := None; ctx_attempt := None;
              ctx_maxAttempts := None |}))
  end.

Definition getFetch (transport : Z -> TransportOutcome) (random : Z -> Q)
    (url : string) (config : CachedRequestConfig) : Run V :=
  match default standard (retryConfig config) with
  | noRetry =>
      match requestOperation transport url 1 with
      | Resolved body => {| settled := inl body; calls := 1; sleeps := [] |}
      | Rejected (Classified e) =>
          {| settled := inr (ThrownNetwork e); calls := 1; sleeps := [] |}
      | Rejected e =>
          {| settled := inr (ThrownLast (Some e)); calls := 1; sleeps := [] |}
      end
  | profile =>
      withRetry (requestOperation transport url) random
        (fullConfig (RETRY_CONFIGS profile))
        {| ctx_url := Some url; ctx_method := Some "GET";
           ctx_status := None; ctx_attempt := None;
           ctx_maxAttempts := None |}
  end.

(** [get], last part: a result is written to the cache at [now]. *)
Definition getStore (now : Z) (url : string) (config : CachedRequestConfig)
    (result : V) (c : Client) : Client :=
  if default true (useCache config) then
    {| cache :=
         Cache.set apiCache now (Js.optStrOr (cacheKey config) url) result
                   (params config) (cacheTTL config) (cache c);
       backgroundRefreshPromises := backgroundRefreshPromises c;
       chains := chains c; nextPromise := nextPromise c |}
  else c.

(** [get] as a whole, when nothing else touches the client between its
    suspension points: the lookup at [now], the request with its retries,
    and the write of the result at [nowDone].  It returns what the promise
    settles with. *)
Definition get (now nowDone : Z) (transport : Z -> TransportOutcome)
    (random : Z -> Q) (url : string) (config : CachedRequestConfig) (c : Client)
    : (V + RetryThrown) * Client :=
  match getLookup now url config c with
  | (Some cached, c1) => (inl cached, c1)
  | (None, c1) =>
      match settled (getFetch transport random url config) with
      | inl result => (inl result, getStore nowDone url config result c1)
      | inr thrown => (inr thrown, c1)
      end
  end.

(** [invalidateRelatedCache] and [clearCache], as far as the cache goes. *)
Definition invalidateCache (pattern : string) (c : Client) : Client :=
  {| cache := Cache.invalidatePattern pattern (cache c);
     backgroundRefreshPromises := backgroundRefreshPromises c;
     chains := chains c; nextPromise := nextPromise c |}.

(** What can happen to a client between two suspension points. *)
Inductive Event :=
| Get (now : Z) (url : string) (config : CachedRequestConfig)
| Stored (now : Z) (url : string) (config : CachedRequestConfig) (result : V)
| Invalidated (pattern : string)
| RefreshSettled (id : nat) (outcome : TransportOutcome) (now : Z)
| RefreshFinally (id : nat).

Definition step (c : Client) (ev : Event) : option Client :=
  match ev with
  | Get now url config => Some (snd (getLookup now url config c))
  | Stored now url config result => Some (getStore now url config result c)
  | Invalidated pattern => Some (invalidateCache pattern c)
  | RefreshSettled id outcome now => refreshSettled id outcome now c
  | RefreshFinally id => refreshFinally id c
  end.

Fixpoint run (evs : list Event) (c : Client) : option Client :=
  match evs with
  | [] => Some c
  | ev :: rest =>
      match step c ev with
      | Some c' => run rest c'
      | None => None
      end
  end.

(** The refreshes for [key] that have been started and not finished. *)
Definition inFlight (key : string) (c : Client) : list Refresh :=
  List.filter (fun r => String.eqb (r_key r) key) (chains c).

(** What is left of the promise chain of refresh [r]: its request
    settling (with [outcome], at clock reading [now]) if it has not yet,
    then its [finally] callback. *)
Definition remainingSteps (r : Refresh) (outcome : TransportOutcome) (now : Z)
    : list Event :=
  match r_phase r with
  | AwaitingResponse => [RefreshSettled (r_id r) outcome now; RefreshFinally (r_id r)]
  | AwaitingFinally => [RefreshFinally (r_id r)]
  end.

(** The map of in-flight promises and the unfinished chains describe each
    other, one chain per key. *)
Definition refreshInvariant (c : Client) : Prop :=
  NoDup (map r_key (chains c))
  ∧ NoDup (map r_id (chains c))
  ∧ (∀ r, In r (chains c) →
       backgroundRefreshPromises c !! r_key r = Some (r_id r))
  ∧ (∀ key id, backgroundRefreshPromises c !! key = Some id →
       ∃ r, In r (chains c) ∧ r_key r = key ∧ r_id r = id)
  ∧ (∀ r, In r (chains c) → (r_id r < nextPromise c)%nat).

(** *** The write path: [post], [put], [delete] *)

(** [url.split('/')]: the pieces between the slashes, [acc] being the
    piece read so far. *)
Fixpoint split (sep : ascii) (acc s : string) : list string :=
  match s with
  | EmptyString => [acc]
  | String ch rest =>
      if Ascii.eqb ch sep then acc :: split sep EmptyString rest
      else split sep (acc ++ String ch EmptyString) rest
  end.

(** [const baseEndpoint = url.split('/')[1]] *)
Definition baseEndpoint (url : string) : option string :=
  split "/" EmptyString url !! 1%nat.

(** [private invalidateRelatedCache(url)].  When the url has no slash
    [baseEndpoint] is [undefined], and [key.includes(undefined)] looks for
    the text of that value. *)
Definition invalidateRelatedCache (url : string) (c : Client) : Client :=
  {| cache :=
       Cache.invalidatePattern (default "undefined" (baseEndpoint url)) (cache c);
     backgroundRefreshPromises := backgroundRefreshPromises c;
     chains := chains c; nextPromise := nextPromise c |}.

(** The three writing methods differ in the transport call they make and
    in the method named in the error context. *)
Inductive Method :=
| POST
| PUT
| DELETE.

Definition methodName (m : Method) : string :=
  match m with
  | POST => "POST"
  | PUT => "PUT"
  | DELETE => "DELETE"
  end.

(** [requestOperation] of a writing method; [transport n] is how the
    [n]-th call of [this.client.post] (or [put], [delete]) made for this
    request settles. *)
Definition writeOperation (method : Method) (transport : Z -> TransportOutcome)
    (url : string) (n : Z) : Outcome V :=
  match transport n with
  | Responded body => Resolved body
  | Failed error =>
      Rejected (Classified
        (handleApiError error
           {| ctx_url := Some url; ctx_method := Some (methodName method);
              ctx_status := None; ctx_attempt := None;
              ctx_maxAttempts := None |}))
  end.

Definition writeFetch (method : Method) (transport : Z -> TransportOutcome)
    (random : Z -> Q) (url : string) (config : CachedRequestConfig) : Run V :=
  match default standard (retryConfig config) with
  | noRetry =>
      match writeOperation method transport url 1 with
      | Resolved body => {| settled := inl body; calls := 1; sleeps := [] |}
      | Rejected (Classified e) =>
          {| settled := inr (ThrownNetwork e); calls := 1; sleeps := [] |}
      | Rejected e =>
          {| settled := inr (ThrownLast (Some e)); calls := 1; sleeps := [] |}
      end
  | profile =>
      withRetry (writeOperation method transport url) random
        (fullConfig (RETRY_CONFIGS profile))
        {| ctx_url := Some url; ctx_method := Some (methodName method);
           ctx_status := None; ctx_attempt := None;
           ctx_maxAttempts := None |}
  end.

(** A writing method as a whole: the request with its retries, then, if
    it succeeded, the invalidation.  A failure is thrown before the
    invalidation is reached. *)
Definition write (method : Method) (transport : Z -> TransportOutcome)
    (random : Z -> Q) (url : string) (config : CachedRequestConfig) (c : Client)
    : (V + RetryThrown) * Client :=
  match settled (writeFetch method transport random url config) with
  | inl result => (inl result, invalidateRelatedCache url c)
  | inr thrown => (inr thrown, c)
  end.

Definition post := write POST.
Definition put := write PUT.
(** [delete]; the name belongs to the map library here. *)
Definition delete_ := write DELETE.
End Client.

Arguments Client V : clear implicits.
Arguments Event V : clear implicits.
Arguments TransportOutcome V : clear implicits.

(** A dashboard read under stale-while-revalidate, and a session in which
    the response is stored and then read twice while the first refresh is
    still in flight. *)
Definition dashboardRequest : CachedRequestConfig :=
  {| useCache := Some true; cacheTTL := Some 120000%Z; cacheKey := None;
     staleWhileRevalidate := Some true; retryConfig := None; params := None |}.

Definition twoReads : list (Event string) :=
  [Stored 0 "/dashboard" dashboardRequest "stats";
   Get 10 "/dashboard" dashboardRequest;
   Get 20 "/dashboard" dashboardRequest].

Definition afterTwoReads : Client string :=
  default newClient (run twoReads newClient).

(** A transport that answers every call with 404. *)
Definition notFound : TransportError :=
  {| te_message := "Request failed with status code 404";
     te_response := Some {| resp_status := 404; resp_data_message := None |} |}.

Definition alwaysNotFound : Z -> TransportOutcome string :=
  fun _ => Failed notFound.

(** A transport that answers every call with [body]. *)
Definition answers (body : string) : Z -> TransportOutcome string :=
  fun _ => Responded body.

End CachedApiClient.

(* ===================================================================== *)
(** * utils/fileValidation.ts                                             *)
(* ===================================================================== *)

Module FileValidation.

(** The fields of a browser [File] the code reads. *)
Record File := {
  name : string;
  size : Z;
  type : string;
  lastModified : Z
}.

Record FileValidationConfig := {
  maxSize : Z;
  allowedTypes : list string;
  allowedExtensions : list string;
  maxFiles : option Z
}.

Definition DEFAULT_VALIDATION_CONFIG : FileValidationConfig :=
  {| maxSize := 10 * 1024 * 1024;
     allowedTypes :=
       ["application/pdf"; "application/msword";
        "application/vnd.openxmlformats-officedocument.wordprocessingml.document";
        "text/plain"; "text/markdown"; "application/rtf"];
     allowedExtensions := [".pdf"; ".doc"; ".docx"; ".txt"; ".md"; ".rtf"];
     maxFiles := Some 10%Z |}.

(** [toLowerCase] on text in ASCII: the letters A to Z are mapped, every
    other character is kept.  The method of the source maps by the Unicode
    tables; the two agree on the texts that [isAscii] accepts, and what is
    proved of whole file names is stated for those. *)
Definition lowerChar (c : ascii) : ascii :=
  let n := nat_of_ascii c in
  if ((65 <=? n) && (n <=? 90))%nat then ascii_of_nat (n + 32) else c.

Fixpoint toLowerCase (s : string) : string :=
  match s with
  | EmptyString => EmptyString
  | String c rest => String (lowerChar c) (toLowerCase rest)
  end.

(** Text whose characters are all below 128. *)
Fixpoint isAscii (s : string) : bool :=
  match s with
  | EmptyString => true
  | String c rest => (nat_of_ascii c <? 128)%nat && isAscii rest
  end.

(** [s.split('.').pop()]: what follows the last dot, or all of [s]. *)
Fixpoint lastSegment (acc s : string) : string :=
  match s with
  | EmptyString => acc
  | String c rest =>
      if Ascii.eqb c "."%char then lastSegment EmptyString rest
      else lastSegment (acc ++ String c EmptyString) rest
  end.

(** [getFileInfo(file).extension] *)
Definition extension (file : File) : string :=
  "." ++ toLowerCase (lastSegment EmptyString (name file)).

Definition includes (x : string) (l : list string) : bool :=
  existsb (String.eqb x) l.

Fixpoint endsWith (suffix s : string) : bool :=
  String.eqb suffix s ||
  match s with
  | EmptyString => false
  | String _ rest => endsWith suffix rest
  end.

Fixpoint anyChar (p : ascii -> bool) (s : string) : bool :=
  match s with
  | EmptyString => false
  | String c rest => p c || anyChar p rest
  end.

(** [/\.(exe|bat|cmd|scr|com|pif|vbs|js|jar|sh)$/i] *)
Definition executableName (n : string) : bool :=
  existsb (fun ext => endsWith ext (toLowerCase n))
    [".exe"; ".bat"; ".cmd"; ".scr"; ".com"; ".pif"; ".vbs"; ".js"; ".jar"; ".sh"].

(** [/^\./] *)
Definition hiddenName (n : string) : bool := String.prefix "." n.

(** One of [<>:|?*], the double quote, or a control character below 32. *)
Definition reservedChar (c : ascii) : bool :=
  let n := nat_of_ascii c in
  (n <? 32)%nat ||
  existsb (Nat.eqb n) [60; 62; 58; 34; 124; 63; 42]%nat.

Definition suspiciousName (n : string) : bool :=
  executableName n || hiddenName n || anyChar reservedChar n.

(** The error texts of [validateFile], by kind. *)
Inductive FileError :=
| TooLarge
| UnsupportedType
| UnsupportedExtension
| EmptyFile
| SuspiciousName.

Inductive FileWarning :=
| RatherLarge.

Record FileValidationResult := {
  isValid : bool;
  errors : list FileError;
  warnings : list FileWarning
}.

Definition when {A : Type} (b : bool) (x : A) : list A :=
  if b then [x] else [].

Definition validateFile (file : File) (config : FileValidationConfig)
    : FileValidationResult :=
  let errs :=
    when (size file >? maxSize config)%Z TooLarge
    ++ when (negb (Nat.eqb (length (allowedTypes config)) 0)
             && negb (includes (type file) (allowedTypes config)))
            UnsupportedType
    ++ when (negb (Nat.eqb (length (allowedExtensions config)) 0)
             && negb (includes (extension file) (allowedExtensions config)))
            UnsupportedExtension
    ++ when (size file =? 0)%Z EmptyFile
    ++ when (suspiciousName (name file)) SuspiciousName in
  {| isValid := Nat.eqb (length errs) 0;
     errors := errs;
     (* size > maxSize * 0.8 *)
     warnings := when (5 * size file >? 4 * maxSize config)%Z RatherLarge |}.

Inductive GlobalError :=
| TooManyFiles
| DuplicateNames
| TotalTooLarge.

Record BatchValidation := {
  batchValid : bool;
  results : list (File * FileValidationResult);
  globalErrors : list GlobalError;
  totalSize : Z
}.

(** [fileNames.filter((name, index) => fileNames.indexOf(name) !== index)]
    is non-empty exactly when a name occurs twice. *)
Fixpoint hasDuplicates (l : list string) : bool :=
  match l with
  | [] => false
  | x :: rest => includes x rest || hasDuplicates rest
  end.

Definition validateFiles (files : list File) (config : FileValidationConfig)
    : BatchValidation :=
  let res := map (fun f => (f, validateFile f config)) files in
  let total := fold_left (fun sum f => (sum + size f)%Z) files 0%Z in
  let tooMany :=
    match maxFiles config with
    | Some 0%Z | None => false
    | Some m => (Z.of_nat (length files) >? m)%Z
    end in
  let maxTotalSize := (maxSize config * Js.numOr (maxFiles config) 10)%Z in
  let globals :=
    when tooMany TooManyFiles
    ++ when (hasDuplicates (map (fun f => toLowerCase (name f)) files))
            DuplicateNames
    ++ when (total >? maxTotalSize)%Z TotalTooLarge in
  {| batchValid :=
       Nat.eqb (length globals) 0 && forallb (fun r => isValid (snd r)) res;
     results := res;
     globalErrors := globals;
     totalSize := total |}.

End FileValidation.

(* ===================================================================== *)
(** * hooks/useFileUpload.ts                                              *)
(* ===================================================================== *)

Module FileUpload.
Import FileValidation.

Inductive Status :=
| pending
| uploading
| completed
| error
| cancelled.

Definition statusEqb (a b : Status) : bool :=
  match a, b with
  | pending, pending | uploading, uploading | completed, completed
  | error, error | cancelled, cancelled => true
  | _, _ => false
  end.

(** The [error] text of a task: the joined validation errors of its
    file, or a message. *)
Inductive ErrorText :=
| ValidationErrors (errs : list FileError)
| Message (s : string).

Record UploadProgress := {
  fileId : string;
  fileName : string;
  progress : Z;
  uploaded : Z;
  total : Z;
  speed : Z;
  status : Status;
  errorText : option ErrorText
}.

(** [Partial<UploadProgress>], for the fields the hook updates.  The
    [onUploadProgress] entry that [uploadSingleFile] adds to the options of
    [fetch] is not an option [fetch] knows, so that callback, the only
    writer of [speed], is not part of the embedding. *)
Record ProgressUpdate := {
  u_progress : option Z;
  u_uploaded : option Z;
  u_status : option Status;
  u_errorText : option ErrorText
}.

Definition merge (current : UploadProgress) (updates : ProgressUpdate)
    : UploadProgress :=
  {| fileId := fileId current;
     fileName := fileName current;
     progress := default (progress current) (u_progress updates);
     uploaded := default (uploaded current) (u_uploaded updates);
     total := total current;
     speed := speed current;
     status := default (status current) (u_status updates);
     errorText :=
       match u_errorText updates with
       | Some e => Some e
       | None => errorText current
       end |}.

Definition cancelledUpdate : ProgressUpdate :=
  {| u_progress := None; u_uploaded := None; u_status := Some cancelled;
     u_errorText := Some (Message "Загрузка отменена") |}.

(** One entry of the array handed to [onAllUploadsComplete]; a [response]
    of [None] is the [null] an aborted upload returns. *)
Record UploadResult := {
  res_fileId : string;
  success : bool;
  response : option string;
  res_error : option ErrorHandler.NetworkError
}.

(** How the [fetch] of one upload settles. *)
Inductive FetchOutcome :=
| FetchOk (body : string)
| FetchNotOk (httpStatus : Z) (statusText : string)
| FetchAborted
| FetchFailed (msg : string).

(** A call of [uploadSingleFile] suspended at [await fetch]; it owns the
    [AbortController] numbered [up_ctl]. *)
Record Upload := {
  up_ctl : nat;
  up_file : File
}.

(** A call of [uploadFiles] suspended at [await Promise.allSettled]. *)
Record Batch := {
  awaiting : list nat;
  collected : list UploadResult
}.

Record Hook := {
  selectedFiles : list File;
  uploadProgress : list (string * UploadProgress);
  validationResults : option BatchValidation;
  abortControllers : list (string * nat);
  aborted : list nat;
  uploadQueue : list string;
  activeUploads : list string;
  suspended : list Upload;
  batches : list Batch;
  nextController : nat;
  (** arguments of the calls of [onAllUploadsComplete] so far *)
  reports : list (list UploadResult)
}.

Definition newHook : Hook :=
  {| selectedFiles := []; uploadProgress := []; validationResults := None;
     abortControllers := []; aborted := []; uploadQueue := [];
     activeUploads := []; suspended := []; batches := [];
     nextController := 0; reports := [] |}.

Definition withProgress (m : list (string * UploadProgress)) (h : Hook) : Hook :=
  {| selectedFiles := selectedFiles h; uploadProgress := m;
     validationResults := validationResults h;
     abortControllers := abortControllers h; aborted := aborted h;
     uploadQueue := uploadQueue h; activeUploads := activeUploads h;
     suspended := suspended h; batches := batches h;
     nextController := nextController h; reports := reports h |}.

Definition withControllers (m : list (string * nat)) (ab : list nat) (h : Hook)
    : Hook :=
  {| selectedFiles := selectedFiles h; uploadProgress := uploadProgress h;
     validationResults := validationResults h;
     abortControllers := m; aborted := ab;
     uploadQueue := uploadQueue h; activeUploads := activeUploads h;
     suspended := suspended h; batches := batches h;
     nextController := nextController h; reports := reports h |}.

Definition withQueue (q : list string) (h : Hook) : Hook :=
  {| selectedFiles := selectedFiles h; uploadProgress := uploadProgress h;
     validationResults := validationResults h;
     abortControllers := abortControllers h; aborted := aborted h;
     uploadQueue := q; activeUploads := activeUploads h;
     suspended := suspended h; batches := batches h;
     nextController := nextController h; reports := reports h |}.

Definition withActive (a : list string) (h : Hook) : Hook :=
  {| selectedFiles := selectedFiles h; uploadProgress := uploadProgress h;
     validationResults := validationResults h;
     abortControllers := abortControllers h; aborted := aborted h;
     uploadQueue := uploadQueue h; activeUploads := a;
     suspended := suspended h; batches := batches h;
     nextController := nextController h; reports := reports h |}.

Definition withSuspended (s : list Upload) (n : nat) (h : Hook) : Hook :=
  {| selectedFiles := selectedFiles h; uploadProgress := uploadProgress h;
     validationResults := validationResults h;
     abortControllers := abortControllers h; aborted := aborted h;
     uploadQueue := uploadQueue h; activeUploads := activeUploads h;
     suspended := s; batches := batches h;
     nextController := n; reports := reports h |}.

Definition withBatches (b : list Batch) (r : list (list UploadResult)) (h : Hook)
    : Hook :=
  {| selectedFiles := selectedFiles h; uploadProgress := uploadProgress h;
     validationResults := validationResults h;
     abortControllers := abortControllers h; aborted := aborted h;
     uploadQueue := uploadQueue h; activeUploads := activeUploads h;
     suspended := suspended h; batches := b;
     nextController := nextController h; reports := r |}.

Definition withSelection (fs : list File) (v : option BatchValidation)
    (m : list (string * UploadProgress)) (h : Hook) : Hook :=
  {| selectedFiles := fs; uploadProgress := m; validationResults := v;
     abortControllers := abortControllers h; aborted := aborted h;
     uploadQueue := uploadQueue h; activeUploads := activeUploads h;
     suspended := suspended h; batches := batches h;
     nextController := nextController h; reports := reports h |}.

Definition generateFileId (file : File) : string :=
  name file ++ "_" ++ Js.numToString (size file) ++ "_"
    ++ Js.numToString (lastModified file).

Definition fileEqb (a b : File) : bool :=
  String.eqb (name a) (name b) && (size a =? size b)%Z
  && String.eqb (type a) (type b) && (lastModified a =? lastModified b)%Z.

Section WithOptions.
(** [options.validationConfig] and [options.maxConcurrentUploads],
    defaults applied. *)
Variable validationConfig : FileValidationConfig.
Variable maxConcurrentUploads : Z.

Definition selectFiles (files : list File) (h : Hook) : Hook :=
  let validation := validateFiles files validationConfig in
  let progressMap :=
    fold_left
      (fun m file =>
         let id := generateFileId file in
         JsMap.set id
           {| fileId := id;
              fileName := name file;
              progress := 0;
              uploaded := 0;
              total := size file;
              speed := 0;
              status := if batchValid validation then pending else error;
              errorText :=
                (fun r => ValidationErrors (errors (snd r))) <$>
                  List.find (fun r => fileEqb (fst r) file)
                            (results validation) |}
           m)
      files [] in
  withSelection files (Some validation) progressMap h.

Definition updateProgress (id : string) (updates : ProgressUpdate) (h : Hook)
    : Hook :=
  match JsMap.get id (uploadProgress h) with
  | Some current =>
      withProgress (JsMap.set id (merge current updates) (uploadProgress h)) h
  | None => h
  end.

(** [uploadSingleFile(file)] up to [await fetch(...)]; the controller it
    created identifies the suspended call. *)
Definition uploadSingleFileStart (file : File) (h : Hook) : nat * Hook :=
  let id := generateFileId file in
  let ctl := nextController h in
  let h1 := withControllers (JsMap.set id ctl (abortControllers h)) (aborted h) h in
  let h2 :=
    updateProgress id
      {| u_progress := None; u_uploaded := None; u_status := Some uploading;
         u_errorText := None |} h1 in
  (ctl,
   withSuspended (suspended h2 ++ [{| up_ctl := ctl; up_file := file |}])
                 (S ctl) h2).

(** The [while] loop of [processUploadQueue] over what is left of
    [uploadQueueRef.current]. *)
Fixpoint processQueueLoop (queue : list string) (h : Hook) : Hook :=
  match queue with
  | [] => withQueue [] h
  | id :: rest =>
      if (Z.of_nat (JsSet.size (activeUploads h)) <? maxConcurrentUploads)%Z
      then
        match id with
        | EmptyString => processQueueLoop rest h
        | _ =>
            match List.find (fun f => String.eqb (generateFileId f) id)
                            (selectedFiles h) with
            | None => processQueueLoop rest h
            | Some file =>
                let h1 := withActive (JsSet.add id (activeUploads h)) h in
                processQueueLoop rest (snd (uploadSingleFileStart file h1))
            end
        end
      else withQueue queue h
  end.

Definition processUploadQueue (h : Hook) : Hook :=
  processQueueLoop (uploadQueue h) h.

(** [selectedFiles.map(async file => ... await uploadSingleFile(file) ...)]:
    every call runs up to its [await]. *)
Fixpoint startAll (files : list File) (h : Hook) : list nat * Hook :=
  match files with
  | [] => ([], h)
  | file :: rest =>
      let '(ctl, h1) := uploadSingleFileStart file h in
      let '(ctls, h2) := startAll rest h1 in
      (ctl :: ctls, h2)
  end.

(** [uploadFiles()] up to [await Promise.allSettled(promises)].  The
    [await processUploadQueue()] in between only yields to the microtask
    queue, which no [fetch] has reached yet. *)
Definition uploadFiles (h : Hook) : Hook :=
  match validationResults h with
  | Some v =>
      if batchValid v && negb (Nat.eqb (length (selectedFiles h)) 0) then
        let h1 := withQueue (map generateFileId (selectedFiles h)) h in
        let h2 := processUploadQueue h1 in
        let '(ctls, h3) := startAll (selectedFiles h2) h2 in
        withBatches (batches h3 ++ [{| awaiting := ctls; collected := [] |}])
                    (reports h3) h3
      else h
  | None => h
  end.

(** What the suspended call settles with: the value it resolves to, or
    the error it rejects with. *)
Definition settleUpdate (file : File) (outcome : FetchOutcome)
    : ProgressUpdate * (option string + ErrorHandler.NetworkError) :=
  match outcome with
  | FetchOk body =>
      ({| u_progress := Some 100%Z; u_uploaded := Some (size file);
          u_status := Some completed; u_errorText := None |},
       inl (Some body))
  | FetchAborted => (cancelledUpdate, inl None)
  | FetchNotOk st txt =>
      let e := ErrorHandler.newNetworkError ("Upload failed: " ++ txt) (Some st)
                 ErrorHandler.emptyContext false in
      ({| u_progress := None; u_uploaded := None; u_status := Some error;
          u_errorText := Some (Message (ErrorHandler.message e)) |},
       inr e)
  | FetchFailed msg =>
      let e := ErrorHandler.newNetworkError
                 (Js.strOr msg "Ошибка загрузки файла") None
                 ErrorHandler.emptyContext false in
      ({| u_progress := None; u_uploaded := None; u_status := Some error;
          u_errorText := Some (Message (ErrorHandler.message e)) |},
       inr e)
  end.

Definition toResult (id : string)
    (r : option string + ErrorHandler.NetworkError) : UploadResult :=
  match r with
  | inl resp =>
      {| res_fileId := id; success := true; response := resp;
         res_error := None |}
  | inr e =>
      {| res_fileId := id; success := false; response := None;
         res_error := Some e |}
  end.

(** The batches that wait for call [ctl] record its result; a batch with
    nothing left to wait for reports and ends. *)
Fixpoint noteResult (ctl : nat) (res : UploadResult) (bs : list Batch)
    : list Batch * list (list UploadResult) :=
  match bs with
  | [] => ([], [])
  | b :: rest =>
      let '(bs', out) := noteResult ctl res rest in
      if existsb (Nat.eqb ctl) (awaiting b) then
        let left := List.filter (fun c => negb (Nat.eqb ctl c)) (awaiting b) in
        let got := collected b ++ [res] in
        match left with
        | [] => (bs', got :: out)
        | _ => ({| awaiting := left; collected := got |} :: bs', out)
        end
      else (b :: bs', out)
  end.

(** The rest of [uploadSingleFile] for the call that owns [ctl], run
    when its [fetch] settles with [outcome]: the [try]/[catch] update,
    the [finally] block, then the continuation in [uploadFiles]. *)
Definition uploadSingleFileSettle (ctl : nat) (outcome : FetchOutcome)
    (h : Hook) : option Hook :=
  match List.find (fun u => Nat.eqb (up_ctl u) ctl) (suspended h) with
  | None => None
  | Some u =>
      let id := generateFileId (up_file u) in
      let '(upd, r) := settleUpdate (up_file u) outcome in
      let h1 := updateProgress id upd h in
      let h2 :=
        withControllers (JsMap.delete id (abortControllers h1)) (aborted h1) h1 in
      let h3 := withActive (JsSet.delete id (activeUploads h2)) h2 in
      let h4 :=
        withSuspended
          (List.filter (fun u' => negb (Nat.eqb (up_ctl u') ctl)) (suspended h3))
          (nextController h3) h3 in
      let '(bs, out) := noteResult ctl (toResult id r) (batches h4) in
      Some (withBatches bs (reports h4 ++ out) h4)
  end.

Definition abort (ctl : nat) (ab : list nat) : list nat :=
  if existsb (Nat.eqb ctl) ab then ab else ab ++ [ctl].

Definition cancelUpload (id : string) (h : Hook) : Hook :=
  let h1 :=
    match JsMap.get id (abortControllers h) with
    | Some ctl => withControllers (abortControllers h) (abort ctl (aborted h)) h
    | None => h
    end in
  let h2 :=
    withQueue (List.filter (fun q => negb (String.eqb q id)) (uploadQueue h1)) h1 in
  updateProgress id cancelledUpdate h2.

Definition cancelAllUploads (h : Hook) : Hook :=
  let ab := fold_left (fun acc kv => abort (snd kv) acc) (abortControllers h)
                      (aborted h) in
  let h1 := withControllers [] ab h in
  let h2 := withActive [] (withQueue [] h1) in
  fold_left
    (fun acc kv =>
       match status (snd kv) with
       | uploading | pending => updateProgress (fst kv) cancelledUpdate acc
       | _ => acc
       end)
    (uploadProgress h) h2.

Definition removeFile (id : string) (h : Hook) : Hook :=
  let h1 := cancelUpload id h in
  withSelection
    (List.filter (fun f => negb (String.eqb (generateFileId f) id))
                 (selectedFiles h1))
    (validationResults h1)
    (JsMap.delete id (uploadProgress h1)) h1.

Definition clearFiles (h : Hook) : Hook :=
  withSelection [] None [] (cancelAllUploads h).
End WithOptions.

(** [uploadStats.uploading] *)
Definition countStatus (s : Status) (h : Hook) : nat :=
  length (List.filter (fun kv => statusEqb (status (snd kv)) s) (uploadProgress h)).

Definition statusOf (id : string) (h : Hook) : option Status :=
  status <$> JsMap.get id (uploadProgress h).

Definition isTerminal (s : Status) : bool :=
  match s with
  | completed | error | cancelled => true
  | _ => false
  end.

(** [getOverallProgress()].  For an integer [a] and [n > 0],
    [Math.round(a / n)], which rounds a half upwards, is the floor of
    [(2a + n) / 2n]. *)
Definition getOverallProgress (h : Hook) : Z :=
  match uploadProgress h with
  | [] => 0
  | m =>
      let totalProgress :=
        fold_left (fun sum kv => sum + progress (snd kv)) m 0 in
      (2 * totalProgress + Z.of_nat (JsMap.size m)) / (2 * Z.of_nat (JsMap.size m))
  end%Z.

Record UploadStats := {
  st_total : nat;
  st_pending : nat;
  st_uploading : nat;
  st_completed : nat;
  st_error : nat;
  st_cancelled : nat
}.

Definition getUploadStats (h : Hook) : UploadStats :=
  {| st_total := length (uploadProgress h);
     st_pending := countStatus pending h;
     st_uploading := countStatus uploading h;
     st_completed := countStatus completed h;
     st_error := countStatus error h;
     st_cancelled := countStatus cancelled h |}.

(** The [isUploading] and [isCompleted] fields of the value the hook
    returns. *)
Definition isUploading (h : Hook) : bool :=
  existsb (fun kv => statusEqb (status (snd kv)) uploading) (uploadProgress h).

Definition isCompleted (h : Hook) : bool :=
  forallb (fun kv => isTerminal (status (snd kv))) (uploadProgress h).

(** Not part of the source: the text before and after the last underscore
    of [s], used to read a file id back. *)
Fixpoint cutLast (s : string) : option (string * string) :=
  match s with
  | EmptyString => None
  | String c rest =>
      match cutLast rest with
      | Some (a, b) => Some (String c a, b)
      | None => if Ascii.eqb c "_" then Some (EmptyString, rest) else None
      end
  end.

(** Whether [uploadSingleFile] returns for this outcome of its [fetch]
    rather than throws: it returns the response body, and [null] for an
    aborted upload. *)
Definition reportedSuccess (outcome : FetchOutcome) : bool :=
  match outcome with
  | FetchOk _ | FetchAborted => true
  | _ => false
  end.

(** The suspended calls named in [l] settle one after the other, each
    with the outcome given for it. *)
Fixpoint settleAll (l : list (nat * FetchOutcome)) (h : Hook) : option Hook :=
  match l with
  | [] => Some h
  | (ctl, outcome) :: rest =>
      match uploadSingleFileSettle ctl outcome h with
      | Some h' => settleAll rest h'
      | None => None
      end
  end.

(** Batches used below: PDF documents that pass validation, and a batch of
    four whose second file has an extension outside the allow-list. *)
Definition pdf (n : string) : File :=
  {| name := n; size := 1000; type := "application/pdf"; lastModified := 7 |}.

Definition tenFiles : list File :=
  map pdf ["a0.pdf"; "a1.pdf"; "a2.pdf"; "a3.pdf"; "a4.pdf";
           "a5.pdf"; "a6.pdf"; "a7.pdf"; "a8.pdf"; "a9.pdf"].

Definition mixedBatch : list File :=
  [pdf "a.pdf";
   {| name := "b.png"; size := 1000; type := "image/png";
      lastModified := 7 |};
   pdf "c.pdf"; pdf "d.pdf"].

(** Three files of 8 bytes under a limit of two files of 10 bytes. *)
Definition tightConfig : FileValidationConfig :=
  {| maxSize := 10; allowedTypes := []; allowedExtensions := [];
     maxFiles := Some 2%Z |}.

Definition threeNotes : list File :=
  [{| name := "a.txt"; size := 8; type := "text/plain"; lastModified := 1 |};
   {| name := "b.txt"; size := 8; type := "text/plain"; lastModified := 1 |};
   {| name := "c.txt"; size := 8; type := "text/plain"; lastModified := 1 |}].

(** Two files selected and [uploadFiles] called with the default bound:
    the calls 0 and 1 were started by [processUploadQueue], the calls 2 and
    3, which the batch awaits, by [uploadFiles] itself. *)
Definition twoStarted : Hook :=
  uploadFiles 3
    (selectFiles DEFAULT_VALIDATION_CONFIG [pdf "a0.pdf"; pdf "a1.pdf"] newHook).

(** ... and then both uploads of the first file have succeeded. *)
Definition oneDone : Hook :=
  default newHook
    (settleAll [(0%nat, FetchOk "{}"); (2%nat, FetchOk "{}")] twoStarted).

End FileUpload.

(* ===================================================================== *)
(** * hooks/useOptimisticUpdate.ts                                        *)
(* ===================================================================== *)

Module OptimisticUpdate.
Import ErrorHandler.

Section Hook.
Context {T : Type}.
(** [options.rollbackDelay]; absent, it is 3000. *)
Variable rollbackDelayOption : option Z.

Definition rollbackDelay : Z := default 3000%Z rollbackDelayOption.

Record OptimisticState := {
  data : T;
  loading : bool;
  error : option NetworkError;
  isOptimistic : bool
}.

(** A timeout set and neither fired nor cleared: when it is due and the
    error its callback captured. *)
Record Timer := {
  t_id : nat;
  t_due : Z;
  t_error : NetworkError
}.

Record Hook := {
  state : OptimisticState;
  rollbackTimeoutRef : option nat;
  originalDataRef : T;
  timers : list Timer;
  nextTimer : nat
}.

Definition useOptimisticUpdate (initialData : T) : Hook :=
  {| state := {| data := initialData; loading := false; error := None;
                 isOptimistic := false |};
     rollbackTimeoutRef := None;
     originalDataRef := initialData;
     timers := [];
     nextTimer := 1 |}.

Definition clearTimeout (id : option nat) (l : list Timer) : list Timer :=
  match id with
  | Some i => List.filter (fun t => negb (Nat.eqb (t_id t) i)) l
  | None => l
  end.

(** [executeOptimisticUpdate(optimisticData, params)] up to
    [await updateFunction(params)]. *)
Definition executeOptimisticUpdate (optimisticData : T) (h : Hook) : Hook :=
  {| state := {| data := optimisticData; loading := true; error := None;
                 isOptimistic := true |};
     rollbackTimeoutRef := rollbackTimeoutRef h;
     originalDataRef := data (state h);
     timers := clearTimeout (rollbackTimeoutRef h) (timers h);
     nextTimer := nextTimer h |}.

(** ... continued when [updateFunction] resolves. *)
Definition updateResolved (result : T) (h : Hook) : Hook :=
  {| state := {| data := result; loading := false; error := None;
                 isOptimistic := false |};
     rollbackTimeoutRef := rollbackTimeoutRef h;
     originalDataRef := originalDataRef h;
     timers := timers h;
     nextTimer := nextTimer h |}.

Definition toNetworkError (e : ErrorValue) : NetworkError :=
  match e with
  | Classified n => n
  | RawError t =>
      newNetworkError (Js.strOr (te_message t) "Ошибка обновления") None
                      emptyContext false
  end.

(** ... continued when [updateFunction] rejects, at clock reading [now]. *)
Definition updateRejected (e : ErrorValue) (now : Z) (h : Hook) : Hook :=
  let networkError := toNetworkError e in
  {| state := {| data := data (state h); loading := false;
                 error := Some networkError; isOptimistic := true |};
     rollbackTimeoutRef := Some (nextTimer h);
     originalDataRef := originalDataRef h;
     timers :=
       timers h ++
         [{| t_id := nextTimer h; t_due := (now + rollbackDelay)%Z;
             t_error := networkError |}];
     nextTimer := S (nextTimer h) |}.

(** The callback given to [setTimeout]. *)
Definition fire (t : Timer) (h : Hook) : Hook :=
  {| state := {| data := originalDataRef h; loading := false;
                 error := Some (t_error t); isOptimistic := false |};
     rollbackTimeoutRef := rollbackTimeoutRef h;
     originalDataRef := originalDataRef h;
     timers := List.filter (fun t' => negb (Nat.eqb (t_id t') (t_id t))) (timers h);
     nextTimer := nextTimer h |}.

(** The clock reaches [now] with no call in between: the timeouts that
    are due run, oldest first. *)
Definition elapse (now : Z) (h : Hook) : Hook :=
  fold_left (fun acc t => if (t_due t <=? now)%Z then fire t acc else acc)
            (timers h) h.

Definition rollbackImmediately (h : Hook) : Hook :=
  {| state := {| data := originalDataRef h; loading := loading (state h);
                 error := None; isOptimistic := false |};
     rollbackTimeoutRef := rollbackTimeoutRef h;
     originalDataRef := originalDataRef h;
     timers := clearTimeout (rollbackTimeoutRef h) (timers h);
     nextTimer := nextTimer h |}.

Definition updateData (newData : T) (h : Hook) : Hook :=
  {| state := {| data := newData; loading := loading (state h);
                 error := error (state h); isOptimistic := false |};
     rollbackTimeoutRef := rollbackTimeoutRef h;
     originalDataRef := newData;
     timers := timers h;
     nextTimer := nextTimer h |}.

Definition clearError (h : Hook) : Hook :=
  {| state := {| data := data (state h); loading := loading (state h);
                 error := None; isOptimistic := isOptimistic (state h) |};
     rollbackTimeoutRef := rollbackTimeoutRef h;
     originalDataRef := originalDataRef h;
     timers := timers h;
     nextTimer := nextTimer h |}.

(** Every timeout still pending is the one [rollbackTimeoutRef] holds:
    the hook is not in the middle of an earlier update. *)
Definition settledBefore (h : Hook) : Prop :=
  Forall (fun t => rollbackTimeoutRef h = Some (t_id t)) (timers h).

(** The hooks reached when the calls come one at a time: every update is
    applied after the one before it has settled, and the other calls and
    the passing of time fall between two updates. *)
Inductive sequential : Hook -> Prop :=
| seq_new (initialData : T) :
    sequential (useOptimisticUpdate initialData)
| seq_resolved (h : Hook) (optimisticData result : T) :
    sequential h ->
    sequential (updateResolved result (executeOptimisticUpdate optimisticData h))
| seq_rejected (h : Hook) (optimisticData : T) (e : ErrorValue) (now : Z) :
    sequential h ->
    sequential (updateRejected e now (executeOptimisticUpdate optimisticData h))
| seq_elapse (h : Hook) (now : Z) :
    sequential h -> sequential (elapse now h)
| seq_rollbackImmediately (h : Hook) :
    sequential h -> sequential (rollbackImmediately h)
| seq_updateData (h : Hook) (newData : T) :
    sequential h -> sequential (updateData newData h)
| seq_clearError (h : Hook) :
    sequential h -> sequential (clearError h).
End Hook.

Arguments Hook T : clear implicits.
Arguments OptimisticState T : clear implicits.

(** The failure of an update made while offline, used below. *)
Definition offline : ErrorValue :=
  RawError {| te_message := "Network Error"; te_response := None |}.

End OptimisticUpdate.

(* ===================================================================== *)
(** * hooks/useAsyncOperation.ts                                          *)
(* ===================================================================== *)

(** The hook of [unnamed/part_007]: one asynchronous function, called
    through [execute], with the state of its latest call. *)

Module AsyncOperation.
Import ErrorHandler.

Section Hook.
(** [T] is what [asyncFunction] resolves to, [A] the arguments of a call. *)
Context {T A : Type}.
(** [options.retainDataOnError] and [options.debounceMs]; absent, they
    are [true] and [0]. *)
Variable retainDataOnErrorOption : option bool.
Variable debounceMsOption : option Z.

Definition retainDataOnError : bool := default true retainDataOnErrorOption.
Definition debounceMs : Z := default 0%Z debounceMsOption.

Record AsyncState := {
  data : option T;
  loading : bool;
  error : option NetworkError;
  lastUpdated : option Z
}.

(** A timeout set by [execute] and neither fired nor cleared. *)
Record Timer := {
  t_id : nat;
  t_due : Z;
  t_args : A
}.

(** A call of [executeOperation] suspended at [await asyncFunction(...)];
    it owns the [AbortController] numbered [op_ctl]. *)
Record Operation := {
  op_ctl : nat;
  op_args : A
}.

Record Hook := {
  state : AsyncState;
  abortControllerRef : option nat;
  debounceTimeoutRef : option nat;
  aborted : list nat;
  timers : list Timer;
  running : list Operation;
  nextController : nat;
  nextTimer : nat;
  (** arguments of the calls of [asyncFunction] so far *)
  invoked : list A;
  (** arguments of the calls of [onSuccess] and [onError] so far *)
  notified : list (T + NetworkError)
}.

Definition initialState : AsyncState :=
  {| data := None; loading := false; error := None; lastUpdated := None |}.

Definition useAsyncOperation : Hook :=
  {| state := initialState; abortControllerRef := None;
     debounceTimeoutRef := None; aborted := []; timers := []; running := [];
     nextController := 0; nextTimer := 1; invoked := []; notified := [] |}.

Definition clearTimeout (id : option nat) (l : list Timer) : list Timer :=
  match id with
  | Some i => List.filter (fun t => negb (Nat.eqb (t_id t) i)) l
  | None => l
  end.

(** [if (abortControllerRef.current) abortControllerRef.current.abort()] *)
Definition abortCurrent (ref : option nat) (ab : list nat) : list nat :=
  match ref with
  | Some ctl => if existsb (Nat.eqb ctl) ab then ab else ab ++ [ctl]
  | None => ab
  end.

(** [executeOperation()] up to [await asyncFunction(...args)]. *)
Definition executeOperation (args : A) (h : Hook) : Hook :=
  let ctl := nextController h in
  {| state := {| data := data (state h); loading := true; error := None;
                 lastUpdated := lastUpdated (state h) |};
     abortControllerRef := Some ctl;
     debounceTimeoutRef := debounceTimeoutRef h;
     aborted := aborted h;
     timers := timers h;
     running := running h ++ [{| op_ctl := ctl; op_args := args |}];
     nextController := S ctl;
     nextTimer := nextTimer h;
     invoked := invoked h ++ [args];
     notified := notified h |}.

(** [execute(...args)] called at clock reading [now]. *)
Definition execute (now : Z) (args : A) (h : Hook) : Hook :=
  let h1 :=
    {| state := state h;
       abortControllerRef := abortControllerRef h;
       debounceTimeoutRef := debounceTimeoutRef h;
       aborted := abortCurrent (abortControllerRef h) (aborted h);
       timers := clearTimeout (debounceTimeoutRef h) (timers h);
       running := running h;
       nextController := nextController h;
       nextTimer := nextTimer h;
       invoked := invoked h;
       notified := notified h |} in
  if (debounceMs >? 0)%Z then
    {| state := state h1;
       abortControllerRef := abortControllerRef h1;
       debounceTimeoutRef := Some (nextTimer h1);
       aborted := aborted h1;
       timers :=
         timers h1 ++
           [{| t_id := nextTimer h1; t_due := (now + debounceMs)%Z;
               t_args := args |}];
       running := running h1;
       nextController := nextController h1;
       nextTimer := S (nextTimer h1);
       invoked := invoked h1;
       notified := notified h1 |}
  else executeOperation args h1.

Definition toNetworkError (e : ErrorValue) : NetworkError :=
  match e with
  | Classified n => n
  | RawError t =>
      newNetworkError (Js.strOr (te_message t) "Неизвестная ошибка") None
                      emptyContext false
  end.

(** The state written when a call that was not aborted settles at clock
    reading [now]. *)
Definition settledState (outcome : Outcome T) (now : Z) (prev : AsyncState)
    : AsyncState :=
  match outcome with
  | Resolved result =>
      {| data := Some result; loading := false; error := None;
         lastUpdated := Some now |}
  | Rejected e =>
      {| data := if retainDataOnError then data prev else None;
         loading := false; error := Some (toNetworkError e);
         lastUpdated := Some now |}
  end.

(** What [onSuccess] or [onError] is called with. *)
Definition notification (outcome : Outcome T) : T + NetworkError :=
  match outcome with
  | Resolved result => inl result
  | Rejected e => inr (toNetworkError e)
  end.

(** The rest of [executeOperation] for the call that owns [ctl], run when
    [asyncFunction] settles: the [try] or the [catch] part, which returns at
    once if the controller was aborted, then the [finally] block. *)
Definition operationSettled (ctl : nat) (outcome : Outcome T) (now : Z)
    (h : Hook) : option Hook :=
  match List.find (fun op => Nat.eqb (op_ctl op) ctl) (running h) with
  | None => None
  | Some _ =>
      let wasAborted := existsb (Nat.eqb ctl) (aborted h) in
      Some
        {| state :=
             if wasAborted then state h else settledState outcome now (state h);
           abortControllerRef := None;
           debounceTimeoutRef := debounceTimeoutRef h;
           aborted := aborted h;
           timers := timers h;
           running :=
             List.filter (fun op => negb (Nat.eqb (op_ctl op) ctl)) (running h);
           nextController := nextController h;
           nextTimer := nextTimer h;
           invoked := invoked h;
           notified :=
             if wasAborted then notified h
             else notified h ++ [notification outcome] |}
  end.

(** The callback given to [setTimeout]: [executeOperation] with the
    arguments of the call that set the timeout. *)
Definition fire (t : Timer) (h : Hook) : Hook :=
  executeOperation (t_args t)
    {| state := state h;
       abortControllerRef := abortControllerRef h;
       debounceTimeoutRef := debounceTimeoutRef h;
       aborted := aborted h;
       timers := List.filter (fun t' => negb (Nat.eqb (t_id t') (t_id t))) (timers h);
       running := running h;
       nextController := nextController h;
       nextTimer := nextTimer h;
       invoked := invoked h;
       notified := notified h |}.

(** The clock reaches [now] with no call in between: the timeouts that
    are due run, oldest first. *)
Definition elapse (now : Z) (h : Hook) : Hook :=
  fold_left (fun acc t => if (t_due t <=? now)%Z then fire t acc else acc)
            (timers h) h.

Definition reset (h : Hook) : Hook :=
  {| state := initialState;
     abortControllerRef := abortControllerRef h;
     debounceTimeoutRef := debounceTimeoutRef h;
     aborted := abortCurrent (abortControllerRef h) (aborted h);
     timers := clearTimeout (debounceTimeoutRef h) (timers h);
     running := running h;
     nextController := nextController h;
     nextTimer := nextTimer h;
     invoked := invoked h;
     notified := notified h |}.

Definition setData (newData : T) (now : Z) (h : Hook) : Hook :=
  {| state := {| data := Some newData; loading := loading (state h);
                 error := error (state h); lastUpdated := Some now |};
     abortControllerRef := abortControllerRef h;
     debounceTimeoutRef := debounceTimeoutRef h;
     aborted := aborted h;
     timers := timers h;
     running := running h;
     nextController := nextController h;
     nextTimer := nextTimer h;
     invoked := invoked h;
     notified := notified h |}.

Definition clearError (h : Hook) : Hook :=
  {| state := {| data := data (state h); loading := loading (state h);
                 error := None; lastUpdated := lastUpdated (state h) |};
     abortControllerRef := abortControllerRef h;
     debounceTimeoutRef := debounceTimeoutRef h;
     aborted := aborted h;
     timers := timers h;
     running := running h;
     nextController := nextController h;
     nextTimer := nextTimer h;
     invoked := invoked h;
     notified := notified h |}.

(** [isStale], read at clock reading [now]; a [lastUpdated] of [0] is
    falsy, like [null]. *)
Definition isStale (now : Z) (h : Hook) : bool :=
  match lastUpdated (state h) with
  | Some 0%Z | None => false
  | Some t => (now - t >? 5 * 60 * 1000)%Z
  end.

(** Calls of [execute] made at the given clock readings, the timeouts due
    by each reading having run before the call. *)
Definition executeAll (l : list (Z * A)) (h : Hook) : Hook :=
  fold_left (fun acc call => execute (fst call) (snd call) (elapse (fst call) acc))
            l h.

(** Controllers are numbered as they are created: those of the suspended
    calls, the aborted ones and the one in [abortControllerRef] are below
    [nextController]. *)
Definition wellFormed (h : Hook) : Prop :=
  Forall (fun op => (op_ctl op < nextController h)%nat) (running h)
  ∧ Forall (fun ctl => (ctl < nextController h)%nat) (aborted h)
  ∧ (∀ ctl, abortControllerRef h = Some ctl → (ctl < nextController h)%nat).

(** One timeout is pending, due at [due] for a call with the arguments
    [a], and it is the one [debounceTimeoutRef] holds. *)
Definition pendingCall (h : Hook) (due : Z) (a : A) : Prop :=
  ∃ i, timers h = [{| t_id := i; t_due := due; t_args := a |}]
       ∧ debounceTimeoutRef h = Some i.

(** Each call but the first is made less than [gap] after the one before
    it. *)
Fixpoint closeTogether (gap : Z) (l : list (Z * A)) : Prop :=
  match l with
  | call :: (next :: _) as rest =>
      (fst next < fst call + gap)%Z ∧ closeTogether gap rest
  | _ => True
  end.
End Hook.

Arguments Hook T A : clear implicits.
Arguments AsyncState T : clear implicits.

(** A hook for a function from a query to a text, before any call. *)
Definition idle : Hook string string := useAsyncOperation.

End AsyncOperation.

(* ===================================================================== *)
(** * utils/errorTranslation.ts                                           *)
(* ===================================================================== *)

(** [translateError], in the first half of [unnamed/part_009].  Texts are
    sequences of bytes. *)

Module ErrorTranslation.

(** [errorPatterns], in the order [Object.entries] lists it. *)
Definition errorPatterns : list (string * string) :=
  [("Failed to load dashboard data", "errors.dashboardLoadFailed");
   ("Network error", "errors.network");
   ("Server error", "errors.serverError");
   ("Unauthorized", "errors.unauthorized");
   ("Not found", "errors.notFound");
   ("Timeout", "errors.timeout");
   ("Connection failed", "errors.connectionFailed");
   ("Invalid response", "errors.invalidResponse");
   ("Permission denied", "errors.permissionDenied")].

(** [errorPatterns] is an object literal: indexing it with the name of a
    member of [Object.prototype] gives that member, not [undefined]. *)
Definition inheritedNames : list string :=
  ["constructor"; "__defineGetter__"; "__defineSetter__"; "hasOwnProperty";
   "__lookupGetter__"; "__lookupSetter__"; "isPrototypeOf";
   "propertyIsEnumerable"; "toString"; "valueOf"; "__proto__";
   "toLocaleString"].

Record TranslatedError := {
  message : string;
  isTranslated : bool
}.

Section Translate.
(** The translation function on a translation key; it returns the key
    itself when it has no text for it. *)
Variable t : string -> string.

(** The translation function on the member of [Object.prototype] found
    under the name [member]: the text it returns, or [None] when it hands
    the member back as it is, which is what a function that falls back on
    its argument does. *)
Variable tInherited : string -> option string.

(** [String.prototype.toLowerCase], which maps by the Unicode tables. *)
Variable toLowerCase : string -> string.

(** [errorPatterns[errorMessage]] followed by the test
    [exactMatch && t(exactMatch) !== exactMatch]; an inherited member is
    truthy, and passes the test unless [t] returns it unchanged. *)
Definition exactMatch (errorMessage : string) : option string :=
  match JsMap.get errorMessage errorPatterns with
  | Some translationKey =>
      if String.eqb (t translationKey) translationKey then None
      else Some (t translationKey)
  | None =>
      if FileValidation.includes errorMessage inheritedNames
      then tInherited errorMessage
      else None
  end.

(** The [for] loop over the entries not yet visited. *)
Fixpoint partialMatch (errorMessage : string) (entries : list (string * string))
    : option string :=
  match entries with
  | [] => None
  | (pattern, translationKey) :: rest =>
      if Cache.includes (toLowerCase pattern) (toLowerCase errorMessage)
      then
        let translatedMessage := t translationKey in
        if String.eqb translatedMessage translationKey
        then partialMatch errorMessage rest
        else Some translatedMessage
      else partialMatch errorMessage rest
  end.

Definition translateError (errorMessage : string) : TranslatedError :=
  match exactMatch errorMessage with
  | Some translated => {| message := translated; isTranslated := true |}
  | None =>
      match partialMatch errorMessage errorPatterns with
      | Some translated => {| message := translated; isTranslated := true |}
      | None => {| message := errorMessage; isTranslated := false |}
      end
  end.

(** [useErrorTranslation(t)] *)
Definition useErrorTranslation (errorMessage : string) : string :=
  message (translateError errorMessage).
End Translate.

(** A translation function with one text, falling back on its argument. *)
Definition oneText (key : string) : string :=
  if String.eqb key "errors.network" then "Нет соединения с сервером" else key.

End ErrorTranslation.

(* ===================================================================== *)
(** * Properties                                                          *)
(* ===================================================================== *)

(** ** The embedding on small inputs *)

Example generateFileId_pdf :
  FileUpload.generateFileId (FileUpload.pdf "a0.pdf") = "a0.pdf_1000_7".
Proof. reflexivity. Qed.

Example extension_lowercased :
  FileValidation.extension (FileUpload.pdf "Report.final.PDF") = ".pdf"
  ∧ FileValidation.extension (FileUpload.pdf "README") = ".readme".
Proof. split; reflexivity. Qed.

Example validateFile_png :
  FileValidation.errors
    (FileValidation.validateFile
       {| FileValidation.name := "b.png"; FileValidation.size := 1000;
          FileValidation.type := "image/png"; FileValidation.lastModified := 7 |}
       FileValidation.DEFAULT_VALIDATION_CONFIG)
  = [FileValidation.UnsupportedType; FileValidation.UnsupportedExtension].
Proof. reflexivity. Qed.

Example generateKey_no_params :
  Cache.generateKey "/dashboard" None = "/dashboard:"
  ∧ Cache.generateKey "/search" (Some [("limit", Json.PNum 10)])
    = ("/search:{" ++ Json.quote "limit" ++ ":10}")%string.
Proof. split; reflexivity. Qed.

Example standard_delays_without_jitter :
  let steady :=
    {| ErrorHandler.maxAttempts := 3; ErrorHandler.baseDelay := 1000;
       ErrorHandler.maxDelay := 5000; ErrorHandler.exponentialBase := 2;
       ErrorHandler.jitter := false |} in
  map (fun attempt => Qred (ErrorHandler.calculateDelay attempt steady 0))
      [1; 2; 3; 4]%Z
  = [1000; 2000; 4000; 5000]%Q.
Proof. reflexivity. Qed.

(** A message that names a member of [Object.prototype] and a [t] that
    falls back on its argument: nothing is translated.  A message that
    contains a pattern, in any letter case: the text of its key. *)
Example translateError_fallback :
  let translate :=
    ErrorTranslation.translateError ErrorTranslation.oneText (fun _ => None)
      FileValidation.toLowerCase in
  translate "constructor"
  = {| ErrorTranslation.message := "constructor";
       ErrorTranslation.isTranslated := false |}
  ∧ translate "NETWORK ERROR: socket hang up"
    = {| ErrorTranslation.message := ErrorTranslation.oneText "errors.network";
         ErrorTranslation.isTranslated := true |}
  ∧ translate "Timeout"
    = {| ErrorTranslation.message := "Timeout";
         ErrorTranslation.isTranslated := false |}.
Proof. repeat split; reflexivity. Qed.

Example isRetryableError_by_status :
  map (fun st =>
         ErrorHandler.isRetryableError
           (ErrorHandler.RawError
              {| ErrorHandler.te_message := "failed";
                 ErrorHandler.te_response :=
                   Some {| ErrorHandler.resp_status := st;
                           ErrorHandler.resp_data_message := None |} |}))
      [400; 404; 408; 409; 429; 500; 503]%Z
  = [false; false; true; true; true; true; true].
Proof. reflexivity. Qed.

(** ** Facts about insertion-ordered maps *)

Section JsMapFacts.
Context {V : Type}.
Implicit Types (m : list (string * V)) (k : string) (v : V).

Lemma JsMap_get_set_eq k v m : JsMap.get k (JsMap.set k v m) = Some v.
Proof.
  induction m as [|[k' v'] m IH]; simpl.
  - by rewrite String.eqb_refl.
  - destruct (String.eqb k k') eqn:E; simpl; rewrite E; [done | apply IH].
Qed.

Lemma JsMap_get_set_ne k k' v m :
  k ≠ k' → JsMap.get k' (JsMap.set k v m) = JsMap.get k' m.
Proof.
  intros Hne. induction m as [|[k0 v0] m IH]; simpl.
  - destruct (String.eqb_spec k' k); congruence.
  - destruct (String.eqb_spec k k0) as [->|]; simpl.
    + destruct (String.eqb_spec k' k0); congruence.
    + destruct (String.eqb_spec k' k0); [done | apply IH].
Qed.

Lemma JsMap_set_set k v1 v2 m :
  JsMap.set k v2 (JsMap.set k v1 m) = JsMap.set k v2 m.
Proof.
  induction m as [|[k' v'] m IH]; simpl.
  - by rewrite String.eqb_refl.
  - destruct (String.eqb k k') eqn:E; simpl; rewrite E; [done | by rewrite IH].
Qed.

Lemma JsMap_set_Forall (P : string * V → Prop) k v m :
  (∀ k', P (k', v)) → Forall P m → Forall P (JsMap.set k v m).
Proof.
  intros Hv. induction 1 as [|[k0 v0] m H0 Hm IH]; simpl.
  - constructor; [apply Hv | constructor].
  - destruct (String.eqb k k0); constructor; auto.
Qed.

End JsMapFacts.

Section JsMapOrder.
Context {V : Type}.
Implicit Types (m : list (string * V)) (k : string) (v : V).

Lemma JsMap_get_None k m : JsMap.get k m = None ↔ ¬ In k (JsMap.keys m).
Proof.
  induction m as [|[k' v'] m IH]; simpl; [tauto|].
  destruct (String.eqb_spec k k') as [->|Hne].
  - split; [done | tauto].
  - rewrite IH. split; [intros H [E|H']; [congruence | tauto] | tauto].
Qed.

Lemma JsMap_get_In k v m :
  JsMap.wf m → In (k, v) m → JsMap.get k m = Some v.
Proof.
  unfold JsMap.wf, JsMap.keys. induction m as [|[k' v'] m IH]; simpl; [done|].
  intros Hnd [E|Hin].
  - inversion E; subst. by rewrite String.eqb_refl.
  - apply NoDup_cons in Hnd as [Hk' Hnd].
    destruct (String.eqb_spec k k') as [->|Hne]; [|by apply IH].
    exfalso. apply Hk'. apply list_elem_of_In. apply in_map_iff. by exists (k', v).
Qed.

Lemma JsMap_get_Some_In k v m : JsMap.get k m = Some v → In (k, v) m.
Proof.
  induction m as [|[k' v'] m IH]; simpl; [done|].
  destruct (String.eqb_spec k k') as [->|Hne]; [intros [= ->]; by left | auto].
Qed.

Lemma JsMap_set_new k v m :
  ¬ In k (JsMap.keys m) → JsMap.set k v m = m ++ [(k, v)].
Proof.
  induction m as [|[k' v'] m IH]; simpl; [done|].
  intros Hn. destruct (String.eqb_spec k k') as [->|Hne]; [tauto|].
  rewrite IH; [done | tauto].
Qed.

Lemma JsMap_keys_set_old k v m :
  In k (JsMap.keys m) → JsMap.keys (JsMap.set k v m) = JsMap.keys m.
Proof.
  induction m as [|[k' v'] m IH]; simpl; [done|].
  intros [->|Hin].
  - by rewrite String.eqb_refl.
  - destruct (String.eqb_spec k k') as [->|Hne]; [done|]. simpl. by rewrite IH.
Qed.

Lemma JsMap_set_wf k v m : JsMap.wf m → JsMap.wf (JsMap.set k v m).
Proof.
  unfold JsMap.wf. intros Hwf.
  destruct (in_dec string_dec k (JsMap.keys m)) as [Hin|Hn].
  - by rewrite JsMap_keys_set_old.
  - rewrite JsMap_set_new by done. unfold JsMap.keys. rewrite map_app. simpl.
    apply NoDup_app. split; [done|]. split; [|apply NoDup_singleton].
    intros x Hx Hx'. apply list_elem_of_In in Hx. apply list_elem_of_singleton in Hx'. subst.
    done.
Qed.

Lemma JsMap_set_length k v m :
  length (JsMap.set k v m) = if JsMap.has k m then length m else S (length m).
Proof.
  unfold JsMap.has. induction m as [|[k' v'] m IH]; simpl; [done|].
  destruct (String.eqb_spec k k') as [->|Hne]; simpl; [done|].
  rewrite IH. by destruct (JsMap.get k m).
Qed.

Lemma JsMap_delete_filter k m :
  JsMap.wf m →
  JsMap.delete k m = List.filter (fun kv => negb (String.eqb k (fst kv))) m.
Proof.
  unfold JsMap.wf, JsMap.keys. induction m as [|[k' v'] m IH]; simpl; [done|].
  intros Hnd. apply NoDup_cons in Hnd as [Hk' Hnd].
  destruct (String.eqb_spec k k') as [->|Hne]; simpl.
  - symmetry. apply forallb_filter_id. apply forallb_forall.
    intros [k0 v0] Hin. simpl. destruct (String.eqb_spec k' k0) as [->|]; [|done].
    exfalso. apply Hk'. apply list_elem_of_In, in_map_iff. by exists (k0, v0).
  - by rewrite IH.
Qed.

Lemma JsMap_delete_length k m : (length (JsMap.delete k m) <= length m)%nat.
Proof.
  induction m as [|[k' v'] m IH]; simpl; [done|].
  destruct (String.eqb k k'); simpl; lia.
Qed.

Lemma JsMap_delete_keys_sub k m x :
  In x (JsMap.keys (JsMap.delete k m)) → In x (JsMap.keys m).
Proof.
  induction m as [|[k' v'] m IH]; simpl; [done|].
  destruct (String.eqb k k'); simpl; [tauto|]. intros [->|H]; [by left | right; auto].
Qed.

Lemma JsMap_delete_wf k m : JsMap.wf m → JsMap.wf (JsMap.delete k m).
Proof.
  unfold JsMap.wf, JsMap.keys. induction m as [|[k' v'] m IH]; simpl; [done|].
  intros Hnd. apply NoDup_cons in Hnd as [Hk' Hnd].
  destruct (String.eqb k k'); simpl; [done|].
  apply NoDup_cons. split; [|by apply IH].
  intros Hin. apply Hk'. apply list_elem_of_In. apply list_elem_of_In in Hin.
  by apply JsMap_delete_keys_sub in Hin.
Qed.

Lemma JsMap_deleteAll_length ks m : (length (JsMap.deleteAll ks m) <= length m)%nat.
Proof.
  unfold JsMap.deleteAll. revert m. induction ks as [|k ks IH]; intros m; simpl; [done|].
  etrans; [apply IH|]. apply JsMap_delete_length.
Qed.

Lemma JsMap_deleteAll_wf ks m : JsMap.wf m → JsMap.wf (JsMap.deleteAll ks m).
Proof.
  unfold JsMap.deleteAll. revert m. induction ks as [|k ks IH]; intros m Hwf; simpl; [done|].
  apply IH. by apply JsMap_delete_wf.
Qed.

(** Deleting the first [n] keys drops the first [n] entries. *)
Lemma JsMap_deleteAll_take n m :
  JsMap.deleteAll (take n (JsMap.keys m)) m = drop n m.
Proof.
  unfold JsMap.deleteAll. revert m. induction n as [|n IH]; intros m; simpl.
  - by rewrite drop_0.
  - destruct m as [|[k v] m]; simpl; [done|].
    rewrite String.eqb_refl. apply IH.
Qed.

Lemma JsMap_filter_wf (f : string * V → bool) m :
  JsMap.wf m → JsMap.wf (List.filter f m).
Proof.
  unfold JsMap.wf, JsMap.keys. induction m as [|kv m IH]; simpl; [done|].
  intros Hnd. apply NoDup_cons in Hnd as [Hk Hnd].
  destruct (f kv); [|by apply IH]. simpl. apply NoDup_cons. split; [|by apply IH].
  intros Hin. apply Hk. apply list_elem_of_In. apply list_elem_of_In in Hin.
  apply in_map_iff in Hin as (x & Hx & Hin). apply in_map_iff. exists x. split; [done|].
  apply filter_In in Hin. tauto.
Qed.

Lemma JsMap_drop_wf n m : JsMap.wf m → JsMap.wf (drop n m).
Proof.
  unfold JsMap.wf, JsMap.keys. intros Hnd.
  rewrite <- (take_drop n m), map_app in Hnd. apply NoDup_app in Hnd. tauto.
Qed.
End JsMapOrder.

(* --------------------------------------------------------------------- *)
(** ** Retry policy                                                       *)
(* --------------------------------------------------------------------- *)

Section RetryFacts.
Import ErrorHandler.
Context {T : Type}.
Variable operation : Z → Outcome T.
Variable random : Z → Q.
Variable cfg : RetryConfig.
Variable ctx : ErrorContext.



Lemma retryLoop_retry k attempt last e :
  operation attempt = Rejected e → isRetryableError e = true →
  attempt ≠ maxAttempts cfg →
  let r := retryLoop operation random cfg ctx k (attempt + 1) (Some e) in
  retryLoop operation random cfg ctx (S k) attempt last
  = {| settled := settled r; calls := S (calls r);
       sleeps := calculateDelay attempt cfg (random attempt) :: sleeps r |}.
Proof.
  intros Hop Hr Hne. cbn [retryLoop]. rewrite Hop, Hr.
  destruct (Z.eqb_spec attempt (maxAttempts cfg)); [done|]. done.
Qed.


End RetryFacts.

Section DelayFacts.
Import ErrorHandler.







End DelayFacts.

(* --------------------------------------------------------------------- *)
(** ** Cache keys                                                         *)
(* --------------------------------------------------------------------- *)

Section JsonFacts.
Import Json.
Local Open Scope string_scope.

Lemma string_app_cons x (a b : string) : String x a ++ b = String x (a ++ b).
Proof. reflexivity. Qed.

Lemma string_app_nil (b : string) : EmptyString ++ b = b.
Proof. reflexivity. Qed.

Lemma string_app_assoc (a b c : string) : (a ++ b) ++ c = a ++ (b ++ c).
Proof. induction a as [|x a IH]; [done|]. rewrite !string_app_cons. by f_equal. Qed.

Ltac norm_app := rewrite ?string_app_cons, ?string_app_nil in *.

Lemma unescape_escapeChar c s :
  unescape (escapeChar c ++ s)
  = match unescape s with
    | Some (a, r) => Some (String c a, r)
    | None => None
    end.
Proof.
  destruct c as [[] [] [] [] [] [] [] []]; reflexivity.
Qed.

Lemma unescape_escape s r :
  unescape (escape s ++ String dquote r) = Some (s, r).
Proof.
  induction s as [|c s IH]; [reflexivity|].
  cbn [escape]. rewrite string_app_assoc, unescape_escapeChar, IH. reflexivity.
Qed.

(** A quoted string is a prefix code. *)
Lemma quote_inj a b r1 r2 :
  quote a ++ r1 = quote b ++ r2 → a = b ∧ r1 = r2.
Proof.
  unfold quote. intros H. norm_app. injection H as H.
  rewrite !string_app_assoc in H. norm_app.
  apply (f_equal unescape) in H. rewrite !unescape_escape in H.
  by injection H.
Qed.

Lemma span_inj (p : ascii → bool) s1 : ∀ s2 r1 r2,
  allChars p s1 = true → allChars p s2 = true →
  (∀ c rest, r1 = String c rest → p c = false) →
  (∀ c rest, r2 = String c rest → p c = false) →
  s1 ++ r1 = s2 ++ r2 → s1 = s2 ∧ r1 = r2.
Proof.
  induction s1 as [|c s1 IH]; intros s2 r1 r2 H1 H2 Hr1 Hr2 E.
  - destruct s2 as [|d s2]; [done|]. exfalso. norm_app. cbn in H2.
    apply andb_true_iff in H2 as [Hd _]. rewrite (Hr1 d _ E) in Hd. done.
  - destruct s2 as [|d s2].
    + exfalso. norm_app. cbn in H1. apply andb_true_iff in H1 as [Hc _].
      symmetry in E. rewrite (Hr2 c _ E) in Hc. done.
    + norm_app. cbn in H1, H2. injection E as -> E.
      apply andb_true_iff in H1 as [_ H1]. apply andb_true_iff in H2 as [_ H2].
      destruct (IH s2 r1 r2 H1 H2 Hr1 Hr2 E) as [-> ->]. done.
Qed.

Lemma uint_digits d : allChars isNumChar (NilEmpty.string_of_uint d) = true.
Proof. induction d; cbn; done. Qed.

Lemma numToString_chars z : allChars isNumChar (Js.numToString z) = true.
Proof.
  unfold Js.numToString, NilZero.string_of_int, NilZero.string_of_uint.
  destruct (Z.to_int z) as [d|d]; destruct d; cbn; try done; apply uint_digits.
Qed.

Lemma numToString_inj z1 z2 : Js.numToString z1 = Js.numToString z2 → z1 = z2.
Proof.
  unfold Js.numToString. intros E.
  apply (f_equal NilZero.int_of_string) in E.
  assert (Hnn : ∀ z, Z.to_int z ≠ Decimal.Pos Decimal.Nil
                     ∧ Z.to_int z ≠ Decimal.Neg Decimal.Nil).
  { intros [|p|p]; cbn; split; try done; intros [= H];
      by apply (Unsigned.to_uint_nonnil p). }
  rewrite !NilZero.isi in E by apply Hnn.
  injection E as E. apply (f_equal Z.of_int) in E. by rewrite !DecimalZ.of_to in E.
Qed.

Lemma numToString_head z :
  ∃ c s, Js.numToString z = String c s ∧ isNumChar c = true.
Proof.
  unfold Js.numToString, NilZero.string_of_int, NilZero.string_of_uint.
  destruct (Z.to_int z) as [d|d]; [destruct d|]; cbn [NilEmpty.string_of_uint];
    (eexists _, _; split; reflexivity).
Qed.

Lemma closes_not_num s c rest : closes s → s = String c rest → isNumChar c = false.
Proof. intros [r [->| ->]] [= <- _]; reflexivity. Qed.

Lemma serPrim_inj v1 v2 r1 r2 :
  closes r1 → closes r2 →
  serPrim v1 ++ r1 = serPrim v2 ++ r2 → v1 = v2 ∧ r1 = r2.
Proof.
  intros Hc1 Hc2 E.
  destruct v1 as [|b1|n1|s1], v2 as [|b2|n2|s2]; cbn [serPrim] in E.
  all: try destruct b1; try destruct b2.
  all: try (destruct (numToString_head n1) as (c & s & Hn & Hd)).
  all: try (destruct (numToString_head n2) as (c' & s' & Hn' & Hd')).
  all: try (unfold quote in E).
  all: try (norm_app; injection E; intros; subst; done).
  all: try (rewrite Hn in E; norm_app; injection E; intros; subst; done).
  all: try (rewrite Hn' in E; norm_app; injection E; intros; subst; done).
  - (* two numbers *)
    clear Hn Hn' Hd Hd'.
    destruct (span_inj isNumChar _ _ r1 r2 (numToString_chars n1)
                (numToString_chars n2)
                (fun c rest => closes_not_num r1 c rest Hc1)
                (fun c rest => closes_not_num r2 c rest Hc2) E) as [En ->].
    by apply numToString_inj in En as ->.
  - (* two strings *)
    destruct (quote_inj s1 s2 r1 r2 E) as [-> ->]. done.
Qed.

Lemma serEntries_cons kv l : serEntries (kv :: l) = serEntry kv ++ tailText l.
Proof. destruct l; reflexivity. Qed.

Lemma tailText_closes l : closes (tailText l).
Proof. destruct l; eexists; [right | left]; reflexivity. Qed.

Lemma serEntries_inj l1 : ∀ l2, serEntries l1 = serEntries l2 → l1 = l2.
Proof.
  induction l1 as [|[k1 v1] l1 IH]; intros [|[k2 v2] l2] E.
  - done.
  - exfalso. rewrite serEntries_cons in E. unfold serEntry, quote in E.
    cbn [serEntries fst] in E. norm_app. by injection E.
  - exfalso. rewrite serEntries_cons in E. unfold serEntry, quote in E.
    cbn [serEntries fst] in E. norm_app. by injection E.
  - rewrite !serEntries_cons in E. unfold serEntry in E. cbn [fst snd] in E.
    rewrite !string_app_assoc in E.
    apply quote_inj in E as [-> E]. norm_app. injection E as E.
    apply serPrim_inj in E as [-> E]; [|apply tailText_closes..].
    f_equal. destruct l1 as [|kv1 l1], l2 as [|kv2 l2]; try done.
    cbn [tailText] in E. norm_app. injection E as E. by apply IH.
Qed.

Lemma stringify_inj a b : stringify a = stringify b → a = b.
Proof. unfold stringify. intros E. norm_app. injection E as E. by apply serEntries_inj. Qed.

(** C2, amended.  The cache key is the url, a colon and
    [JSON.stringify(params)], and [JSON.stringify] writes the properties in
    the order the object enumerates them: two requests to one endpoint get
    the same key exactly when their params objects enumerate the same
    key-value pairs in the same order (or are both absent). *)
Theorem C2_cache_key_follows_order url (a b : option Params) :
  Cache.generateKey url a = Cache.generateKey url b ↔ a = b.
Proof.
  split; [|by intros ->]. unfold Cache.generateKey. intros E.
  apply String.app_inj in E. norm_app. injection E as E.
  destruct a as [a|], b as [b|]; try done.
  by apply stringify_inj in E as ->.
Qed.

(** C2 as stated fails for a search request: the same two parameters,
    inserted in the two possible orders, give two different keys. *)
Lemma C2_counterexample :
  let paramsA := [("limit", PNum 10); ("q", PStr "invoice")]%list in
  let paramsB := [("q", PStr "invoice"); ("limit", PNum 10)]%list in
  paramsA ≡ₚ paramsB
  ∧ Cache.generateKey "/search" (Some paramsA)
    ≠ Cache.generateKey "/search" (Some paramsB).
Proof.
  split.
  - apply Permutation_swap.
  - vm_compute. discriminate.
Qed.

End JsonFacts.

(* --------------------------------------------------------------------- *)
(** ** Response cache                                                     *)
(* --------------------------------------------------------------------- *)

Section CacheFacts.
Import Cache.
Context {V : Type}.
Variable config : CacheConfig.
Implicit Types (m : list (string * CacheItem V)) (now : Z).

Lemma JsMap_wf_inj {A} (m : list (string * A)) e1 e2 :
  JsMap.wf m → In e1 m → In e2 m → fst e1 = fst e2 → e1 = e2.
Proof.
  intros Hwf H1 H2 E. destruct e1 as [k v1], e2 as [k2 v2]. simpl in E. subst k2.
  pose proof (JsMap_get_In k v1 m Hwf H1). pose proof (JsMap_get_In k v2 m Hwf H2).
  congruence.
Qed.

Lemma filter_twice {A} (f g : A → bool) (l : list A) :
  List.filter f (List.filter g l) = List.filter (fun x => g x && f x) l.
Proof.
  induction l as [|x l IH]; simpl; [done|].
  destruct (g x); simpl; [destruct (f x)|]; by rewrite IH.
Qed.

Lemma removeExpired_filter now m :
  JsMap.wf m → removeExpired now m = List.filter (isFresh now) m.
Proof.
  intros Hwf. unfold removeExpired.
  assert (Hgen : ∀ (l acc : list (string * CacheItem V)), JsMap.wf acc →
    fold_left (fun (acc : list (string * CacheItem V)) entry =>
                 if isExpired now (snd entry) then JsMap.delete (fst entry) acc else acc)
              l acc
    = List.filter
        (fun kv => forallb (fun e : string * CacheItem V => negb (isExpired now (snd e)
                                           && String.eqb (fst e) (fst kv))) l) acc).
  { induction l as [|e l IH]; intros acc Hacc; simpl.
    - symmetry. apply forallb_filter_id. by apply forallb_forall.
    - destruct (isExpired now (snd e)) eqn:Ee; simpl.
      + rewrite IH by (by apply JsMap_delete_wf).
        rewrite JsMap_delete_filter by done. rewrite filter_twice.
        apply filter_ext. intros kv. done.
      + by rewrite IH. }
  rewrite Hgen by done. apply filter_ext_in. intros kv Hkv.
  unfold isFresh. destruct (isExpired now (snd kv)) eqn:Ek; simpl.
  - apply not_true_is_false. intros Hall. rewrite forallb_forall in Hall.
    specialize (Hall kv Hkv). rewrite Ek, String.eqb_refl in Hall. done.
  - apply forallb_forall. intros e He.
    destruct (String.eqb_spec (fst e) (fst kv)) as [E|]; [|by rewrite andb_false_r].
    rewrite (JsMap_wf_inj m e kv Hwf He Hkv E), Ek. done.
Qed.

(** [cleanup]: the entries that are not expired, in insertion order, less
    as many of the oldest as exceed [maxSize]. *)
Lemma cleanup_spec now m :
  JsMap.wf m → (0 <= maxSize config)%Z →
  cleanup config now m
  = drop (length (List.filter (isFresh now) m) - Z.to_nat (maxSize config))
         (List.filter (isFresh now) m).
Proof.
  intros Hwf Hmax. unfold cleanup. rewrite removeExpired_filter by done.
  set (m1 := List.filter (isFresh now) m). unfold JsMap.size.
  destruct (Z.gtb_spec (Z.of_nat (length m1)) (maxSize config)) as [Hgt|Hle].
  - rewrite JsMap_deleteAll_take. f_equal. lia.
  - replace (length m1 - Z.to_nat (maxSize config))%nat with 0%nat by lia.
    by rewrite drop_0.
Qed.

Lemma cleanup_wf now m :
  JsMap.wf m → JsMap.wf (cleanup config now m).
Proof.
  intros Hwf. unfold cleanup. rewrite removeExpired_filter by done.
  destruct (_ >? _)%Z.
  - apply JsMap_deleteAll_wf. by apply JsMap_filter_wf.
  - by apply JsMap_filter_wf.
Qed.

Lemma cleanup_length now m :
  JsMap.wf m → (0 <= maxSize config)%Z →
  (Z.of_nat (length (cleanup config now m)) <= maxSize config)%Z.
Proof.
  intros Hwf Hmax. rewrite cleanup_spec by done. rewrite length_drop. lia.
Qed.

Lemma reachable_wf m : reachable config m → JsMap.wf m.
Proof.
  induction 1.
  - apply NoDup_nil_2.
  - unfold get. destruct (JsMap.get _ _) as [item|]; [destruct (negb _)|];
      by apply cleanup_wf.
  - unfold set. apply cleanup_wf. by apply JsMap_set_wf.
  - by apply JsMap_delete_wf.
  - by apply JsMap_deleteAll_wf.
  - apply NoDup_nil_2.
Qed.

Lemma reachable_bounded m :
  (0 <= maxSize config)%Z → reachable config m →
  (Z.of_nat (length m) <= maxSize config)%Z.
Proof.
  intros Hmax. induction 1 as [|now url params cache H IH|now url value params ttl0 cache H IH
                               |url params cache H IH|pattern cache H IH|cache H IH].
  - simpl. lia.
  - unfold get. destruct (JsMap.get _ _) as [item|]; [destruct (negb _)|]; simpl;
      apply cleanup_length; auto using reachable_wf.
  - unfold set. apply cleanup_length; [|done]. apply JsMap_set_wf. by apply reachable_wf.
  - unfold invalidate. pose proof (JsMap_delete_length (generateKey url params) cache). lia.
  - unfold invalidatePattern.
    pose proof (JsMap_deleteAll_length
                  (List.filter (includes pattern) (JsMap.keys cache)) cache). lia.
  - simpl. lia.
Qed.
End CacheFacts.

Section CacheProperties.
Import Cache.
Context {V : Type}.
Variable config : CacheConfig.
Implicit Types (m : list (string * CacheItem V)) (now : Z).

Lemma filter_all {A} (f : A → bool) (l : list A) :
  Forall (fun x => f x = true) l → List.filter f l = l.
Proof.
  induction 1 as [|x l Hx Hl IH]; simpl; [done|]. by rewrite Hx, IH.
Qed.

Lemma In_drop {A} n (l : list A) x : In x (drop n l) → In x l.
Proof. intros H. rewrite <- (take_drop n l). apply in_app_iff. by right. Qed.

Lemma insert_fresh m (i : Insertion V) :
  JsMap.wf m → (0 <= maxSize config)%Z →
  ¬ In (ins_key i) (JsMap.keys m) →
  Forall (fun e => isFresh (ins_now i) e = true) (m ++ [entryOf config i]) →
  insert config m i
  = drop (length m + 1 - Z.to_nat (maxSize config)) (m ++ [entryOf config i]).
Proof.
  intros Hwf Hmax Hnew Hfresh. unfold insert, set.
  fold (ins_key i).
  assert (Hwf' : JsMap.wf (m ++ [entryOf config i])).
  { unfold entryOf. rewrite <- JsMap_set_new by done. by apply JsMap_set_wf. }
  rewrite JsMap_set_new by done.
  change (ins_key i, _) with (entryOf config i).
  rewrite cleanup_spec by done.
  rewrite filter_all by done. rewrite length_app. simpl. done.
Qed.

Lemma insertAll_fresh (l : list (Insertion V)) : ∀ m,
  (0 <= maxSize config)%Z →
  (length m <= Z.to_nat (maxSize config))%nat →
  NoDup (JsMap.keys m ++ map ins_key l) →
  Forall (fun e => Forall (fun j => isFresh (ins_now j) e = true) l) m →
  staysFresh config l →
  insertAll config l m
  = drop (length m + length l - Z.to_nat (maxSize config)) (m ++ map (entryOf config) l).
Proof.
  induction l as [|i l IH]; intros m Hmax Hlen Hnd Hm Hl.
  - simpl. rewrite app_nil_r.
    replace (length m + 0 - Z.to_nat (maxSize config))%nat with 0%nat by lia.
    by rewrite drop_0.
  - cbn [insertAll fold_left]. fold (insertAll config l (insert config m i)).
    destruct Hl as [Hi Hl].
    apply NoDup_app in Hnd as (Hndm & Hdisj & Hndl).
    apply NoDup_cons in Hndl as [Hil Hndl].
    assert (Hnew : ¬ In (ins_key i) (JsMap.keys m)).
    { intros Hin. apply (Hdisj (ins_key i)); [by apply list_elem_of_In | left]. }
    assert (Hei : ∀ j, In j (i :: l) → isFresh (ins_now j) (entryOf config i) = true).
    { intros j Hj. rewrite Forall_forall in Hi. specialize (Hi j).
      unfold isFresh, isExpired, entryOf. cbn [snd timestamp ttl].
      apply negb_true_iff. rewrite Z.gtb_ltb. apply Z.ltb_ge. apply Hi.
      by apply list_elem_of_In. }
    rewrite insert_fresh; [|done|done|done|].
    2:{ apply Forall_app. split.
        - eapply Forall_impl; [exact Hm|]. intros e He. simpl in He.
          by apply Forall_cons in He as [? _].
        - constructor; [|constructor]. apply Hei. by left. }
    set (d := (length m + 1 - Z.to_nat (maxSize config))%nat).
    rewrite IH; [| done | | | | done].
    + rewrite length_drop, length_app. cbn [length map].
      replace (m ++ entryOf config i :: map (entryOf config) l)
        with ((m ++ [entryOf config i]) ++ map (entryOf config) l) by (by rewrite <- app_assoc).
      rewrite <- (drop_app_le (m ++ [entryOf config i]) (map (entryOf config) l) d)
        by (rewrite length_app; simpl; lia).
      rewrite drop_drop. f_equal. lia.
    + rewrite length_drop, length_app. simpl. lia.
    + apply NoDup_app. split; [|split; [|done]].
      * apply (JsMap_drop_wf d (m ++ [entryOf config i])).
        unfold entryOf. rewrite <- JsMap_set_new by done. by apply JsMap_set_wf.
      * intros x Hx Hx'. apply list_elem_of_In in Hx.
        unfold JsMap.keys in Hx. apply in_map_iff in Hx as (e & <- & He).
        apply In_drop in He. apply in_app_iff in He as [He|[<-|[]]].
        -- apply (Hdisj (fst e)).
           ++ apply list_elem_of_In, in_map_iff. eauto.
           ++ by right.
        -- simpl in Hx'. done.
    + apply Forall_forall. intros e He.
      apply list_elem_of_In, In_drop in He. apply in_app_iff in He as [He|[<-|[]]].
      * rewrite Forall_forall in Hm. apply list_elem_of_In in He.
        specialize (Hm e He). by apply Forall_cons in Hm as [_ ?].
      * apply Forall_forall. intros j Hj. apply Hei. right. by apply list_elem_of_In.
Qed.

Lemma JsMap_set_In k (v : CacheItem V) m : In (k, v) (JsMap.set k v m).
Proof. apply JsMap_get_Some_In, JsMap_get_set_eq. Qed.

(** After [set], the written entry is in the store (provided it has not
    expired at once and the store has room for one entry). *)
Lemma set_keeps_entry m now url value params ttl0 :
  JsMap.wf m → (1 <= maxSize config)%Z →
  (Z.of_nat (length m) <= maxSize config)%Z →
  (0 <= Js.numOr ttl0 (defaultTTL config))%Z →
  In (generateKey url params,
      {| data := value; timestamp := now;
         ttl := Js.numOr ttl0 (defaultTTL config) |})
     (set config now url value params ttl0 m).
Proof.
  intros Hwf Hmax Hlen Httl. unfold set.
  set (key := generateKey url params).
  set (item := {| data := value; timestamp := now; ttl := _ |}).
  assert (Hfresh : isFresh now (key, item) = true).
  { unfold isFresh, isExpired, item. cbn [snd timestamp ttl]. apply negb_true_iff.
    rewrite Z.gtb_ltb. apply Z.ltb_ge. lia. }
  rewrite cleanup_spec; [|by apply JsMap_set_wf|lia].
  destruct (in_dec string_dec key (JsMap.keys m)) as [Hold|Hnew].
  - assert (Hl : length (JsMap.set key item m) = length m).
    { rewrite <- !(length_map fst). fold (JsMap.keys (JsMap.set key item m)).
      by rewrite JsMap_keys_set_old. }
    pose proof (filter_length_le (isFresh now) (JsMap.set key item m)).
    replace (_ - _)%nat with 0%nat by lia. rewrite drop_0.
    apply filter_In. split; [apply JsMap_set_In | done].
  - rewrite JsMap_set_new by done. rewrite List.filter_app. cbn [List.filter].
    rewrite Hfresh. rewrite length_app. cbn [length].
    pose proof (filter_length_le (isFresh now) m).
    rewrite drop_app_le by lia. apply in_app_iff. right. by left.
Qed.

(** C5, amended.  In a cache with room for at least one entry, an entry
    stored by [set] with a non-negative time-to-live [T] (the [ttl] argument,
    or [defaultTTL] when it is absent or zero) is returned by [get] of the
    same key at every clock reading with [now - storedAt <= T], the boundary
    [now - storedAt = T] included, and [get] returns [null] at every reading
    with [now - storedAt > T]. *)
Theorem C5_ttl_expiry m now0 url value params ttl0 now :
  reachable config m →
  (1 <= maxSize config)%Z →
  (0 <= Js.numOr ttl0 (defaultTTL config))%Z →
  let T := Js.numOr ttl0 (defaultTTL config) in
  let m1 := set config now0 url value params ttl0 m in
  ((now - now0 <= T)%Z → fst (get config now url params m1) = Some value)
  ∧ ((now - now0 > T)%Z → fst (get config now url params m1) = None).
Proof.
  intros Hreach Hmax Httl T m1.
  set (key := generateKey url params).
  set (item := {| data := value; timestamp := now0; ttl := T |}).
  assert (Hm1 : reachable config m1) by (by apply reach_set).
  pose proof (reachable_wf config m1 Hm1) as Hwf1.
  pose proof (reachable_bounded config m1 ltac:(lia) Hm1) as Hlen1.
  assert (Hin : In (key, item) m1).
  { apply set_keeps_entry; [by apply (reachable_wf config)|done| |done].
    apply reachable_bounded; [lia|done]. }
  assert (Hcl : cleanup config now m1 = List.filter (isFresh now) m1).
  { rewrite cleanup_spec by (done || lia).
    pose proof (filter_length_le (isFresh now) m1).
    replace (_ - _)%nat with 0%nat by lia. by rewrite drop_0. }
  unfold get. fold key. rewrite Hcl.
  split; intros Hage.
  - assert (Hf : isFresh now (key, item) = true).
    { unfold isFresh, isExpired, item. cbn [snd timestamp ttl]. apply negb_true_iff.
      rewrite Z.gtb_ltb. apply Z.ltb_ge. lia. }
    rewrite (JsMap_get_In key item); [| by apply JsMap_filter_wf | by apply filter_In].
    unfold isFresh in Hf. cbn [snd] in Hf. rewrite Hf. done.
  - assert (Hf : isFresh now (key, item) = false).
    { unfold isFresh, isExpired, item. cbn [snd timestamp ttl]. apply negb_false_iff.
      apply Z.gtb_lt. lia. }
    destruct (JsMap.get key (List.filter (isFresh now) m1)) as [item'|] eqn:Eg; [|done].
    apply JsMap_get_Some_In, filter_In in Eg as [Hin' Hf'].
    assert (item' = item) as ->.
    { pose proof (JsMap_wf_inj m1 (key, item') (key, item) Hwf1 Hin' Hin eq_refl).
      congruence. }
    congruence.
Qed.

(** C9.  With a non-negative [maxSize]: every store the cache can reach
    holds at most [maxSize] entries; [cleanup] keeps the unexpired entries
    in insertion order and, when they are more than [maxSize], drops the
    oldest-inserted ones; and writing [maxSize + 1] distinct keys into a new
    cache, none of them expiring meanwhile, leaves exactly [maxSize] entries,
    the keys of all insertions but the first, so that the first-inserted key
    is the one evicted. *)
Theorem C9_size_bound :
  (0 <= maxSize config)%Z →
  (∀ m, reachable config m → (Z.of_nat (length m) <= maxSize config)%Z)
  ∧ (∀ m now, reachable config m →
       let kept := List.filter (isFresh now) m in
       cleanup config now m
       = drop (length kept - Z.to_nat (maxSize config)) kept)
  ∧ (∀ l : list (Insertion V),
       Z.of_nat (length l) = (maxSize config + 1)%Z →
       NoDup (map ins_key l) →
       staysFresh config l →
       JsMap.keys (insertAll config l []) = tail (map ins_key l)
       ∧ Z.of_nat (length (insertAll config l [])) = maxSize config
       ∧ ∀ first, head l = Some first →
           JsMap.get (ins_key first) (insertAll config l []) = None).
Proof.
  intros Hmax. split; [|split].
  - intros m Hm. by apply reachable_bounded.
  - intros m now Hm kept. apply cleanup_spec; [by apply (reachable_wf config) | done].
  - intros l Hlen Hnd Hfresh.
    rewrite insertAll_fresh; [|done|simpl; lia|done|constructor|done].
    cbn [length app Nat.add].
    replace (length l - Z.to_nat (maxSize config))%nat with 1%nat by lia.
    destruct l as [|i l]; [simpl in Hlen; lia|].
    cbn [map drop tail head]. rewrite drop_0.
    split; [|split].
    + unfold JsMap.keys. rewrite map_map. done.
    + rewrite length_map. simpl in Hlen. lia.
    + intros first [= <-]. apply JsMap_get_None.
      unfold JsMap.keys. rewrite map_map. cbn [fst entryOf].
      apply NoDup_cons in Hnd as [Hi _]. intros Hin. apply Hi.
      by apply list_elem_of_In.
Qed.
End CacheProperties.

Lemma C5_ttl_expiry_witness :
  Cache.reachable Cache.apiCacheConfig
    ([] : list (string * Cache.CacheItem string))
  ∧ (1 <= Cache.maxSize Cache.apiCacheConfig)%Z
  ∧ (0 <= Js.numOr (Some 50%Z) (Cache.defaultTTL Cache.apiCacheConfig))%Z
  ∧ let m1 := Cache.set Cache.apiCacheConfig 1000 "/dashboard" "stats" None
                        (Some 50%Z) [] in
    ((1050 - 1000 <= 50)%Z →
       fst (Cache.get Cache.apiCacheConfig 1050 "/dashboard" None m1)
       = Some "stats")
    ∧ ((1050 - 1000 > 50)%Z →
       fst (Cache.get Cache.apiCacheConfig 1050 "/dashboard" None m1) = None).
Proof.
  split; [apply Cache.reach_new|].
  split; [vm_compute; discriminate|].
  split; [vm_compute; discriminate|].
  apply (C5_ttl_expiry Cache.apiCacheConfig [] 1000 "/dashboard" "stats" None
           (Some 50%Z) 1050).
  - apply Cache.reach_new.
  - vm_compute; discriminate.
  - vm_compute; discriminate.
Defined.

(** C5 as stated fails at the boundary: an entry stored at clock reading
    1000 with a time-to-live of 50 is still returned at 1050, when
    [t - storedAt = T]. *)
Lemma C5_counterexample :
  let m1 := Cache.set Cache.apiCacheConfig 1000 "/dashboard" "stats" None
                      (Some 50%Z) [] in
  (1050 - 1000 >= 50)%Z
  ∧ fst (Cache.get Cache.apiCacheConfig 1050 "/dashboard" None m1) = Some "stats".
Proof. split; [lia | vm_compute; reflexivity]. Qed.

Lemma C9_size_bound_witness :
  (0 <= Cache.maxSize Cache.smallCacheConfig)%Z
  ∧ Z.of_nat (length Cache.threeVisits) = (Cache.maxSize Cache.smallCacheConfig + 1)%Z
  ∧ NoDup (map Cache.ins_key Cache.threeVisits)
  ∧ Cache.staysFresh Cache.smallCacheConfig Cache.threeVisits
  ∧ JsMap.keys (Cache.insertAll Cache.smallCacheConfig Cache.threeVisits [])
    = tail (map Cache.ins_key Cache.threeVisits)
  ∧ Z.of_nat (length (Cache.insertAll Cache.smallCacheConfig Cache.threeVisits []))
    = Cache.maxSize Cache.smallCacheConfig.
Proof.
  assert (Hmax : (0 <= Cache.maxSize Cache.smallCacheConfig)%Z)
    by (vm_compute; discriminate).
  assert (Hnd : NoDup (map Cache.ins_key Cache.threeVisits))
    by (apply (bool_decide_unpack _); vm_compute; reflexivity).
  assert (Hfresh : Cache.staysFresh Cache.smallCacheConfig Cache.threeVisits).
  { cbn [Cache.staysFresh Cache.threeVisits].
    repeat split; repeat constructor; vm_compute; discriminate. }
  destruct (C9_size_bound (V:=string) Cache.smallCacheConfig Hmax)
    as (_ & _ & Hfill).
  destruct (Hfill Cache.threeVisits eq_refl Hnd Hfresh) as (Hkeys & Hlen & _).
  split; [exact Hmax|]. split; [reflexivity|]. split; [exact Hnd|].
  split; [exact Hfresh|]. split; [exact Hkeys | exact Hlen].
Defined.

(* --------------------------------------------------------------------- *)
(** ** Cached client                                                      *)
(* --------------------------------------------------------------------- *)

Section ClientFailure.
Import ErrorHandler CachedApiClient.
Context {V : Type} {toBoolean : Js.Truthy V}.

Lemma strOr_nonempty a b : b ≠ EmptyString → Js.strOr a b ≠ EmptyString.
Proof. destruct a; simpl; done. Qed.

Lemma strOr_id a b : a ≠ EmptyString → Js.strOr a b = a.
Proof. destruct a; simpl; done. Qed.

Lemma friendly_nonempty e : getUserFriendlyErrorMessage e ≠ EmptyString.
Proof.
  unfold getUserFriendlyErrorMessage.
  destruct (te_response e) as [r|]; [|done].
  repeat case_match; try done; by apply strOr_nonempty.
Qed.

Lemma handleApiError_message e ctx :
  message (handleApiError e ctx) = getUserFriendlyErrorMessage e.
Proof. unfold handleApiError. by destruct (isRetryableError _). Qed.

(** On the error of a transport call itself, [withRetry] keeps the message
    (unless it is empty) and the status, and classifies by the status. *)
Lemma terminalError_raw cfg ctx attempt (e : TransportError) :
  message (terminalError cfg ctx attempt (RawError e))
    = Js.strOr (te_message e) "Request failed"
  ∧ status (terminalError cfg ctx attempt (RawError e))
    = (resp_status <$> te_response e)
  ∧ ctx_attempt (context (terminalError cfg ctx attempt (RawError e)))
    = Some attempt.
Proof. done. Qed.

(** On an error already wrapped by [handleApiError], it finds no
    [response]: the error counts as retryable and its status is lost. *)
Lemma terminalError_classified cfg ctx attempt (e : TransportError) ctx' :
  isRetryableError (Classified (handleApiError e ctx')) = true
  ∧ status (terminalError cfg ctx attempt (Classified (handleApiError e ctx')))
    = None.
Proof. done. Qed.

Lemma mergeRetryConfig_full c : mergeRetryConfig (fullConfig c) = c.
Proof. by destruct c. Qed.

Lemma retryLoop_terminal {T} (operation : Z → Outcome T) random cfg ctx k :
  ∀ attempt last thrown,
  (attempt + Z.of_nat k = maxAttempts cfg)%Z →
  settled (retryLoop operation random cfg ctx (S k) attempt last) = inr thrown →
  ∃ a e, (attempt <= a <= maxAttempts cfg)%Z
         ∧ operation a = Rejected e
         ∧ thrown = ThrownNetwork (terminalError cfg ctx a e).
Proof.
  induction k as [|k IH]; intros attempt last thrown Hk; cbn [retryLoop].
  - destruct (operation attempt) as [v|e] eqn:Hop; [done|].
    replace (attempt =? maxAttempts cfg)%Z with true by (symmetry; apply Z.eqb_eq; lia).
    cbn [orb settled]. intros [= <-]. exists attempt, e. split; [lia|]. done.
  - destruct (operation attempt) as [v|e] eqn:Hop; [done|].
    destruct ((attempt =? maxAttempts cfg)%Z || negb (isRetryableError e)).
    + cbn [settled]. intros [= <-]. exists attempt, e. split; [lia|]. done.
    + cbn [settled]. intros Hs.
      destruct (IH (attempt + 1)%Z (Some e) thrown ltac:(lia) Hs) as (a & e' & Ha & Hop' & Ht).
      exists a, e'. split; [lia|]. done.
Qed.

(** A request under a retry profile that fails, fails with the error of
    one of its attempts, wrapped twice: by [handleApiError], then by
    [withRetry]. *)
Lemma getFetch_terminal (transport : Z → TransportOutcome V) random url config thrown :
  default standard (retryConfig config) ≠ noRetry →
  settled (getFetch transport random url config) = inr thrown →
  let maxA := maxAttempts (RETRY_CONFIGS (default standard (retryConfig config))) in
  ∃ a e err,
    (1 <= a <= maxA)%Z
    ∧ transport a = Failed e
    ∧ thrown = ThrownNetwork err
    ∧ message err = getUserFriendlyErrorMessage e
    ∧ context err
      = {| ctx_url := Some url; ctx_method := Some "GET"; ctx_status := None;
           ctx_attempt := Some a; ctx_maxAttempts := Some maxA |}.
Proof.
  intros Hprofile Hs maxA. unfold getFetch in Hs.
  set (profile := default standard (retryConfig config)) in *.
  assert (Hw : settled (withRetry (requestOperation transport url) random
                          (fullConfig (RETRY_CONFIGS profile))
                          {| ctx_url := Some url; ctx_method := Some "GET";
                             ctx_status := None; ctx_attempt := None;
                             ctx_maxAttempts := None |}) = inr thrown).
  { destruct profile; done. }
  clear Hs. unfold withRetry in Hw. rewrite mergeRetryConfig_full in Hw.
  assert (Hk : ∃ k, Z.to_nat (maxAttempts (RETRY_CONFIGS profile)) = S k
                    ∧ (1 + Z.of_nat k = maxAttempts (RETRY_CONFIGS profile))%Z).
  { destruct profile; [exists 1%nat|exists 2%nat|exists 4%nat|exists 2%nat]; done. }
  destruct Hk as (k & Ek & Hk). rewrite Ek in Hw.
  destruct (retryLoop_terminal _ _ _ _ k 1%Z None thrown Hk Hw) as (a & e & Ha & Hop & Ht).
  unfold requestOperation in Hop.
  destruct (transport a) as [body|te] eqn:Htr; [done|].
  injection Hop as <-.
  exists a, te, (terminalError (RETRY_CONFIGS profile)
                   {| ctx_url := Some url; ctx_method := Some "GET";
                      ctx_status := None; ctx_attempt := None;
                      ctx_maxAttempts := None |} a
                   (Classified (handleApiError te
                      {| ctx_url := Some url; ctx_method := Some "GET";
                         ctx_status := None; ctx_attempt := None;
                         ctx_maxAttempts := None |}))).
  split; [done|]. split; [done|]. split; [done|]. split; [|done].
  unfold terminalError, newNetworkError. cbn [message errMessage].
  rewrite handleApiError_message. apply strOr_id, friendly_nonempty.
Qed.
(** C6, amended.  When a GET of the client made under a retry profile
    fails terminally, the error thrown to the caller carries the message
    that [getUserFriendlyErrorMessage] derives from the transport failure of
    the attempt that ended the request (the fixed text for a missing
    response or a listed status, else the server's or the original message),
    and its context holds the url, the method and the retry annotation
    [{attempt, maxAttempts}] of that attempt. *)
Theorem C6_terminal_error (transport : Z → TransportOutcome V) random url config
    (now nowDone : Z) (c : Client V) thrown :
  default standard (retryConfig config) ≠ noRetry →
  fst (get now nowDone transport random url config c) = inr thrown →
  let maxA := maxAttempts (RETRY_CONFIGS (default standard (retryConfig config))) in
  (∃ a e err,
     (1 <= a <= maxA)%Z
     ∧ transport a = Failed e
     ∧ thrown = ThrownNetwork err
     ∧ message err = getUserFriendlyErrorMessage e
     ∧ context err
       = {| ctx_url := Some url; ctx_method := Some "GET"; ctx_status := None;
            ctx_attempt := Some a; ctx_maxAttempts := Some maxA |})
  ∧ snd (get now nowDone transport random url config c)
    = snd (getLookup now url config c).
Proof.
  intros Hprofile Hs maxA. unfold get in *.
  destruct (getLookup now url config c) as [[cached|] c1]; [done|].
  destruct (settled (getFetch transport random url config)) as [result|t] eqn:Ef;
    [done|].
  cbn [fst] in Hs. injection Hs as ->.
  split; [|reflexivity].
  exact (getFetch_terminal transport random url config thrown Hprofile Ef).
Qed.

End ClientFailure.

Lemma C6_terminal_error_witness :
  let thrown :=
    ErrorHandler.ThrownNetwork
      (ErrorHandler.newNetworkError "Запрашиваемый ресурс не найден." None
         {| ErrorHandler.ctx_url := Some "/documents/42";
            ErrorHandler.ctx_method := Some "GET";
            ErrorHandler.ctx_status := None;
            ErrorHandler.ctx_attempt := Some 3%Z;
            ErrorHandler.ctx_maxAttempts := Some 3%Z |} false) in
  let outcome :=
    CachedApiClient.get 0 0 CachedApiClient.alwaysNotFound (fun _ => 0%Q)
      "/documents/42" CachedApiClient.defaultRequest CachedApiClient.newClient in
  default CachedApiClient.standard
    (CachedApiClient.retryConfig CachedApiClient.defaultRequest)
    ≠ CachedApiClient.noRetry
  ∧ fst outcome = inr thrown
  ∧ (∃ a e err,
      (1 <= a <= 3)%Z
      ∧ CachedApiClient.alwaysNotFound a = CachedApiClient.Failed e
      ∧ thrown = ErrorHandler.ThrownNetwork err
      ∧ ErrorHandler.message err = ErrorHandler.getUserFriendlyErrorMessage e
      ∧ ErrorHandler.context err
        = {| ErrorHandler.ctx_url := Some "/documents/42";
             ErrorHandler.ctx_method := Some "GET";
             ErrorHandler.ctx_status := None;
             ErrorHandler.ctx_attempt := Some a;
             ErrorHandler.ctx_maxAttempts := Some 3%Z |}).
Proof.
  intros thrown outcome.
  assert (H1 : default CachedApiClient.standard
                 (CachedApiClient.retryConfig CachedApiClient.defaultRequest)
               ≠ CachedApiClient.noRetry) by discriminate.
  assert (H2 : fst outcome = inr thrown) by (vm_compute; reflexivity).
  split; [exact H1|]. split; [exact H2|].
  exact (proj1 (C6_terminal_error CachedApiClient.alwaysNotFound (fun _ => 0%Q)
                  "/documents/42" CachedApiClient.defaultRequest 0 0
                  CachedApiClient.newClient thrown H1 H2)).
Defined.

(** C6 as stated fails on a resource that does not exist.  The transport
    answers 404, which the classifier calls non-retryable; the client
    nevertheless calls it three times, and the error its [get] rejects with
    has no status and a message other than the transport's. *)
Lemma C6_counterexample :
  let outcome :=
    CachedApiClient.get 0 0 CachedApiClient.alwaysNotFound (fun _ => 0%Q)
      "/documents/42" CachedApiClient.defaultRequest CachedApiClient.newClient in
  ErrorHandler.isRetryableError
    (ErrorHandler.RawError CachedApiClient.notFound) = false
  ∧ ErrorHandler.calls
      (CachedApiClient.getFetch CachedApiClient.alwaysNotFound (fun _ => 0%Q)
         "/documents/42" CachedApiClient.defaultRequest) = 3%nat
  ∧ ∃ err, fst outcome = inr (ErrorHandler.ThrownNetwork err)
           ∧ ErrorHandler.status err = None
           ∧ ErrorHandler.status err ≠ Some 404%Z
           ∧ ErrorHandler.message err
             ≠ ErrorHandler.te_message CachedApiClient.notFound.
Proof.
  split; [reflexivity|]. split; [vm_compute; reflexivity|].
  eexists. split; [vm_compute; reflexivity|].
  split; [reflexivity|]. split; discriminate.
Qed.

Section Refresh.
Import CachedApiClient.
Context {V : Type} {toBoolean : Js.Truthy V}.
Implicit Types c : Client V.

Lemma invariant_new : refreshInvariant (V:=V) newClient.
Proof.
  unfold refreshInvariant, newClient; simpl.
  repeat split; try apply NoDup_nil_2; try done.
Qed.

(** The invariant does not look at the cache. *)
Lemma invariant_cache c (cache' : list (string * Cache.CacheItem V)) :
  refreshInvariant c →
  refreshInvariant (V:=V)
    {| cache := cache'; backgroundRefreshPromises := backgroundRefreshPromises c;
       chains := chains c; nextPromise := nextPromise c |}.
Proof. done. Qed.

Lemma invariant_refreshInBackground url params0 ttl0 key0 c :
  refreshInvariant c →
  refreshInvariant (refreshInBackground url params0 ttl0 key0 c).
Proof.
  intros (Hk & Hi & Hreg & Hback & Hlt). unfold refreshInBackground.
  set (key := Js.optStrOr key0 url).
  destruct (backgroundRefreshPromises c !! key) as [id|] eqn:E; [done|].
  assert (Hfresh : ¬ In key (map r_key (chains c))).
  { intros Hin. apply in_map_iff in Hin as (r & Hr & Hin).
    specialize (Hreg r Hin). rewrite Hr in Hreg. congruence. }
  unfold refreshInvariant; cbn [chains backgroundRefreshPromises nextPromise].
  rewrite !map_app. cbn [map r_key r_id].
  split; [|split; [|split; [|split]]].
  - apply NoDup_app. split; [done|]. split; [|apply NoDup_singleton].
    intros x Hx Hx'. apply list_elem_of_singleton in Hx'. subst x.
    by apply list_elem_of_In in Hx.
  - apply NoDup_app. split; [done|]. split; [|apply NoDup_singleton].
    intros x Hx Hx'. apply list_elem_of_singleton in Hx'. subst x.
    apply list_elem_of_In, in_map_iff in Hx as (r & Hr & Hin).
    specialize (Hlt r Hin). lia.
  - intros r Hin. apply in_app_iff in Hin as [Hin|[<-|[]]].
    + rewrite lookup_insert_ne; [by apply Hreg|].
      intros ->. apply Hfresh. apply in_map_iff. eauto.
    + cbn [r_key r_id]. by rewrite lookup_insert_eq.
  - intros k id Hl. destruct (decide (key = k)) as [<-|Hne].
    + rewrite lookup_insert_eq in Hl. injection Hl as <-.
      eexists. split; [apply in_app_iff; right; left; reflexivity|]. done.
    + rewrite lookup_insert_ne in Hl by done.
      destruct (Hback k id Hl) as (r & Hin & Hr). exists r. split; [|done].
      apply in_app_iff. by left.
  - intros r Hin. apply in_app_iff in Hin as [Hin|[<-|[]]].
    + specialize (Hlt r Hin). lia.
    + cbn [r_id]. lia.
Qed.

Lemma setPhase_keys id ph (l : list Refresh) :
  map r_key (setPhase id ph l) = map r_key l.
Proof.
  unfold setPhase. rewrite map_map. apply map_ext. intros r. by destruct (_ =? _)%nat.
Qed.

Lemma setPhase_ids id ph (l : list Refresh) :
  map r_id (setPhase id ph l) = map r_id l.
Proof.
  unfold setPhase. rewrite map_map. apply map_ext. intros r. by destruct (_ =? _)%nat.
Qed.

Lemma setPhase_In id ph (l : list Refresh) r' :
  In r' (setPhase id ph l) →
  ∃ r, In r l ∧ r_key r' = r_key r ∧ r_id r' = r_id r.
Proof.
  unfold setPhase. intros Hin. apply in_map_iff in Hin as (r & Hr & Hin).
  exists r. split; [done|]. subst r'. by destruct (_ =? _)%nat.
Qed.

Lemma setPhase_In_rev id ph (l : list Refresh) r :
  In r l → ∃ r', In r' (setPhase id ph l) ∧ r_key r' = r_key r ∧ r_id r' = r_id r.
Proof.
  intros Hin. eexists. split; [unfold setPhase; apply in_map_iff; eauto|].
  by destruct (_ =? _)%nat.
Qed.

Lemma invariant_refreshSettled id outcome now c c' :
  refreshInvariant c → refreshSettled id outcome now c = Some c' →
  refreshInvariant c'.
Proof.
  intros (Hk & Hi & Hreg & Hback & Hlt). unfold refreshSettled.
  destruct (findChain id c) as [r|]; [|done].
  destruct (r_phase r); [|done]. intros [= <-].
  unfold refreshInvariant; cbn [chains backgroundRefreshPromises nextPromise].
  rewrite setPhase_keys, setPhase_ids.
  split; [done|]. split; [done|]. split; [|split].
  - intros r' Hin. apply setPhase_In in Hin as (r0 & Hin & -> & ->). by apply Hreg.
  - intros key i Hl. destruct (Hback key i Hl) as (r0 & Hin & Hr).
    destruct (setPhase_In_rev id AwaitingFinally _ r0 Hin) as (r' & Hin' & Hk' & Hi').
    exists r'. split; [done|]. destruct Hr. split; congruence.
  - intros r' Hin. apply setPhase_In in Hin as (r0 & Hin & _ & ->). by apply Hlt.
Qed.

Lemma findChain_In id c r : findChain id c = Some r → In r (chains c) ∧ r_id r = id.
Proof.
  unfold findChain. intros H. apply find_some in H as [Hin Hid].
  split; [done|]. by apply Nat.eqb_eq.
Qed.

Lemma NoDup_map_inj {A B} (f : A → B) (l : list A) x y :
  NoDup (map f l) → In x l → In y l → f x = f y → x = y.
Proof.
  induction l as [|a l IH]; simpl; [done|].
  intros Hnd Hx Hy E. apply NoDup_cons in Hnd as [Ha Hnd].
  destruct Hx as [->|Hx], Hy as [->|Hy]; [done| | |by apply IH].
  - exfalso. apply Ha. rewrite E. apply list_elem_of_In, in_map_iff. eauto.
  - exfalso. apply Ha. rewrite <- E. apply list_elem_of_In, in_map_iff. eauto.
Qed.

Lemma NoDup_map_filter {A B} (f : A → B) (p : A → bool) (l : list A) :
  NoDup (map f l) → NoDup (map f (List.filter p l)).
Proof.
  induction l as [|a l IH]; simpl; [done|].
  intros Hnd. apply NoDup_cons in Hnd as [Ha Hnd].
  destruct (p a); [|by apply IH]. simpl. apply NoDup_cons. split; [|by apply IH].
  intros Hin. apply Ha. apply list_elem_of_In, in_map_iff in Hin as (x & Hx & Hin).
  apply filter_In in Hin as [Hin _]. apply list_elem_of_In, in_map_iff. eauto.
Qed.

Lemma invariant_refreshFinally id c c' :
  refreshInvariant c → refreshFinally id c = Some c' → refreshInvariant c'.
Proof.
  intros (Hk & Hi & Hreg & Hback & Hlt). unfold refreshFinally.
  destruct (findChain id c) as [r|] eqn:Ef; [|done].
  apply findChain_In in Ef as [Hr Hid].
  destruct (r_phase r); [done|]. intros [= <-].
  unfold refreshInvariant; cbn [chains backgroundRefreshPromises nextPromise].
  split; [by apply NoDup_map_filter|]. split; [by apply NoDup_map_filter|].
  split; [|split].
  - intros r' Hin. apply filter_In in Hin as [Hin Hne].
    apply negb_true_iff, Nat.eqb_neq in Hne.
    rewrite lookup_delete_ne; [by apply Hreg|].
    intros E. apply Hne. rewrite <- Hid.
    f_equal. by apply (NoDup_map_inj r_key (chains c)).
  - intros key i Hl. destruct (decide (r_key r = key)) as [<-|Hne].
    + by rewrite lookup_delete_eq in Hl.
    + rewrite lookup_delete_ne in Hl by done.
      destruct (Hback key i Hl) as (r0 & Hin & Hr0k & Hr0i). exists r0.
      split; [|done]. apply filter_In. split; [done|].
      apply negb_true_iff, Nat.eqb_neq. intros E. apply Hne.
      rewrite <- Hr0k. f_equal. apply (NoDup_map_inj r_id (chains c)); [done..|]. lia.
  - intros r' Hin. apply filter_In in Hin as [Hin _]. by apply Hlt.
Qed.

Lemma invariant_step c ev c' :
  refreshInvariant c → step c ev = Some c' → refreshInvariant c'.
Proof.
  intros Hinv. destruct ev as [now url config|now url config result|pattern
                               |id outcome now|id]; cbn [step].
  - intros [= <-]. unfold getLookup.
    destruct (default true (useCache config)); [|done].
    destruct (Cache.get _ _ _ _ _) as [cached cache'].
    destruct cached as [v|]; [|by apply invariant_cache].
    destruct (Js.truthy v); [|by apply invariant_cache].
    destruct (default false (staleWhileRevalidate config)); cbn [snd].
    + apply invariant_refreshInBackground. by apply invariant_cache.
    + by apply invariant_cache.
  - intros [= <-]. unfold getStore.
    destruct (default true (useCache config)); [by apply invariant_cache|done].
  - intros [= <-]. by apply invariant_cache.
  - by apply invariant_refreshSettled.
  - by apply invariant_refreshFinally.
Qed.

Lemma invariant_run evs : ∀ c c',
  refreshInvariant c → run evs c = Some c' → refreshInvariant c'.
Proof.
  induction evs as [|ev evs IH]; intros c c' Hinv; cbn [run].
  - by intros [= <-].
  - destruct (step c ev) as [c1|] eqn:Es; [|done].
    apply IH. by apply (invariant_step c ev).
Qed.

Lemma inFlight_absent key (l : list Refresh) :
  ¬ In key (map r_key l) →
  List.filter (fun r => String.eqb (r_key r) key) l = [].
Proof.
  induction l as [|a l IH]; simpl; [done|]. intros Hn.
  destruct (String.eqb_spec (r_key a) key) as [E|_]; [tauto|]. apply IH. tauto.
Qed.

Lemma inFlight_length key c :
  refreshInvariant c → (length (inFlight key c) <= 1)%nat.
Proof.
  intros (Hk & _). unfold inFlight. induction (chains c) as [|a l IH]; simpl; [lia|].
  apply NoDup_cons in Hk as [Ha Hk].
  destruct (String.eqb_spec (r_key a) key) as [E|_]; [|by apply IH].
  rewrite inFlight_absent; [simpl; lia|].
  intros Hin. apply Ha. rewrite E. by apply list_elem_of_In.
Qed.

Lemma inFlight_registered key c :
  refreshInvariant c →
  is_Some (backgroundRefreshPromises c !! key) ↔ length (inFlight key c) = 1%nat.
Proof.
  intros Hinv. pose proof (inFlight_length key c Hinv) as Hle.
  destruct Hinv as (Hk & Hi & Hreg & Hback & Hlt). unfold inFlight in *. split.
  - intros [id Hl]. destruct (Hback key id Hl) as (r & Hin & Hr & _).
    assert (In r (List.filter (fun r => String.eqb (r_key r) key) (chains c))).
    { apply filter_In. split; [done|]. by apply String.eqb_eq. }
    destruct (List.filter _ _); [done|]. simpl in *. lia.
  - intros Hlen.
    destruct (List.filter (fun r => String.eqb (r_key r) key) (chains c))
      as [|r rest] eqn:Ef; [done|].
    assert (Hin : In r (List.filter (fun r => String.eqb (r_key r) key) (chains c)))
      by (rewrite Ef; by left).
    apply filter_In in Hin as [Hin Hr]. apply String.eqb_eq in Hr. subst key.
    rewrite (Hreg r Hin). done.
Qed.

Lemma inFlight_In key c r : In r (inFlight key c) ↔ In r (chains c) ∧ r_key r = key.
Proof.
  unfold inFlight. rewrite filter_In. split.
  - intros [Hin E]. split; [done|]. by apply String.eqb_eq.
  - intros [Hin E]. split; [done|]. by apply String.eqb_eq.
Qed.

Lemma inFlight_free key c :
  refreshInvariant c →
  backgroundRefreshPromises c !! key = None ↔ inFlight key c = [].
Proof.
  intros Hinv. pose proof (inFlight_length key c Hinv) as Hle.
  pose proof (inFlight_registered key c Hinv) as Hreg. split.
  - intros Hl. destruct (inFlight key c) as [|r [|r' rest]]; [done| |simpl in Hle; lia].
    destruct Hreg as [_ Hreg]. destruct (Hreg eq_refl) as [id Hid]. congruence.
  - intros Hnone. destruct (backgroundRefreshPromises c !! key) as [id|] eqn:E; [|done].
    destruct Hreg as [Hreg _]. rewrite Hnone in Hreg. by specialize (Hreg (mk_is_Some _ _ eq_refl)).
Qed.

(** A trigger for a key whose refresh is in flight is dropped. *)
Lemma trigger_dropped url params0 ttl0 key0 c :
  refreshInvariant c →
  length (inFlight (Js.optStrOr key0 url) c) = 1%nat →
  refreshInBackground url params0 ttl0 key0 c = c.
Proof.
  intros Hinv Hone. apply inFlight_registered in Hone as [id Hl]; [|done].
  unfold refreshInBackground. by rewrite Hl.
Qed.

(** A trigger for a key without one starts one. *)
Lemma trigger_registers url params0 ttl0 key0 c :
  refreshInvariant c →
  inFlight (Js.optStrOr key0 url) c = [] →
  inFlight (Js.optStrOr key0 url) (refreshInBackground url params0 ttl0 key0 c)
  = [{| r_id := nextPromise c; r_key := Js.optStrOr key0 url;
        r_params := params0; r_ttl := ttl0; r_phase := AwaitingResponse |}].
Proof.
  intros Hinv Hnone.
  assert (Hl : backgroundRefreshPromises c !! Js.optStrOr key0 url = None)
    by (by apply inFlight_free).
  unfold refreshInBackground. rewrite Hl. unfold inFlight in *.
  cbn [chains]. rewrite List.filter_app, Hnone. cbn [List.filter r_key app].
  by rewrite String.eqb_refl.
Qed.

Lemma findChain_unique c r :
  refreshInvariant c → In r (chains c) → findChain (r_id r) c = Some r.
Proof.
  intros (_ & Hi & _) Hin. unfold findChain.
  destruct (List.find (fun x => (r_id x =? r_id r)%nat) (chains c)) as [r'|] eqn:Ef.
  - apply find_some in Ef as [Hin' E]. apply Nat.eqb_eq in E.
    f_equal. by apply (NoDup_map_inj r_id (chains c)).
  - apply (find_none _ _ Ef) in Hin. by rewrite Nat.eqb_refl in Hin.
Qed.

(** The [finally] callback of a refresh whose request has settled takes
    the key out of the map and the chain out of the unfinished ones. *)
Lemma refreshFinally_releases c r :
  refreshInvariant c → In r (chains c) → r_phase r = AwaitingFinally →
  ∃ c', refreshFinally (r_id r) c = Some c'
        ∧ backgroundRefreshPromises c' !! r_key r = None
        ∧ inFlight (r_key r) c' = []
        ∧ cache c' = cache c ∧ nextPromise c' = nextPromise c.
Proof.
  intros Hinv Hin Hph.
  pose proof (findChain_unique c r Hinv Hin) as Ef.
  assert (Hstep : refreshFinally (r_id r) c
                  = Some {| cache := cache c;
                            backgroundRefreshPromises :=
                              delete (r_key r) (backgroundRefreshPromises c);
                            chains := List.filter (fun r' => negb (r_id r' =? r_id r)%nat)
                                                  (chains c);
                            nextPromise := nextPromise c |}).
  { unfold refreshFinally. by rewrite Ef, Hph. }
  eexists. split; [exact Hstep|].
  pose proof (invariant_refreshFinally _ _ _ Hinv Hstep) as Hinv'.
  assert (Hgone : delete (r_key r) (backgroundRefreshPromises c) !! r_key r = None)
    by apply lookup_delete_eq.
  split; [exact Hgone|]. split; [|done].
  by apply inFlight_free.
Qed.

(** Settling moves the refresh to its [finally] callback and leaves the
    key registered. *)
Lemma refreshSettled_progress c r outcome now :
  refreshInvariant c → In r (chains c) → r_phase r = AwaitingResponse →
  ∃ c', refreshSettled (r_id r) outcome now c = Some c'
        ∧ In {| r_id := r_id r; r_key := r_key r; r_params := r_params r;
                r_ttl := r_ttl r; r_phase := AwaitingFinally |} (chains c')
        ∧ backgroundRefreshPromises c' = backgroundRefreshPromises c
        ∧ nextPromise c' = nextPromise c.
Proof.
  intros Hinv Hin Hph.
  pose proof (findChain_unique c r Hinv Hin) as Ef.
  unfold refreshSettled. rewrite Ef, Hph. eexists. split; [reflexivity|].
  cbn [chains backgroundRefreshPromises nextPromise]. split; [|done].
  unfold setPhase. apply in_map_iff. exists r. split; [|done].
  by rewrite Nat.eqb_refl.
Qed.

(** C8.  In every state the client reaches from a new one (reads, cache
    writes, invalidations, refreshes settling and finishing, in any order):
    at most one background refresh per key is unfinished, and the key is in
    [backgroundRefreshPromises] exactly when there is one; a trigger for a
    key with a refresh in flight leaves the client as it is (no request, no
    queue entry); a trigger for a key without one starts exactly one; the
    only step that takes a key out of the map is the [finally] callback of
    that key's refresh, which runs after its request has settled; and once
    the refresh in flight for a key has settled, with a response or with a
    failure, and its [finally] callback has run, the key is out of the map,
    no refresh is left for it, and the next trigger for the key starts a
    new one. *)
Theorem C8_single_background_refresh (evs : list (Event V)) c :
  run evs newClient = Some c →
  (∀ key, (length (inFlight key c) <= 1)%nat)
  ∧ (∀ key, is_Some (backgroundRefreshPromises c !! key)
            ↔ length (inFlight key c) = 1%nat)
  ∧ (∀ url params0 ttl0 key0,
       length (inFlight (Js.optStrOr key0 url) c) = 1%nat →
       refreshInBackground url params0 ttl0 key0 c = c)
  ∧ (∀ url params0 ttl0 key0,
       inFlight (Js.optStrOr key0 url) c = [] →
       inFlight (Js.optStrOr key0 url) (refreshInBackground url params0 ttl0 key0 c)
       = [{| r_id := nextPromise c; r_key := Js.optStrOr key0 url;
             r_params := params0; r_ttl := ttl0; r_phase := AwaitingResponse |}])
  ∧ (∀ ev c' key,
       step c ev = Some c' →
       is_Some (backgroundRefreshPromises c !! key) →
       backgroundRefreshPromises c' !! key = None →
       ∃ id r, ev = RefreshFinally id ∧ findChain id c = Some r
               ∧ r_key r = key ∧ r_phase r = AwaitingFinally)
  ∧ (∀ key r outcome now,
       inFlight key c = [r] →
       ∃ c', run (remainingSteps r outcome now) c = Some c'
             ∧ backgroundRefreshPromises c' !! key = None
             ∧ inFlight key c' = []
             ∧ ∀ url params0 ttl0 key0,
                 Js.optStrOr key0 url = key →
                 inFlight key (refreshInBackground url params0 ttl0 key0 c')
                 = [{| r_id := nextPromise c; r_key := key; r_params := params0;
                       r_ttl := ttl0; r_phase := AwaitingResponse |}]).
Proof.
  intros Hrun.
  assert (Hinv : refreshInvariant c) by (eapply invariant_run; [apply invariant_new | done]).
  split; [|split; [|split; [|split; [|split]]]].
  - intros key. by apply inFlight_length.
  - intros key. by apply inFlight_registered.
  - intros url params0 ttl0 key0. by apply trigger_dropped.
  - intros url params0 ttl0 key0. by apply trigger_registers.
  - intros ev c' key Hstep [id Hl] Hgone.
    destruct ev as [now url config|now url config result|pattern|i outcome now|i];
      cbn [step] in Hstep.
    + exfalso. injection Hstep as <-. unfold getLookup in Hgone.
      destruct (default true (useCache config));
        [|cbn [snd] in Hgone; congruence].
      destruct (Cache.get _ _ _ _ _) as [cached cache'].
      destruct cached as [v|];
        [|cbn [snd backgroundRefreshPromises] in Hgone; congruence].
      destruct (Js.truthy v);
        [|cbn [snd backgroundRefreshPromises] in Hgone; congruence].
      destruct (default false (staleWhileRevalidate config));
        [|cbn [snd backgroundRefreshPromises] in Hgone; congruence].
      cbn [snd] in Hgone. unfold refreshInBackground in Hgone.
      cbn [backgroundRefreshPromises] in Hgone.
      destruct (backgroundRefreshPromises c !! Js.optStrOr (cacheKey config) url)
        eqn:E; cbn [backgroundRefreshPromises] in Hgone; [congruence|].
      destruct (decide (Js.optStrOr (cacheKey config) url = key)) as [<-|Hne].
      * by rewrite lookup_insert_eq in Hgone.
      * rewrite lookup_insert_ne in Hgone by done. congruence.
    + exfalso. injection Hstep as <-. unfold getStore in Hgone.
      destruct (default true (useCache config));
        cbn [backgroundRefreshPromises] in Hgone; congruence.
    + exfalso. injection Hstep as <-.
      cbn [invalidateCache backgroundRefreshPromises] in Hgone. congruence.
    + exfalso. unfold refreshSettled in Hstep.
      destruct (findChain i c) as [r|]; [|done].
      destruct (r_phase r); [|done]. injection Hstep as <-.
      cbn [backgroundRefreshPromises] in Hgone. congruence.
    + unfold refreshFinally in Hstep.
      destruct (findChain i c) as [r|] eqn:Ef; [|done].
      destruct (r_phase r) eqn:Ep; [done|]. injection Hstep as <-.
      cbn [backgroundRefreshPromises] in Hgone.
      exists i, r. split; [done|]. split; [done|]. split; [|done].
      destruct (decide (r_key r = key)) as [E|Hne]; [done|].
      rewrite lookup_delete_ne in Hgone by done. congruence.
  - intros key r outcome now Hr.
    assert (Hin : In r (chains c) ∧ r_key r = key).
    { apply inFlight_In. rewrite Hr. by left. }
    destruct Hin as [Hin Hkey].
    assert (Hfinish : ∀ c1 r1,
              refreshInvariant c1 → In r1 (chains c1) →
              r_phase r1 = AwaitingFinally → r_key r1 = key → r_id r1 = r_id r →
              nextPromise c1 = nextPromise c →
              ∃ c', refreshFinally (r_id r) c1 = Some c'
                    ∧ backgroundRefreshPromises c' !! key = None
                    ∧ inFlight key c' = []
                    ∧ ∀ url params0 ttl0 key0,
                        Js.optStrOr key0 url = key →
                        inFlight key (refreshInBackground url params0 ttl0 key0 c')
                        = [{| r_id := nextPromise c; r_key := key;
                              r_params := params0; r_ttl := ttl0;
                              r_phase := AwaitingResponse |}]).
    { intros c1 r1 Hinv1 Hin1 Hph1 Hk1 Hid1 Hnext.
      destruct (refreshFinally_releases c1 r1 Hinv1 Hin1 Hph1)
        as (c' & Hfin & Hgone & Hnone & _ & Hnext').
      rewrite Hid1 in Hfin. rewrite Hk1 in Hgone, Hnone.
      exists c'. split; [done|]. split; [done|]. split; [done|].
      intros url params0 ttl0 key0 E. subst key. rewrite <- E in *.
      rewrite trigger_registers; [by rewrite Hnext', Hnext| |done].
      by apply (invariant_refreshFinally (r_id r) c1). }
    unfold remainingSteps. destruct (r_phase r) eqn:Hph; cbn [run step].
    + destruct (refreshSettled_progress c r outcome now Hinv Hin Hph)
        as (c1 & Hset & Hin1 & _ & Hnext).
      rewrite Hset.
      destruct (Hfinish c1 _ (invariant_refreshSettled _ _ _ _ _ Hinv Hset) Hin1
                  eq_refl Hkey eq_refl Hnext) as (c' & Hfin & Hrest).
      exists c'. by rewrite Hfin.
    + destruct (Hfinish c r Hinv Hin Hph Hkey eq_refl eq_refl) as (c' & Hfin & Hrest).
      exists c'. by rewrite Hfin.
Qed.
End Refresh.

Lemma C8_single_background_refresh_witness :
  let first := {| CachedApiClient.r_id := 0; CachedApiClient.r_key := "/dashboard";
                  CachedApiClient.r_params := None;
                  CachedApiClient.r_ttl := Some 120000%Z;
                  CachedApiClient.r_phase := CachedApiClient.AwaitingResponse |} in
  CachedApiClient.run CachedApiClient.twoReads CachedApiClient.newClient
    = Some CachedApiClient.afterTwoReads
  ∧ (∀ key, (length (CachedApiClient.inFlight key CachedApiClient.afterTwoReads)
              <= 1)%nat)
  ∧ CachedApiClient.inFlight "/dashboard" CachedApiClient.afterTwoReads = [first]
  ∧ CachedApiClient.refreshInBackground "/dashboard" None (Some 120000%Z) None
      CachedApiClient.afterTwoReads
    = CachedApiClient.afterTwoReads
  ∧ ∃ c', CachedApiClient.run
            [CachedApiClient.RefreshSettled 0
               (CachedApiClient.Responded "fresh stats") 30;
             CachedApiClient.RefreshFinally 0]
            CachedApiClient.afterTwoReads = Some c'
          ∧ CachedApiClient.backgroundRefreshPromises c' !! "/dashboard" = None
          ∧ CachedApiClient.inFlight "/dashboard" c' = []
          ∧ CachedApiClient.inFlight "/dashboard"
              (CachedApiClient.refreshInBackground "/dashboard" None
                 (Some 120000%Z) None c')
            = [{| CachedApiClient.r_id := 1; CachedApiClient.r_key := "/dashboard";
                  CachedApiClient.r_params := None;
                  CachedApiClient.r_ttl := Some 120000%Z;
                  CachedApiClient.r_phase := CachedApiClient.AwaitingResponse |}].
Proof.
  intros first.
  assert (Hrun : CachedApiClient.run CachedApiClient.twoReads
                   CachedApiClient.newClient
                 = Some CachedApiClient.afterTwoReads) by (vm_compute; reflexivity).
  destruct (C8_single_background_refresh CachedApiClient.twoReads
              CachedApiClient.afterTwoReads Hrun)
    as (Hone & _ & Hdrop & _ & _ & Hrelease).
  split; [exact Hrun|]. split; [exact Hone|].
  assert (Hin : CachedApiClient.inFlight "/dashboard" CachedApiClient.afterTwoReads
                = [first]) by (vm_compute; reflexivity).
  split; [exact Hin|].
  split; [apply (Hdrop "/dashboard" None (Some 120000%Z) None);
          exact (f_equal length Hin)|].
  destruct (Hrelease "/dashboard" first
              (CachedApiClient.Responded "fresh stats") 30%Z Hin)
    as (c' & Hsteps & Hgone & Hnone & Hnext).
  exists c'. split; [exact Hsteps|]. split; [exact Hgone|]. split; [exact Hnone|].
  exact (Hnext "/dashboard" None (Some 120000%Z) None eq_refl).
Defined.


(* --------------------------------------------------------------------- *)
(** ** Upload manager                                                     *)
(* --------------------------------------------------------------------- *)

Section UploadFacts.
Import FileValidation FileUpload.

Lemma batchValid_false cfg files :
  (∃ f, In f files ∧ isValid (validateFile f cfg) = false) →
  batchValid (validateFiles files cfg) = false.
Proof.
  intros (f & Hin & Hf). unfold validateFiles; cbn [batchValid].
  apply andb_false_iff. right.
  apply not_true_is_false. intros Hall.
  rewrite forallb_forall in Hall.
  specialize (Hall (f, validateFile f cfg)). cbn [snd] in Hall.
  rewrite Hall in Hf; [discriminate|].
  apply in_map_iff. eauto.
Qed.

(** [selectFiles] gives every task of the batch the same status, decided
    by the validity of the batch as a whole. *)
Lemma selectFiles_progress cfg files h :
  let st := if batchValid (validateFiles files cfg) then pending else error in
  Forall (fun kv => status (snd kv) = st) (uploadProgress (selectFiles cfg files h))
  ∧ ∀ f, In f files →
      ∃ p, JsMap.get (generateFileId f) (uploadProgress (selectFiles cfg files h))
             = Some p
           ∧ status p = st.
Proof.
  intros st. unfold selectFiles. cbn [uploadProgress withSelection].
  set (mk := fun (m : list (string * UploadProgress)) (file : File) =>
               JsMap.set _ _ m).
  assert (Hgen : ∀ l m0,
    Forall (fun kv => status (snd kv) = st) m0 →
    Forall (fun kv => status (snd kv) = st) (fold_left mk l m0)
    ∧ ∀ f, (In f l
            ∨ ∃ p, JsMap.get (generateFileId f) m0 = Some p ∧ status p = st) →
        ∃ p, JsMap.get (generateFileId f) (fold_left mk l m0) = Some p
             ∧ status p = st).
  { induction l as [|x l IH]; intros m0 Hm0; simpl.
    - split; [done|]. intros f [[]|H]; done.
    - destruct (IH (mk m0 x)) as [IH1 IH2].
      { unfold mk. apply JsMap_set_Forall; [done | done]. }
      split; [done|]. intros f Hf. apply IH2.
      destruct (string_dec (generateFileId x) (generateFileId f)) as [E|NE].
      + right. unfold mk. rewrite E, JsMap_get_set_eq. eexists; split; done.
      + destruct Hf as [[->|Hf]|Hf]; [done | by left |].
        right. unfold mk. by rewrite JsMap_get_set_ne. }
  destruct (Hgen files [] (List.Forall_nil _)) as [H1 H2].
  split; [exact H1|]. intros f Hf. apply H2. by left.
Qed.

Lemma countStatus_zero s s' h :
  s ≠ s' →
  Forall (fun kv => status (snd kv) = s') (uploadProgress h) →
  countStatus s h = 0%nat.
Proof.
  intros Hne Hall. unfold countStatus.
  induction Hall as [|kv m Hkv Hm IH]; simpl; [done|].
  rewrite Hkv. destruct s, s'; simpl; try done; apply IH.
Qed.

Lemma updateProgress_twice id upd h :
  (∀ p, merge (merge p upd) upd = merge p upd) →
  updateProgress id upd (updateProgress id upd h) = updateProgress id upd h.
Proof.
  intros Hm. unfold updateProgress.
  destruct (JsMap.get id (uploadProgress h)) as [p|] eqn:E; simpl.
  - rewrite JsMap_get_set_eq, Hm, JsMap_set_set. reflexivity.
  - by rewrite E.
Qed.

Lemma abort_idem ctl ab : abort ctl (abort ctl ab) = abort ctl ab.
Proof.
  unfold abort. destruct (existsb (Nat.eqb ctl) ab) eqn:E; [by rewrite E|].
  rewrite existsb_app. simpl. rewrite Nat.eqb_refl, orb_true_r. reflexivity.
Qed.

Lemma filter_idem {A} (f : A → bool) l :
  List.filter f (List.filter f l) = List.filter f l.
Proof.
  induction l as [|x l IH]; simpl; [done|].
  destruct (f x) eqn:E; simpl; rewrite ?E, IH; done.
Qed.

(** Cancelling the same task a second time changes nothing. *)
Lemma cancelUpload_idempotent id h :
  cancelUpload id (cancelUpload id h) = cancelUpload id h.
Proof.
  unfold cancelUpload.
  destruct h as [sf up vr ac ab q act sus bs nc rp]; simpl.
  destruct (JsMap.get id ac) as [ctl|] eqn:Ec; simpl;
    unfold updateProgress; simpl;
    destruct (JsMap.get id up) as [p|] eqn:Ep; simpl;
    rewrite Ec; simpl;
    rewrite ?JsMap_get_set_eq, ?Ep; simpl;
    rewrite ?abort_idem, filter_idem, ?JsMap_set_set; reflexivity.
Qed.

(** [cancelUpload] writes ['cancelled'] over whatever status the task has;
    it does not look at the status first, as [cancelAllUploads] does. *)
Lemma cancelUpload_status id h p :
  JsMap.get id (uploadProgress h) = Some p →
  JsMap.get id (uploadProgress (cancelUpload id h))
    = Some (merge p cancelledUpdate).
Proof.
  intros Hp. unfold cancelUpload, updateProgress.
  destruct (JsMap.get id (abortControllers h)); cbn [uploadProgress withQueue withControllers];
    rewrite Hp; cbn [uploadProgress withProgress]; apply JsMap_get_set_eq.
Qed.

Lemma statusOf_updateProgress id id' upd h :
  statusOf id' (updateProgress id upd h)
  = if String.eqb id id'
    then (fun s => default s (u_status upd)) <$> statusOf id' h
    else statusOf id' h.
Proof.
  unfold statusOf, updateProgress.
  destruct (String.eqb_spec id id') as [<-|Hne].
  - destruct (JsMap.get id (uploadProgress h)) as [p|] eqn:E; cbn [uploadProgress withProgress].
    + by rewrite JsMap_get_set_eq.
    + by rewrite E.
  - destruct (JsMap.get id (uploadProgress h)) as [p|] eqn:E; cbn [uploadProgress withProgress];
      [by rewrite JsMap_get_set_ne | done].
Qed.

Lemma statusOf_start file id h :
  statusOf id (snd (uploadSingleFileStart file h))
  = if String.eqb (generateFileId file) id
    then (fun _ => uploading) <$> statusOf id h
    else statusOf id h.
Proof.
  unfold uploadSingleFileStart. cbn [snd].
  change (statusOf id (withSuspended ?s ?n ?x)) with (statusOf id x).
  rewrite statusOf_updateProgress. cbn [u_status default]. done.
Qed.

Lemma selectedFiles_start file h :
  selectedFiles (snd (uploadSingleFileStart file h)) = selectedFiles h.
Proof.
  unfold uploadSingleFileStart, updateProgress. cbn [snd].
  by destruct (JsMap.get _ _).
Qed.

Lemma startAll_keeps files : ∀ h id,
  statusOf id h = Some uploading →
  statusOf id (snd (startAll files h)) = Some uploading.
Proof.
  induction files as [|f files IH]; intros h id Hs; cbn [startAll]; [done|].
  destruct (uploadSingleFileStart f h) as [ctl h1] eqn:E1.
  destruct (startAll files h1) as [ctls h2] eqn:E2. cbn [snd].
  change h2 with (snd (ctls, h2)). rewrite <- E2. apply IH.
  change h1 with (snd (ctl, h1)). rewrite <- E1, statusOf_start, Hs.
  by destruct (String.eqb _ _).
Qed.

Lemma startAll_starts files : ∀ h f,
  In f files → is_Some (statusOf (generateFileId f) h) →
  statusOf (generateFileId f) (snd (startAll files h)) = Some uploading.
Proof.
  induction files as [|x files IH]; intros h f Hin Hs; [done|]. cbn [startAll].
  destruct (uploadSingleFileStart x h) as [ctl h1] eqn:E1.
  destruct (startAll files h1) as [ctls h2] eqn:E2. cbn [snd].
  change h2 with (snd (ctls, h2)). rewrite <- E2.
  assert (H1 : statusOf (generateFileId f) h1
               = if String.eqb (generateFileId x) (generateFileId f)
                 then (fun _ => uploading) <$> statusOf (generateFileId f) h
                 else statusOf (generateFileId f) h).
  { change h1 with (snd (ctl, h1)). rewrite <- E1. apply statusOf_start. }
  destruct Hs as [s Hs]. rewrite Hs in H1.
  destruct (String.eqb_spec (generateFileId x) (generateFileId f)) as [E|Hne].
  - by apply startAll_keeps.
  - destruct Hin as [->|Hin]; [done|]. apply IH; [done|]. rewrite H1. eauto.
Qed.

Lemma processQueueLoop_tasks K queue : ∀ h id,
  is_Some (statusOf id h) →
  is_Some (statusOf id (processQueueLoop K queue h))
  ∧ selectedFiles (processQueueLoop K queue h) = selectedFiles h.
Proof.
  induction queue as [|q queue IH]; intros h id Hs; cbn [processQueueLoop];
    [split; [exact Hs | reflexivity]|].
  destruct (_ <? _)%Z; [|split; [exact Hs | reflexivity]].
  destruct q as [|c q']; [by apply IH|].
  destruct (List.find _ (selectedFiles h)) as [file|]; [|by apply IH].
  set (h1 := withActive _ h).
  destruct (IH (snd (uploadSingleFileStart file h1)) id) as [H1 H2].
  - rewrite statusOf_start. change (statusOf id h1) with (statusOf id h).
    destruct Hs as [s ->]. destruct (String.eqb _ _); cbn; eauto.
  - split; [done|]. by rewrite H2, selectedFiles_start.
Qed.

(** Whatever the bound [K], every file of a batch that passed validation
    is ['uploading'] when [uploadFiles] suspends. *)
Lemma uploadFiles_starts_every_file cfg K files h :
  batchValid (validateFiles files cfg) = true →
  ∀ f, In f files →
    statusOf (generateFileId f) (uploadFiles K (selectFiles cfg files h))
    = Some uploading.
Proof.
  intros Hv f Hf.
  destruct (selectFiles_progress cfg files h) as [_ Hget].
  destruct (Hget f Hf) as (p & Hp & _). clear Hget.
  assert (Hval : validationResults (selectFiles cfg files h)
                 = Some (validateFiles files cfg)) by reflexivity.
  assert (Hsel0 : selectedFiles (selectFiles cfg files h) = files) by reflexivity.
  set (h0 := selectFiles cfg files h) in *.
  assert (Hs : is_Some (statusOf (generateFileId f) h0)).
  { unfold statusOf. rewrite Hp. cbn. eauto. }
  unfold uploadFiles. rewrite Hval, Hv, Hsel0.
  destruct files as [|x files']; [done|]. cbn [length Nat.eqb negb andb].
  set (h1 := withQueue _ h0).
  destruct (processQueueLoop_tasks K (uploadQueue h1) h1 (generateFileId f))
    as [Hs2 Hsel]; [done|].
  fold (processUploadQueue K h1) in Hs2, Hsel.
  set (h2 := processUploadQueue K h1) in *.
  pose proof (startAll_starts (selectedFiles h2) h2 f) as Hall.
  rewrite Hsel in Hall. change (selectedFiles h1) with (selectedFiles h0) in *.
  rewrite Hsel0 in *. specialize (Hall Hf Hs2). rewrite Hsel.
  destruct (startAll (x :: files') h2) as [ctls h3]. cbn [snd] in Hall.
  exact Hall.
Qed.

(** C1 (the code at ten queued files and K = 3).  [processUploadQueue]
    admits three uploads and leaves seven ids queued, but [uploadFiles] then
    calls [uploadSingleFile] for every selected file: when it suspends, all
    ten tasks are ['uploading'] and thirteen requests are in flight. *)
Theorem C1_ten_files_all_uploading :
  let h0 := selectFiles DEFAULT_VALIDATION_CONFIG tenFiles newHook in
  let queued := withQueue (map generateFileId (selectedFiles h0)) h0 in
  let h := uploadFiles 3 h0 in
  countStatus pending h0 = 10%nat
  ∧ countStatus uploading (processUploadQueue 3 queued) = 3%nat
  ∧ length (uploadQueue (processUploadQueue 3 queued)) = 7%nat
  ∧ countStatus uploading h = 10%nat
  ∧ JsSet.size (activeUploads h) = 3%nat
  ∧ length (suspended h) = 13%nat.
Proof. vm_compute. repeat split. Qed.

(** C3 (the code at a completed task).  A file is selected, uploaded and
    completed with progress 100; [cancelUpload] then turns the recorded
    status of the finished task into ['cancelled'] and attaches the
    cancellation message. *)
Theorem C3_cancel_overwrites_completed :
  let id := generateFileId (pdf "a0.pdf") in
  let h0 := uploadFiles 3 (selectFiles DEFAULT_VALIDATION_CONFIG [pdf "a0.pdf"] newHook) in
  ∃ h1 h2,
    uploadSingleFileSettle 0 (FetchOk "{}") h0 = Some h1
    ∧ uploadSingleFileSettle 1 (FetchOk "{}") h1 = Some h2
    ∧ suspended h2 = []
    ∧ statusOf id h2 = Some completed
    ∧ (progress <$> JsMap.get id (uploadProgress h2)) = Some 100%Z
    ∧ statusOf id (cancelUpload id h2) = Some cancelled
    ∧ (errorText <$> JsMap.get id (uploadProgress (cancelUpload id h2)))
        = Some (Some (Message "Загрузка отменена")).
Proof. do 2 eexists. vm_compute. repeat split. Qed.

(** C4, amended.  When some file of the selected batch fails validation,
    every task of the batch, the valid files' included, is created in
    ['error'] state, no task is ['uploading'], and [uploadFiles] returns
    at its guard leaving the hook as it was: nothing is queued, no upload
    is started and no completion report is pending. *)
Theorem C4_invalid_file_blocks_batch cfg K files h :
  (∃ f, In f files ∧ isValid (validateFile f cfg) = false) →
  let h1 := selectFiles cfg files h in
  (∀ f, In f files → statusOf (generateFileId f) h1 = Some error)
  ∧ Forall (fun kv => status (snd kv) = error) (uploadProgress h1)
  ∧ countStatus uploading h1 = 0%nat
  ∧ uploadFiles K h1 = h1.
Proof.
  intros Hbad h1.
  pose proof (batchValid_false cfg files Hbad) as Hv.
  destruct (selectFiles_progress cfg files h) as [Hall Hget].
  rewrite Hv in Hall, Hget. fold h1 in Hall, Hget.
  repeat split.
  - intros f Hf. destruct (Hget f Hf) as (p & Hp & Hs).
    unfold statusOf. rewrite Hp. simpl. by rewrite Hs.
  - exact Hall.
  - by apply (countStatus_zero uploading error).
  - unfold uploadFiles, h1, selectFiles. cbn [validationResults withSelection].
    by rewrite Hv.
Qed.

Lemma C4_invalid_file_blocks_batch_witness :
  (∃ f, In f mixedBatch
        ∧ isValid (validateFile f DEFAULT_VALIDATION_CONFIG) = false)
  ∧ let h1 := selectFiles DEFAULT_VALIDATION_CONFIG mixedBatch newHook in
    (∀ f, In f mixedBatch → statusOf (generateFileId f) h1 = Some error)
    ∧ Forall (fun kv => status (snd kv) = error) (uploadProgress h1)
    ∧ countStatus uploading h1 = 0%nat
    ∧ uploadFiles 3 h1 = h1.
Proof.
  assert (Hbad : ∃ f, In f mixedBatch
                      ∧ isValid (validateFile f DEFAULT_VALIDATION_CONFIG) = false).
  { exists {| name := "b.png"; size := 1000; type := "image/png";
              lastModified := 7 |}.
    split; [right; left; reflexivity | vm_compute; reflexivity]. }
  split; [exact Hbad|].
  exact (C4_invalid_file_blocks_batch DEFAULT_VALIDATION_CONFIG 3 mixedBatch
           newHook Hbad).
Defined.

(** C4 as stated fails on the batch of four with a wrong extension in
    second place: the three valid files do not proceed (their tasks are in
    ['error'] state too), and after [uploadFiles] no upload is suspended and
    no batch waits to report, so no report of four outcomes can follow. *)
Lemma C4_counterexample :
  let h := uploadFiles 3 (selectFiles DEFAULT_VALIDATION_CONFIG mixedBatch newHook) in
  isValid (validateFile (pdf "a.pdf") DEFAULT_VALIDATION_CONFIG) = true
  ∧ statusOf (generateFileId (pdf "a.pdf")) h = Some error
  ∧ statusOf (generateFileId (pdf "c.pdf")) h = Some error
  ∧ statusOf (generateFileId (pdf "d.pdf")) h = Some error
  ∧ suspended h = []
  ∧ batches h = []
  ∧ reports h = [].
Proof. vm_compute. repeat split. Qed.

End UploadFacts.

(* --------------------------------------------------------------------- *)
(** ** Optimistic update                                                  *)
(* --------------------------------------------------------------------- *)

Section OptimisticFacts.
Import ErrorHandler OptimisticUpdate.
Context {T : Type}.

Lemma clearTimeout_settled (h : Hook T) :
  settledBefore h → clearTimeout (rollbackTimeoutRef h) (timers h) = [].
Proof.
  unfold settledBefore. intros Hall.
  induction Hall as [|t l Ht Hl IH]; simpl.
  - by destruct (rollbackTimeoutRef h).
  - rewrite Ht in IH |- *. simpl in *. rewrite Nat.eqb_refl. simpl. exact IH.
Qed.

(** After an update applied to a settled hook has failed, exactly one
    timeout is pending: its own. *)
Lemma rejected_timers (delay : option Z) (h : Hook T) (x : T) (e : ErrorValue)
    (failedAt : Z) :
  settledBefore h →
  timers (updateRejected delay e failedAt (executeOptimisticUpdate x h))
  = [{| t_id := nextTimer h;
        t_due := (failedAt + rollbackDelay delay)%Z;
        t_error := toNetworkError e |}].
Proof.
  intros Hs. unfold updateRejected, executeOptimisticUpdate. cbn [timers nextTimer].
  by rewrite clearTimeout_settled.
Qed.

(** Updates made one after the other keep the hook settled: a new hook is,
    and so is the hook after an update that succeeded, or that failed,
    whether or not its timeout has run. *)
Lemma settledBefore_sequential (delay : option Z) (h : Hook T) (x result : T)
    (e : ErrorValue) (failedAt now : Z) (initialData : T) :
  settledBefore (useOptimisticUpdate initialData)
  ∧ (settledBefore h →
     settledBefore (updateResolved result (executeOptimisticUpdate x h))
     ∧ settledBefore
         (elapse now (updateRejected delay e failedAt (executeOptimisticUpdate x h)))).
Proof.
  split; [constructor|]. intros Hs. split.
  - unfold settledBefore, updateResolved, executeOptimisticUpdate.
    cbn [timers rollbackTimeoutRef]. rewrite clearTimeout_settled by done. constructor.
  - pose proof (rejected_timers delay h x e failedAt Hs) as Ht.
    set (h2 := updateRejected delay e failedAt (executeOptimisticUpdate x h)) in *.
    unfold elapse. rewrite Ht. cbn [fold_left t_due].
    destruct (_ <=? _)%Z.
    + unfold settledBefore, fire. cbn [timers t_id]. rewrite Ht. cbn.
      rewrite Nat.eqb_refl. constructor.
    + unfold settledBefore. rewrite Ht. constructor; [reflexivity | constructor].
Qed.

(** A timeout that runs leaves the others, and the reference, alone. *)
Lemma fold_fire_settled (now : Z) (l : list (Timer)) : ∀ h : Hook T,
  settledBefore h →
  settledBefore
    (fold_left (fun acc t => if (t_due t <=? now)%Z then fire t acc else acc) l h).
Proof.
  induction l as [|t l IH]; intros h Hs; cbn [fold_left]; [done|].
  apply IH. destruct (t_due t <=? now)%Z; [|done].
  unfold settledBefore, fire in *. cbn [timers rollbackTimeoutRef].
  apply List.Forall_forall. intros t' Hin. apply filter_In in Hin as [Hin _].
  by apply (proj1 (List.Forall_forall _ _) Hs).
Qed.

(** Used one call at a time, the hook never has a timeout pending
    besides the one [rollbackTimeoutRef] holds. *)
Lemma sequential_settled (delay : option Z) (h : Hook T) :
  sequential delay h → settledBefore h.
Proof.
  induction 1 as [initialData|h x result _ IH|h x e now _ IH|h now _ IH|h _ IH
                  |h newData _ IH|h _ IH].
  - constructor.
  - unfold settledBefore, updateResolved, executeOptimisticUpdate.
    cbn [timers rollbackTimeoutRef]. rewrite clearTimeout_settled by done. constructor.
  - unfold settledBefore. rewrite rejected_timers by done.
    constructor; [reflexivity | constructor].
  - by apply fold_fire_settled.
  - unfold settledBefore, rollbackImmediately. cbn [timers rollbackTimeoutRef].
    rewrite clearTimeout_settled by done. constructor.
  - done.
  - done.
Qed.


End OptimisticFacts.



(* ===================================================================== *)
(** * Further properties                                                  *)
(* ===================================================================== *)

(** Properties of the same modules, and of [useAsyncOperation] and
    [translateError], that the code shows beyond the statements above. *)

Section RetryBudget.
Import ErrorHandler.
Context {T : Type}.
Variable operation : Z → Outcome T.
Variable random : Z → Q.
Variable cfg : RetryConfig.
Variable ctx : ErrorContext.

(** The loop entered at [attempt] with the iterations up to [maxAttempts]
    left: what it made of the calls it issued. *)
Lemma retryLoop_trace k : ∀ attempt last,
  (attempt + Z.of_nat k = maxAttempts cfg + 1)%Z →
  let r := retryLoop operation random cfg ctx k attempt last in
  let final := (attempt + Z.of_nat (calls r) - 1)%Z in
  (calls r <= k)%nat
  ∧ (k ≠ 0%nat → (1 <= calls r)%nat)
  ∧ sleeps r = map (fun j => let a := (attempt + Z.of_nat j)%Z in
                             calculateDelay a cfg (random a))
                   (seq 0 (pred (calls r)))
  ∧ (∀ j, (j < pred (calls r))%nat →
       ∃ e, operation (attempt + Z.of_nat j) = Rejected e
            ∧ isRetryableError e = true)
  ∧ match settled r with
    | inl v => operation final = Resolved v
    | inr (ThrownNetwork n) =>
        ∃ e, operation final = Rejected e
             ∧ n = terminalError cfg ctx final e
             ∧ (final = maxAttempts cfg ∨ isRetryableError e = false)
    | inr (ThrownLast l) => k = 0%nat ∧ l = last
    end.
Proof.
  induction k as [|k IH]; intros attempt last Hk; cbn [retryLoop].
  - cbn. repeat split; try done; intros j Hj; lia.
  - destruct (operation attempt) as [v|e] eqn:Hop.
    + cbn [calls sleeps settled pred seq map].
      replace (attempt + Z.of_nat 1 - 1)%Z with attempt by lia.
      repeat split; try done; try lia; intros j Hj; lia.
    + destruct (Z.eqb_spec attempt (maxAttempts cfg)) as [Hlast|Hne]; cbn [orb].
      * cbn [calls sleeps settled pred seq map].
        replace (attempt + Z.of_nat 1 - 1)%Z with attempt by lia.
        split; [lia|]. split; [lia|]. split; [done|]. split; [intros j Hj; lia|].
        exists e. split; [done|]. split; [done|]. by left.
      * destruct (isRetryableError e) eqn:Hr; cbn [negb].
        -- assert (Hk' : k ≠ 0%nat) by lia.
           destruct (IH (attempt + 1)%Z (Some e) ltac:(lia))
             as (Hc & Hpos & Hsl & Hpre & Hset).
           specialize (Hpos Hk').
           set (r := retryLoop operation random cfg ctx k (attempt + 1) (Some e)) in *.
           cbn [calls sleeps settled].
           split; [lia|]. split; [lia|]. split; [|split].
           ++ cbn [pred]. destruct (calls r) as [|c] eqn:Ec; [lia|].
              cbn [seq map]. rewrite Z.add_0_r. f_equal.
              rewrite Hsl. cbn [pred]. rewrite <- seq_shift, map_map.
              apply map_ext. intros j.
              by replace (attempt + 1 + Z.of_nat j)%Z with (attempt + Z.of_nat (S j))%Z by lia.
           ++ intros j Hj. destruct j as [|j].
              ** rewrite Z.add_0_r. by exists e.
              ** destruct (Hpre j ltac:(simpl in Hj; lia)) as (e' & He' & Hr').
                 exists e'. split; [|done].
                 by replace (attempt + Z.of_nat (S j))%Z with (attempt + 1 + Z.of_nat j)%Z by lia.
           ++ replace (attempt + Z.of_nat (S (calls r)) - 1)%Z
                with (attempt + 1 + Z.of_nat (calls r) - 1)%Z by lia.
              destruct (settled r) as [v|[n|l]]; [done|done|]. lia.
        -- cbn [calls sleeps settled pred seq map].
           replace (attempt + Z.of_nat 1 - 1)%Z with attempt by lia.
           split; [lia|]. split; [lia|]. split; [done|]. split; [intros j Hj; lia|].
           exists e. split; [done|]. split; [done|]. by right.
Qed.
End RetryBudget.

Section RetryProperties.
Import ErrorHandler.
Context {T : Type}.

(** X2.  Every run of [withRetry]: the operation is called at most
    [maxAttempts] times (not at all when [maxAttempts] is below 1) and one
    delay is slept between two consecutive calls; every call before the last
    one failed with a retryable error; a value the run resolves with is the
    value of its last call; a [NetworkError] it throws is built from the
    failure of its last call, which was the [maxAttempts]-th call or failed
    with a non-retryable error; and the [throw lastError] after the loop is
    reached only when [maxAttempts] is below 1, with [lastError] still
    [undefined]. *)
Theorem X2_retry_call_budget (operation : Z → Outcome T) (random : Z → Q)
    (config : PartialRetryConfig) (ctx : ErrorContext) :
  let cfg := mergeRetryConfig config in
  let r := withRetry operation random config ctx in
  let final := Z.of_nat (calls r) in
  (Z.of_nat (calls r) <= Z.max 0 (maxAttempts cfg))%Z
  ∧ length (sleeps r) = pred (calls r)
  ∧ (∀ a, (1 <= a < final)%Z →
       ∃ e, operation a = Rejected e ∧ isRetryableError e = true)
  ∧ match settled r with
    | inl v => operation final = Resolved v
    | inr (ThrownNetwork n) =>
        ∃ e, operation final = Rejected e
             ∧ n = terminalError cfg ctx final e
             ∧ (final = maxAttempts cfg ∨ isRetryableError e = false)
    | inr (ThrownLast l) => (maxAttempts cfg < 1)%Z ∧ l = None ∧ calls r = 0%nat
    end.
Proof.
  intros cfg r final. unfold withRetry in r. fold cfg in r.
  destruct (Z.le_gt_cases 1 (maxAttempts cfg)) as [Hpos|Hneg].
  - destruct (retryLoop_trace operation random cfg ctx
                (Z.to_nat (maxAttempts cfg)) 1 None ltac:(lia))
      as (Hc & Hone & Hsl & Hpre & Hset).
    fold r in Hc, Hone, Hsl, Hpre, Hset.
    specialize (Hone ltac:(lia)).
    split; [lia|]. split; [by rewrite Hsl, length_map, length_seq|]. split.
    + intros a Ha. destruct (Hpre (Z.to_nat (a - 1))) as (e & He & Hr); [unfold final in Ha; lia|].
      exists e. split; [|done]. by replace a with (1 + Z.of_nat (Z.to_nat (a - 1)))%Z by lia.
    + replace (1 + Z.of_nat (calls r) - 1)%Z with final in Hset by (unfold final; lia).
      destruct (settled r) as [v|[n|l]]; [done|done|]. lia.
  - subst r final. replace (Z.to_nat (maxAttempts cfg)) with 0%nat by lia.
    cbn. split; [lia|]. split; [done|]. split; [intros a Ha; lia|]. done.
Qed.

(** X3.  If the first [k - 1] calls fail with retryable errors and the
    [k]-th call, [k] within [maxAttempts], resolves, then [withRetry]
    resolves with the value of that call after exactly [k] calls, having
    slept before each retry the delay [calculateDelay] gives for the attempt
    that failed. *)
Theorem X3_retry_first_success (operation : Z → Outcome T) (random : Z → Q)
    (config : PartialRetryConfig) (ctx : ErrorContext) (k : nat) (v : T) :
  let cfg := mergeRetryConfig config in
  (1 <= Z.of_nat k <= maxAttempts cfg)%Z →
  (∀ a, (1 <= a < Z.of_nat k)%Z →
     ∃ e, operation a = Rejected e ∧ isRetryableError e = true) →
  operation (Z.of_nat k) = Resolved v →
  let r := withRetry operation random config ctx in
  settled r = inl v
  ∧ calls r = k
  ∧ sleeps r = map (fun a => calculateDelay (Z.of_nat a) cfg (random (Z.of_nat a)))
                   (seq 1 (pred k)).
Proof.
  intros cfg Hk Hfail Hok r.
  unfold withRetry in r. fold cfg in r.
  assert (Hgen : ∀ n attempt last,
    (attempt + Z.of_nat n = Z.of_nat k)%Z → (1 <= attempt)%Z →
    ∀ extra,
    let r := retryLoop operation random cfg ctx (S (n + extra)) attempt last in
    (Z.of_nat k + Z.of_nat extra <= maxAttempts cfg)%Z →
    settled r = inl v ∧ calls r = S n
    ∧ sleeps r = map (fun j => let a := (attempt + Z.of_nat j)%Z in
                               calculateDelay a cfg (random a)) (seq 0 n)).
  { induction n as [|n IH]; intros attempt last Ha H1 extra r' Hex; subst r'.
    - cbn [retryLoop]. replace attempt with (Z.of_nat k) by lia. rewrite Hok. done.
    - destruct (Hfail attempt ltac:(lia)) as (e & He & Hr).
      change (S (S n + extra)) with (S (S (n + extra))).
      rewrite (retryLoop_retry operation random cfg ctx _ attempt last e He Hr) by lia.
      destruct (IH (attempt + 1)%Z (Some e) ltac:(lia) ltac:(lia) extra Hex)
        as (Hs & Hc & Hsl).
      cbn [settled calls sleeps]. rewrite Hs, Hc, Hsl.
      split; [done|]. split; [done|].
      cbn [seq map]. rewrite Z.add_0_r. f_equal.
      rewrite <- seq_shift, map_map. apply map_ext. intros j.
      by replace (attempt + 1 + Z.of_nat j)%Z with (attempt + Z.of_nat (S j))%Z by lia. }
  destruct k as [|k]; [lia|].
  destruct (Hgen k 1%Z None ltac:(lia) ltac:(lia)
              (Z.to_nat (maxAttempts cfg) - S k)%nat ltac:(lia)) as (Hs & Hc & Hsl).
  replace (S (k + (Z.to_nat (maxAttempts cfg) - S k))) with (Z.to_nat (maxAttempts cfg))
    in Hs, Hc, Hsl by lia.
  fold r in Hs, Hc, Hsl.
  split; [done|]. split; [done|].
  rewrite Hsl. cbn [pred]. rewrite <- seq_shift, map_map. apply map_ext. intros j.
  cbv zeta. by replace (1 + Z.of_nat j)%Z with (Z.of_nat (S j)) by lia.
Qed.
End RetryProperties.

Section CacheLookup.
Import Cache.
Context {V : Type}.
Variable config : CacheConfig.
Implicit Types (m : list (string * CacheItem V)) (now : Z).

Lemma JsMap_get_filter {A} (f : string * A → bool) k (m : list (string * A)) :
  JsMap.wf m →
  JsMap.get k (List.filter f m)
  = match JsMap.get k m with
    | Some v => if f (k, v) then Some v else None
    | None => None
    end.
Proof.
  intros Hwf. destruct (JsMap.get k m) as [v|] eqn:Eg.
  - apply JsMap_get_Some_In in Eg as Hin. destruct (f (k, v)) eqn:Ef.
    + apply JsMap_get_In; [by apply JsMap_filter_wf|]. by apply filter_In.
    + apply JsMap_get_None. intros Hk. unfold JsMap.keys in Hk.
      apply in_map_iff in Hk as ([k' v'] & E & Hin'). simpl in E. subst k'.
      apply filter_In in Hin' as [Hin' Hf'].
      pose proof (JsMap_wf_inj m (k, v') (k, v) Hwf Hin' Hin eq_refl) as [= ->].
      congruence.
  - apply JsMap_get_None. apply JsMap_get_None in Eg. intros Hk. apply Eg.
    unfold JsMap.keys in *. apply in_map_iff in Hk as (e & E & Hin').
    apply in_map_iff. exists e. split; [done|]. apply filter_In in Hin'. tauto.
Qed.

(** In a store within the size bound, [cleanup] only removes what has
    expired. *)
Lemma cleanup_bounded now m :
  JsMap.wf m → (0 <= maxSize config)%Z →
  (Z.of_nat (length m) <= maxSize config)%Z →
  cleanup config now m = List.filter (isFresh now) m.
Proof.
  intros Hwf Hmax Hlen. rewrite cleanup_spec by done.
  pose proof (filter_length_le (isFresh now) m).
  replace (_ - _)%nat with 0%nat by lia. by rewrite drop_0.
Qed.

(** What [get] answers, read off the store as it is. *)
Lemma get_bounded now url params m :
  JsMap.wf m → (0 <= maxSize config)%Z →
  (Z.of_nat (length m) <= maxSize config)%Z →
  fst (get config now url params m)
  = match JsMap.get (generateKey url params) m with
    | Some item => if isExpired now item then None else Some (data item)
    | None => None
    end.
Proof.
  intros Hwf Hmax Hlen. unfold get. rewrite cleanup_bounded by done.
  rewrite JsMap_get_filter by done.
  destruct (JsMap.get (generateKey url params) m) as [item|]; [|done].
  unfold isFresh. cbn [snd].
  destruct (isExpired now item) eqn:E; simpl; rewrite ?E; reflexivity.
Qed.

Lemma JsMap_deleteAll_filter {A} ks (m : list (string * A)) :
  JsMap.wf m →
  JsMap.deleteAll ks m
  = List.filter (fun e => negb (existsb (String.eqb (fst e)) ks)) m.
Proof.
  unfold JsMap.deleteAll. revert m. induction ks as [|k ks IH]; intros m Hwf; simpl.
  - symmetry. apply forallb_filter_id. by apply forallb_forall.
  - rewrite IH by (by apply JsMap_delete_wf). rewrite JsMap_delete_filter by done.
    rewrite filter_twice. apply filter_ext. intros [k' v]. simpl.
    rewrite (String.eqb_sym k' k). by destruct (String.eqb k k').
Qed.

Lemma invalidatePattern_filter pattern m :
  JsMap.wf m →
  invalidatePattern pattern m
  = List.filter (fun e => negb (includes pattern (fst e))) m.
Proof.
  intros Hwf. unfold invalidatePattern. rewrite JsMap_deleteAll_filter by done.
  apply filter_ext_in. intros [k v] Hin. simpl. f_equal.
  destruct (includes pattern k) eqn:Ei.
  - apply existsb_exists. exists k. split; [|apply String.eqb_refl].
    apply filter_In. split; [|done]. unfold JsMap.keys. apply in_map_iff. by exists (k, v).
  - apply not_true_is_false. intros Hex. apply existsb_exists in Hex as (k' & Hk' & E).
    apply String.eqb_eq in E. subst k'. apply filter_In in Hk' as [_ Hk']. congruence.
Qed.

Lemma filter_length_bound {A} (f : A → bool) (l : list A) (n : Z) :
  (Z.of_nat (length l) <= n)%Z → (Z.of_nat (length (List.filter f l)) <= n)%Z.
Proof. pose proof (filter_length_le f l). lia. Qed.

(** X4.  After [invalidate(url, params)] on a cache with a non-negative
    [maxSize], a [get] of the same url and params returns [null] at every
    clock reading, and a [get] of any other key returns what it would have
    returned without the invalidation. *)
Theorem X4_invalidate_removes_one_key m now url params url' params' :
  reachable config m → (0 <= maxSize config)%Z →
  let m' := invalidate url params m in
  fst (get config now url params m') = None
  ∧ (generateKey url' params' ≠ generateKey url params →
     fst (get config now url' params' m') = fst (get config now url' params' m)).
Proof.
  intros Hreach Hmax m'.
  pose proof (reachable_wf config m Hreach) as Hwf.
  pose proof (reachable_bounded config m Hmax Hreach) as Hlen.
  assert (Hm' : m' = List.filter (fun kv => negb (String.eqb (generateKey url params) (fst kv))) m)
    by (by apply JsMap_delete_filter).
  assert (Hwf' : JsMap.wf m') by (by apply JsMap_delete_wf).
  assert (Hlen' : (Z.of_nat (length m') <= maxSize config)%Z).
  { rewrite Hm'. by apply filter_length_bound. }
  rewrite !get_bounded by done. rewrite Hm'. split.
  - rewrite JsMap_get_filter by done.
    destruct (JsMap.get _ m) as [item|]; [|done]. cbn [fst]. by rewrite String.eqb_refl.
  - intros Hne. rewrite JsMap_get_filter by done.
    destruct (JsMap.get (generateKey url' params') m) as [item|]; [|done]. cbn [fst].
    destruct (String.eqb_spec (generateKey url params) (generateKey url' params')); [congruence|done].
Qed.

Lemma get_after_invalidatePattern m now pattern url params :
  reachable config m → (0 <= maxSize config)%Z →
  let m' := invalidatePattern pattern m in
  (includes pattern (generateKey url params) = true →
     fst (get config now url params m') = None)
  ∧ (includes pattern (generateKey url params) = false →
     fst (get config now url params m') = fst (get config now url params m)).
Proof.
  intros Hreach Hmax m'.
  pose proof (reachable_wf config m Hreach) as Hwf.
  pose proof (reachable_bounded config m Hmax Hreach) as Hlen.
  assert (Hm' : m' = List.filter (fun e => negb (includes pattern (fst e))) m)
    by (by apply invalidatePattern_filter).
  assert (Hwf' : JsMap.wf m') by (rewrite Hm'; by apply JsMap_filter_wf).
  assert (Hlen' : (Z.of_nat (length m') <= maxSize config)%Z).
  { rewrite Hm'. by apply filter_length_bound. }
  rewrite !get_bounded by done. rewrite Hm'. rewrite JsMap_get_filter by done.
  cbn [fst]. split.
  - intros ->. by destruct (JsMap.get _ m).
  - intros ->. by destruct (JsMap.get _ m).
Qed.

(** X5.  After [invalidatePattern(pattern)] a [get] returns [null] for
    every key that contains the pattern and what it would have returned
    before for every key that does not; the keys left are the keys that do
    not contain the pattern, in their insertion order. *)
Theorem X5_invalidatePattern_removes_matching_keys m now pattern url params :
  reachable config m → (0 <= maxSize config)%Z →
  let m' := invalidatePattern pattern m in
  (includes pattern (generateKey url params) = true →
     fst (get config now url params m') = None)
  ∧ (includes pattern (generateKey url params) = false →
     fst (get config now url params m') = fst (get config now url params m))
  ∧ JsMap.keys m'
    = List.filter (fun k => negb (includes pattern k)) (JsMap.keys m).
Proof.
  intros Hreach Hmax m'.
  destruct (get_after_invalidatePattern m now pattern url params Hreach Hmax)
    as [Hin Hout].
  split; [exact Hin|]. split; [exact Hout|].
  unfold m'. rewrite invalidatePattern_filter by (by apply (reachable_wf config)).
  unfold JsMap.keys. clear. induction m as [|[k v] m IH]; simpl; [done|].
  destruct (includes pattern k); simpl; by rewrite IH.
Qed.

(** X6.  While the cache holds fewer than [maxSize] entries, a [set]
    of one key does not change what a later [get] of any other key
    returns. *)
Theorem X6_set_leaves_other_keys m now0 now url value params ttl0 url' params' :
  reachable config m →
  (Z.of_nat (length m) < maxSize config)%Z →
  (now0 <= now)%Z →
  generateKey url' params' ≠ generateKey url params →
  fst (get config now url' params' (set config now0 url value params ttl0 m))
  = fst (get config now url' params' m).
Proof.
  intros Hreach Hroom Hnow Hne.
  pose proof (reachable_wf config m Hreach) as Hwf.
  assert (Hmax : (0 <= maxSize config)%Z) by lia.
  set (key := generateKey url params).
  set (item := {| data := value; timestamp := now0;
                  ttl := Js.numOr ttl0 (defaultTTL config) |}).
  assert (Hwf1 : JsMap.wf (JsMap.set key item m)) by (by apply JsMap_set_wf).
  assert (Hlen1 : (Z.of_nat (length (JsMap.set key item m)) <= maxSize config)%Z).
  { rewrite JsMap_set_length. destruct (JsMap.has key m); lia. }
  assert (Hset : set config now0 url value params ttl0 m
                 = List.filter (isFresh now0) (JsMap.set key item m)).
  { unfold set. fold key item. by apply cleanup_bounded. }
  rewrite Hset.
  rewrite !get_bounded; [|done|done|lia|by apply JsMap_filter_wf|done|by apply filter_length_bound].
  rewrite JsMap_get_filter by done.
  rewrite JsMap_get_set_ne by done.
  destruct (JsMap.get (generateKey url' params') m) as [it|]; [|done].
  unfold isFresh. cbn [snd].
  destruct (isExpired now0 it) eqn:E0; cbn [negb]; [|done].
  unfold isExpired in *. apply Z.gtb_lt in E0.
  replace (now - timestamp it >? ttl it)%Z with true; [done|].
  symmetry. apply Z.gtb_lt. lia.
Qed.

(** X7.  Eviction follows the order of first insertion, which a rewrite
    does not refresh: in a full cache with no expired entry, writing a new
    value under the oldest key leaves it in the oldest position, so that
    the next write of a new key evicts the entry just rewritten, and a [get]
    of it returns [null]. *)
Theorem X7_overwrite_keeps_eviction_order m now1 now2 now3 url value params ttl0
    url' value' params' ttl1 item0 rest :
  reachable config m →
  m = (generateKey url params, item0) :: rest →
  Z.of_nat (length m) = maxSize config →
  (now1 <= now2)%Z →
  Forall (fun e => isFresh now2 e = true) m →
  (0 <= Js.numOr ttl0 (defaultTTL config))%Z →
  (now2 - now1 <= Js.numOr ttl0 (defaultTTL config))%Z →
  (0 <= Js.numOr ttl1 (defaultTTL config))%Z →
  ¬ In (generateKey url' params') (JsMap.keys m) →
  let m1 := set config now1 url value params ttl0 m in
  let m2 := set config now2 url' value' params' ttl1 m1 in
  JsMap.keys m1 = JsMap.keys m
  ∧ JsMap.keys m2 = JsMap.keys rest ++ [generateKey url' params']
  ∧ fst (get config now3 url params m2) = None.
Proof.
  intros Hreach Hm Hfull Hnow Hfresh Httl0 Hage Httl1 Hnew m1 m2.
  pose proof (reachable_wf config m Hreach) as Hwf.
  assert (Hmax : (0 <= maxSize config)%Z) by lia.
  set (key := generateKey url params) in *.
  set (key' := generateKey url' params') in *.
  set (item := {| data := value; timestamp := now1;
                  ttl := Js.numOr ttl0 (defaultTTL config) |}).
  set (item' := {| data := value'; timestamp := now2;
                   ttl := Js.numOr ttl1 (defaultTTL config) |}).
  assert (Hfresh1 : ∀ (e : string * CacheItem V) now,
            (now <= now2)%Z → isFresh now2 e = true → isFresh now e = true).
  { intros e now Hle. unfold isFresh, isExpired. rewrite !negb_true_iff, !Z.gtb_ltb, !Z.ltb_ge. lia. }
  assert (Hitem : ∀ now, (now1 <= now <= now2)%Z → isFresh now (key, item) = true).
  { intros now Hle. unfold isFresh, isExpired, item. cbn [snd timestamp ttl].
    rewrite negb_true_iff, Z.gtb_ltb, Z.ltb_ge. lia. }
  assert (Hrest : Forall (fun e => isFresh now2 e = true) rest).
  { rewrite Hm in Hfresh. by apply Forall_cons in Hfresh as [_ ?]. }
  assert (Em1 : m1 = (key, item) :: rest).
  { unfold m1, set. fold key item. rewrite Hm. cbn [JsMap.set]. rewrite String.eqb_refl.
    rewrite cleanup_bounded.
    - apply filter_all. constructor; [apply Hitem; lia|].
      eapply Forall_impl; [exact Hrest|]. intros e He. by apply (Hfresh1 e now1).
    - rewrite Hm in Hwf. exact Hwf.
    - done.
    - rewrite Hm in Hfull. simpl in *. lia. }
  assert (Hwf1 : JsMap.wf m1) by (rewrite Em1; rewrite Hm in Hwf; exact Hwf).
  assert (Hnew1 : ¬ In key' (JsMap.keys m1)) by (rewrite Em1; rewrite Hm in Hnew; exact Hnew).
  assert (Em2 : m2 = rest ++ [(key', item')]).
  { unfold m2, set. fold key' item'. rewrite JsMap_set_new by done.
    rewrite cleanup_spec; [|rewrite <- JsMap_set_new by done; by apply JsMap_set_wf|done].
    rewrite filter_all.
    - rewrite Em1, length_app. rewrite Hm in Hfull. cbn [length] in *.
      replace (_ - _)%nat with 1%nat by lia. done.
    - rewrite Em1. apply Forall_app. split.
      + constructor; [apply Hitem; lia | done].
      + constructor; [|constructor]. unfold isFresh, isExpired, item'. cbn [snd timestamp ttl].
        rewrite negb_true_iff, Z.gtb_ltb, Z.ltb_ge. lia. }
  split; [by rewrite Em1, Hm|]. split.
  - rewrite Em2. unfold JsMap.keys. by rewrite map_app.
  - assert (Habs : ¬ In key (JsMap.keys m2)).
    { rewrite Em2. unfold JsMap.keys. rewrite map_app. cbn [map fst].
      intros Hin. apply in_app_iff in Hin as [Hin|[E|[]]].
      - rewrite Hm in Hwf. unfold JsMap.wf, JsMap.keys in Hwf. cbn [map fst] in Hwf.
        apply NoDup_cons in Hwf as [Hk _]. apply Hk. by apply list_elem_of_In.
      - apply Hnew. rewrite Hm. left. done. }
    unfold get. fold key.
    replace (JsMap.get key (cleanup config now3 m2)) with (@None (CacheItem V)); [done|].
    symmetry. apply JsMap_get_None. intros Hin. apply Habs.
    assert (Hwf2 : JsMap.wf m2).
    { unfold m2, set. apply cleanup_wf. by apply JsMap_set_wf. }
    rewrite cleanup_spec in Hin by done.
    unfold JsMap.keys in *. apply in_map_iff in Hin as (e & E & Hin).
    apply In_drop, filter_In in Hin as [Hin _]. apply in_map_iff. by exists e.
Qed.
End CacheLookup.

Section CacheRoundTrip.
Import Cache.
Context {V : Type}.
Variable config : CacheConfig.
Implicit Types (m : list (string * CacheItem V)) (now : Z).

Lemma set_then_get m now0 now url value params ttl0 :
  reachable config m → (1 <= maxSize config)%Z →
  (0 <= Js.numOr ttl0 (defaultTTL config))%Z →
  (now - now0 <= Js.numOr ttl0 (defaultTTL config))%Z →
  fst (get config now url params (set config now0 url value params ttl0 m))
  = Some value.
Proof.
  intros Hreach Hmax Httl Hage.
  set (m1 := set config now0 url value params ttl0 m).
  assert (Hm1 : reachable config m1) by (by apply reach_set).
  pose proof (reachable_wf config m1 Hm1) as Hwf1.
  pose proof (reachable_bounded config m1 ltac:(lia) Hm1) as Hlen1.
  rewrite get_bounded by (done || lia).
  rewrite (JsMap_get_In _ {| data := value; timestamp := now0;
                             ttl := Js.numOr ttl0 (defaultTTL config) |}); [|done|].
  - unfold isExpired. cbn [timestamp ttl data].
    replace (now - now0 >? _)%Z with false; [done|].
    symmetry. rewrite Z.gtb_ltb. apply Z.ltb_ge. lia.
  - apply set_keeps_entry; [by apply (reachable_wf config)|done| |done].
    apply reachable_bounded; [lia|done].
Qed.
End CacheRoundTrip.

Section ClientCache.
Import ErrorHandler CachedApiClient.
Context {V : Type} {toBoolean : Js.Truthy V}.

Lemma string_prefix_app (p s t : string) :
  String.prefix p s = true → String.prefix p (s ++ t)%string = true.
Proof.
  revert s. induction p as [|a p IH]; intros s; [by destruct s, t|].
  destruct s as [|b s]; [done|]. cbn [String.prefix].
  change (String b s ++ t)%string with (String b (s ++ t)%string). cbn [String.prefix].
  destruct (ascii_dec a b); [apply IH | done].
Qed.

Lemma includes_app (p s t : string) :
  Cache.includes p s = true → Cache.includes p (s ++ t)%string = true.
Proof.
  induction s as [|b s IH]; cbn [Cache.includes].
  - rewrite orb_false_r. intros Hp. destruct p; [|done].
    destruct t; reflexivity.
  - change (String b s ++ t)%string with (String b (s ++ t)%string). cbn [Cache.includes].
    intros H. apply orb_true_iff in H as [H|H]; apply orb_true_iff.
    + left. by apply (string_prefix_app p (String b s) t) in H.
    + right. by apply IH.
Qed.

Lemma getLookup_fst now url config (c : Client V) :
  fst (getLookup now url config c)
  = if default true (useCache config)
    then match fst (Cache.get apiCache now (Js.optStrOr (cacheKey config) url)
                              (params config) (cache c)) with
         | Some v => if Js.truthy v then Some v else None
         | None => None
         end
    else None.
Proof.
  unfold getLookup. destruct (default true (useCache config)); [|done].
  destruct (Cache.get _ _ _ _ _) as [[v|] cache']; cbn [fst]; [|done].
  destruct (Js.truthy v); [|done].
  by destruct (default false (staleWhileRevalidate config)).
Qed.

Lemma getLookup_cache now url config (c : Client V) :
  Cache.reachable apiCache (cache c) →
  Cache.reachable apiCache (cache (snd (getLookup now url config c))).
Proof.
  intros Hreach. unfold getLookup. destruct (default true (useCache config)); [|done].
  pose proof (Cache.reach_get apiCache now (Js.optStrOr (cacheKey config) url)
                (params config) (cache c) Hreach) as Hget.
  destruct (Cache.get _ _ _ _ _) as [[v|] cache']; cbn [snd] in *; [|done].
  destruct (Js.truthy v); [|done].
  destruct (default false (staleWhileRevalidate config)); cbn [snd]; [|done].
  unfold refreshInBackground. by destruct (_ !! _).
Qed.

(** X8.  A [get] of the client that finds nothing to return in the
    cache and whose request succeeds returns the response and stores it.
    When the response body is truthy, a second [get] of the same url and
    configuration, made no later than the time-to-live after the response
    was stored, returns that response from the cache, whatever the
    transport would answer.  (A falsy body, such as an empty string, is
    stored as well but fails the [if (cached)] test of the second [get].) *)
Theorem X8_get_stores_then_serves (transport transport' : Z → TransportOutcome V)
    (random random' : Z → Q) url config (now nowDone now' nowDone' : Z)
    (c : Client V) (body : V) :
  Cache.reachable apiCache (cache c) →
  useCache config ≠ Some false →
  (0 <= Js.numOr (cacheTTL config) (Cache.defaultTTL apiCache))%Z →
  fst (getLookup now url config c) = None →
  settled (getFetch transport random url config) = inl body →
  Js.truthy body = true →
  (now' - nowDone <= Js.numOr (cacheTTL config) (Cache.defaultTTL apiCache))%Z →
  let first := get now nowDone transport random url config c in
  fst first = inl body
  ∧ fst (get now' nowDone' transport' random' url config (snd first)) = inl body.
Proof.
  intros Hreach Huse Httl Hmiss Hfetch Htruthy Hage first.
  assert (Euse : default true (useCache config) = true).
  { destruct (useCache config) as [[|]|]; done. }
  pose proof (getLookup_cache now url config c Hreach) as Hreach1.
  unfold first, get.
  destruct (getLookup now url config c) as [[v|] c1] eqn:El; [done|].
  cbn [snd] in Hreach1. rewrite Hfetch. cbn [fst snd]. split; [done|].
  assert (Hhit : fst (getLookup now' url config (getStore nowDone url config body c1))
                 = Some body).
  { rewrite getLookup_fst, Euse. unfold getStore. rewrite Euse. cbn [cache].
    rewrite set_then_get; [by rewrite Htruthy|done| vm_compute; discriminate |done|done]. }
  destruct (getLookup now' url config (getStore nowDone url config body c1))
    as [[v|] c2]; cbn [fst] in Hhit; [|done].
  by injection Hhit as ->.
Qed.

(** X9.  After a [post], [put] or [delete] of the client has succeeded
    for a url whose second [/]-separated piece is [seg], a [get] finds no
    cached entry for any request whose url (or [cacheKey]) contains [seg],
    and finds what it found before for every key that does not contain
    [seg]; when the write fails the client, its cache included, is left as
    it was. *)
Theorem X9_write_invalidates_endpoint (method : Method)
    (transport : Z → TransportOutcome V) (random : Z → Q) url config
    (c : Client V) (seg : string) :
  Cache.reachable apiCache (cache c) →
  baseEndpoint url = Some seg →
  let r := write method transport random url config c in
  (∀ body, fst r = inl body →
     ∀ now url' config',
       (Cache.includes seg (Js.optStrOr (cacheKey config') url') = true →
          fst (getLookup now url' config' (snd r)) = None)
       ∧ (Cache.includes seg
            (Cache.generateKey (Js.optStrOr (cacheKey config') url') (params config'))
          = false →
          fst (getLookup now url' config' (snd r))
          = fst (getLookup now url' config' c)))
  ∧ (∀ thrown, fst r = inr thrown → snd r = c).
Proof.
  intros Hreach Hseg r. unfold r, write.
  destruct (settled (writeFetch method transport random url config)) as [result|thrown];
    cbn [fst snd]; split; try done.
  intros body _ now url' config'. rewrite !getLookup_fst.
  unfold invalidateRelatedCache. rewrite Hseg. cbn [cache default].
  destruct (get_after_invalidatePattern apiCache (cache c) now seg
              (Js.optStrOr (cacheKey config') url') (params config') Hreach
              ltac:(vm_compute; discriminate)) as (Hin & Hout).
  destruct (default true (useCache config')); [|done].
  change (id seg) with seg.
  split; [|intros Hno; by rewrite (Hout Hno)].
  intros Hinc. rewrite Hin; [done|]. unfold Cache.generateKey. by apply includes_app.
Qed.
End ClientCache.

Section RefreshCycle.
Import ErrorHandler CachedApiClient.
Context {V : Type} {toBoolean : Js.Truthy V}.

Lemma find_new_chain (l : list (Refresh)) (r : Refresh) id :
  r_id r = id →
  (∀ r', In r' l → (r_id r' < id)%nat) →
  List.find (fun x => (r_id x =? id)%nat) (l ++ [r]) = Some r.
Proof.
  intros <- Hlt. induction l as [|x l IH]; simpl.
  - by rewrite Nat.eqb_refl.
  - destruct (Nat.eqb_spec (r_id x) (r_id r)) as [E|_].
    + specialize (Hlt x (or_introl eq_refl)). lia.
    + apply IH. intros r' Hr'. apply Hlt. by right.
Qed.

Lemma setPhase_new (l : list (Refresh)) (r : Refresh) id ph :
  r_id r = id →
  (∀ r', In r' l → (r_id r' < id)%nat) →
  setPhase id ph (l ++ [r])
  = l ++ [{| r_id := r_id r; r_key := r_key r; r_params := r_params r;
             r_ttl := r_ttl r; r_phase := ph |}].
Proof.
  intros <- Hlt. unfold setPhase. rewrite map_app. cbn [map]. rewrite Nat.eqb_refl.
  f_equal. rewrite <- (map_id l) at 2. apply map_ext_in. intros x Hx.
  destruct (Nat.eqb_spec (r_id x) (r_id r)) as [E|_]; [|done].
  specialize (Hlt x Hx). lia.
Qed.

(** X10.  A [get] under stale-while-revalidate that returns a cached
    value (one that is there, fresh and truthy) while no refresh is in
    flight for the key registers one refresh.  When that refresh responds
    with a truthy body and its [finally] callback has run, the key is no
    longer registered and a [get] made within the time-to-live of the
    refreshed entry returns the new body; when the refresh fails the cache
    is left as it was and the key is released all the same. *)
Theorem X10_stale_while_revalidate_cycle url config (c : Client V)
    (now now1 now2 : Z) (v0 v1 : V) :
  refreshInvariant c →
  Cache.reachable apiCache (cache c) →
  useCache config ≠ Some false →
  staleWhileRevalidate config = Some true →
  let key := Js.optStrOr (cacheKey config) url in
  let T := Js.numOr (cacheTTL config) (Cache.defaultTTL apiCache) in
  backgroundRefreshPromises c !! key = None →
  (0 <= T)%Z →
  fst (getLookup now url config c) = Some v0 →
  Js.truthy v1 = true →
  (now2 - now1 <= T)%Z →
  let c1 := snd (getLookup now url config c) in
  let id := nextPromise c in
  backgroundRefreshPromises c1 !! key = Some id
  ∧ (∃ c2 c3,
       refreshSettled id (Responded v1) now1 c1 = Some c2
       ∧ refreshFinally id c2 = Some c3
       ∧ backgroundRefreshPromises c3 !! key = None
       ∧ fst (getLookup now2 url config c3) = Some v1)
  ∧ (∀ e, ∃ c2 c3,
       refreshSettled id (Failed e) now1 c1 = Some c2
       ∧ refreshFinally id c2 = Some c3
       ∧ backgroundRefreshPromises c3 !! key = None
       ∧ cache c3 = cache c1).
Proof.
  intros Hinv Hreach Huse Hswr key T Hfree HT Hhit Htruthy Hage c1 id.
  assert (Euse : default true (useCache config) = true).
  { destruct (useCache config) as [[|]|]; done. }
  destruct Hinv as (_ & _ & _ & _ & Hlt).
  pose proof (getLookup_cache now url config c Hreach) as Hreach1. fold c1 in Hreach1.
  set (new := {| r_id := id; r_key := key; r_params := params config;
                 r_ttl := cacheTTL config; r_phase := AwaitingResponse |}).
  assert (Ec1 : ∃ cache', c1 = {| cache := cache';
                 backgroundRefreshPromises := <[key := id]> (backgroundRefreshPromises c);
                 chains := chains c ++ [new]; nextPromise := S id |}).
  { unfold c1. unfold getLookup in *. rewrite Euse in *.
    destruct (Cache.get _ _ _ _ _) as [[v|] cache']; cbn [fst] in Hhit; [|done].
    destruct (Js.truthy v); [|done].
    rewrite Hswr. cbn [default snd]. unfold refreshInBackground.
    cbn [backgroundRefreshPromises cache chains nextPromise]. fold key. rewrite Hfree.
    by exists cache'. }
  destruct Ec1 as (cache' & Ec1).
  assert (Hold : ∀ r', In r' (chains c) → (r_id r' < id)%nat)
    by (intros r' Hr'; by apply Hlt).
  split; [rewrite Ec1; cbn [backgroundRefreshPromises]; by rewrite lookup_insert_eq|].
  assert (Hsettle : ∀ outcome, ∃ c2 c3,
    refreshSettled id outcome now1 c1 = Some c2
    ∧ refreshFinally id c2 = Some c3
    ∧ backgroundRefreshPromises c3 !! key = None
    ∧ cache c3 = match outcome with
                 | Responded body =>
                     Cache.set apiCache now1 key body (params config)
                               (cacheTTL config) (cache c1)
                 | Failed _ => cache c1
                 end).
  { intros outcome. unfold refreshSettled, findChain. rewrite Ec1.
    cbn [chains]. rewrite (find_new_chain (chains c) new id eq_refl Hold). cbn [r_phase new].
    eexists. eexists. split; [reflexivity|].
    unfold refreshFinally, findChain. cbn [chains].
    rewrite (setPhase_new (chains c) new id AwaitingFinally eq_refl Hold).
    set (new' := {| r_id := r_id new; r_key := r_key new; r_params := r_params new;
                    r_ttl := r_ttl new; r_phase := AwaitingFinally |}).
    rewrite (find_new_chain (chains c) new' id eq_refl Hold). cbn [r_phase new'].
    split; [reflexivity|]. cbn [backgroundRefreshPromises cache r_key new r_params r_ttl].
    split; [by rewrite lookup_delete_eq | done]. }
  split.
  - destruct (Hsettle (Responded v1)) as (c2 & c3 & H2 & H3 & Hb & Hc).
    exists c2, c3. split; [done|]. split; [done|]. split; [done|].
    rewrite getLookup_fst, Euse. fold key. rewrite Hc.
    rewrite set_then_get; [by rewrite Htruthy | done | vm_compute; discriminate | done | done].
  - intros e. destruct (Hsettle (Failed e)) as (c2 & c3 & H2 & H3 & Hb & Hc).
    by exists c2, c3.
Qed.
End RefreshCycle.

Section ValidationFacts.
Import FileValidation.

Lemma lowerChar_idem c : lowerChar (lowerChar c) = lowerChar c.
Proof. destruct c as [[] [] [] [] [] [] [] []]; reflexivity. Qed.

Lemma lowerChar_dot c : Ascii.eqb (lowerChar c) "."%char = Ascii.eqb c "."%char.
Proof. destruct c as [[] [] [] [] [] [] [] []]; reflexivity. Qed.

Lemma lowerChar_reserved c : reservedChar (lowerChar c) = reservedChar c.
Proof. destruct c as [[] [] [] [] [] [] [] []]; reflexivity. Qed.

Lemma toLowerCase_idem s : toLowerCase (toLowerCase s) = toLowerCase s.
Proof. induction s as [|c s IH]; simpl; [done|]. by rewrite lowerChar_idem, IH. Qed.

Lemma toLowerCase_app a b : toLowerCase (a ++ b) = (toLowerCase a ++ toLowerCase b)%string.
Proof.
  induction a as [|c a IH]; [done|].
  change (String c a ++ b)%string with (String c (a ++ b)%string).
  cbn [toLowerCase]. rewrite IH. done.
Qed.

Lemma lastSegment_lower s : ∀ acc,
  toLowerCase (lastSegment acc s) = lastSegment (toLowerCase acc) (toLowerCase s).
Proof.
  induction s as [|c s IH]; intros acc; cbn [lastSegment toLowerCase]; [done|].
  rewrite lowerChar_dot. destruct (Ascii.eqb c "."); [by rewrite IH|].
  rewrite IH, toLowerCase_app. done.
Qed.

Lemma hiddenName_lower n : hiddenName (toLowerCase n) = hiddenName n.
Proof.
  unfold hiddenName. destruct n as [|c n]; [done|].
  destruct n; destruct c as [[] [] [] [] [] [] [] []]; reflexivity.
Qed.

Lemma anyChar_lower n : anyChar reservedChar (toLowerCase n) = anyChar reservedChar n.
Proof. induction n as [|c n IH]; simpl; [done|]. by rewrite lowerChar_reserved, IH. Qed.

(** What [validateFile] reads of the name is a function of the name in
    lower case. *)
Lemma suspiciousName_lower n : suspiciousName (toLowerCase n) = suspiciousName n.
Proof.
  unfold suspiciousName, executableName.
  by rewrite toLowerCase_idem, hiddenName_lower, anyChar_lower.
Qed.

Lemma extension_lower f f' :
  toLowerCase (name f) = toLowerCase (name f') → extension f = extension f'.
Proof.
  intros E. unfold extension. f_equal.
  rewrite !lastSegment_lower. cbn [toLowerCase]. by rewrite E.
Qed.

(** X11.  [validateFile] reads the file name up to the case of its
    ASCII letters: for two files with the same size and type whose names
    differ only in letter case the same checks fail and the same warning is
    given, so both are valid or both are not.  (The texts of the errors,
    which the embedding keeps by kind, quote the name as it was given.) *)
Theorem X11_validateFile_ignores_letter_case (f f' : File) (cfg : FileValidationConfig) :
  toLowerCase (name f) = toLowerCase (name f') →
  size f = size f' → type f = type f' →
  validateFile f cfg = validateFile f' cfg.
Proof.
  intros En Es Et. unfold validateFile.
  rewrite (extension_lower f f' En), Es, Et.
  rewrite <- (suspiciousName_lower (name f)), En, suspiciousName_lower. done.
Qed.

Lemma sum_sizes_bound (files : list File) (limit : Z) : ∀ acc,
  Forall (fun f => (size f <= limit)%Z) files →
  (fold_left (fun sum f => (sum + size f)%Z) files acc
   <= acc + limit * Z.of_nat (length files))%Z.
Proof.
  induction files as [|f files IH]; intros acc Hall; cbn [fold_left length].
  - lia.
  - apply Forall_cons in Hall as [Hf Hall]. specialize (IH (acc + size f)%Z Hall). lia.
Qed.

Lemma In_when {A} (b : bool) (x y : A) : In y (when b x) → b = true ∧ y = x.
Proof. destruct b; simpl; [intros [<-|[]]; done | done]. Qed.

(** X12.  With a positive [maxFiles] and a non-negative [maxSize], the
    total-size error of [validateFiles] never comes alone: whenever it is
    reported, the too-many-files error is reported too or some file of the
    batch has the too-large error. *)
Theorem X12_total_size_error_never_alone (files : list File)
    (cfg : FileValidationConfig) (m : Z) :
  maxFiles cfg = Some m → (0 < m)%Z → (0 <= maxSize cfg)%Z →
  In TotalTooLarge (globalErrors (validateFiles files cfg)) →
  In TooManyFiles (globalErrors (validateFiles files cfg))
  ∨ ∃ f, In f files ∧ In TooLarge (errors (validateFile f cfg)).
Proof.
  intros Hm Hpos Hmax Hin. unfold validateFiles in *. cbn [globalErrors] in *.
  rewrite Hm in *. destruct m as [|m|m]; try lia.
  cbn [Js.numOr] in Hin.
  apply in_app_iff in Hin as [Hin|Hin]; [apply In_when in Hin as [_ [=]]|].
  apply in_app_iff in Hin as [Hin|Hin]; [apply In_when in Hin as [_ [=]]|].
  apply In_when in Hin as [Htot _]. apply Z.gtb_lt in Htot.
  destruct (Z.of_nat (length files) >? Z.pos m)%Z eqn:Ecount; [left; by left|].
  right. rewrite Z.gtb_ltb in Ecount. apply Z.ltb_ge in Ecount.
  destruct (decide (Forall (fun f => (size f <= maxSize cfg)%Z) files)) as [Hall|Hex].
  - pose proof (sum_sizes_bound files (maxSize cfg) 0 Hall). nia.
  - apply not_Forall_Exists in Hex; [|intros f; apply _].
    apply Exists_exists in Hex as (f & Hf & Hbig). apply list_elem_of_In in Hf.
    exists f. split; [done|].
    unfold validateFile. cbn [errors]. apply in_app_iff. left.
    replace (size f >? maxSize cfg)%Z with true; [by left|].
    symmetry. apply Z.gtb_lt. unfold compose in Hbig. lia.
Qed.
End ValidationFacts.

Section FileIds.
Import FileValidation FileUpload.

Lemma cutLast_num n : Json.allChars Json.isNumChar n = true → cutLast n = None.
Proof.
  induction n as [|c n IH]; cbn [Json.allChars cutLast]; [done|].
  intros H. apply andb_true_iff in H as [Hc Hn]. rewrite (IH Hn).
  destruct (Ascii.eqb_spec c "_") as [->|]; [|done]. discriminate Hc.
Qed.

Lemma cutLast_app a n :
  Json.allChars Json.isNumChar n = true →
  cutLast (a ++ String "_" n)%string = Some (a, n).
Proof.
  intros Hn. induction a as [|c a IH].
  - change (cutLast (String "_" n) = Some (EmptyString, n)). cbn [cutLast].
    by rewrite (cutLast_num n Hn).
  - change (cutLast (String c (a ++ String "_" n)%string) = Some (String c a, n)).
    cbn [cutLast]. by rewrite IH.
Qed.

Lemma id_text a x y :
  (a ++ "_" ++ Js.numToString x ++ "_" ++ Js.numToString y)%string
  = ((a ++ String "_" (Js.numToString x)) ++ String "_" (Js.numToString y))%string.
Proof. by rewrite string_app_assoc. Qed.

Lemma generateFileId_inj f f' :
  generateFileId f = generateFileId f' →
  name f = name f' ∧ size f = size f' ∧ lastModified f = lastModified f'.
Proof.
  unfold generateFileId. rewrite !id_text. intros E.
  apply (f_equal cutLast) in E.
  rewrite !cutLast_app in E by apply numToString_chars.
  injection E as E1 E2. apply (f_equal cutLast) in E1.
  rewrite !cutLast_app in E1 by apply numToString_chars.
  injection E1 as E0 E1.
  split; [done|]. split; by apply numToString_inj.
Qed.

(** X13.  Two files get the same id from [generateFileId] exactly when
    they have the same name, the same size and the same modification time;
    the type plays no part. *)
Theorem X13_generateFileId_identifies (f f' : File) :
  generateFileId f = generateFileId f'
  ↔ name f = name f' ∧ size f = size f' ∧ lastModified f = lastModified f'.
Proof.
  split; [apply generateFileId_inj|].
  intros (En & Es & El). unfold generateFileId. by rewrite En, Es, El.
Qed.

Lemma includes_In x l : includes x l = true ↔ In x l.
Proof.
  unfold includes. rewrite existsb_exists. split.
  - intros (y & Hy & E). apply String.eqb_eq in E. by subst.
  - intros H. exists x. split; [done | apply String.eqb_refl].
Qed.

Lemma hasDuplicates_NoDup l : hasDuplicates l = false → NoDup l.
Proof.
  induction l as [|x l IH]; cbn [hasDuplicates]; [constructor|].
  intros H. apply orb_false_iff in H as [Hx Hl]. apply NoDup_cons. split; [|by apply IH].
  intros Hin. apply list_elem_of_In, includes_In in Hin. congruence.
Qed.

Lemma NoDup_map_compat {A B C} (f : A → B) (g : A → C) (l : list A) :
  (∀ x y, g x = g y → f x = f y) → NoDup (map f l) → NoDup (map g l).
Proof.
  intros Hfg. induction l as [|x l IH]; cbn [map]; [constructor|].
  intros H. apply NoDup_cons in H as [Hx Hl]. apply NoDup_cons. split; [|by apply IH].
  intros Hin. apply Hx. apply list_elem_of_In in Hin. apply list_elem_of_In.
  apply in_map_iff in Hin as (y & E & Hy). apply in_map_iff. exists y.
  split; [|done]. by apply Hfg.
Qed.

Lemma fold_set_new {A} (key : File → string) (val : File → A) (files : list File) :
  ∀ m, NoDup (JsMap.keys m ++ map key files) →
  fold_left (fun m file => JsMap.set (key file) (val file) m) files m
  = m ++ map (fun file => (key file, val file)) files.
Proof.
  induction files as [|f files IH]; intros m Hnd; cbn [fold_left map].
  - by rewrite app_nil_r.
  - assert (Hnew : ¬ In (key f) (JsMap.keys m)).
    { intros Hin. apply NoDup_app in Hnd as (_ & Hdisj & _).
      apply (Hdisj (key f)); [by apply list_elem_of_In | left]. }
    rewrite JsMap_set_new by done. rewrite IH.
    + by rewrite <- app_assoc.
    + unfold JsMap.keys. rewrite map_app. cbn [map fst]. rewrite <- app_assoc. exact Hnd.
Qed.

Lemma batchValid_ids cfg files :
  batchValid (validateFiles files cfg) = true → NoDup (map generateFileId files).
Proof.
  unfold validateFiles. cbn [batchValid]. intros H.
  apply andb_true_iff in H as [Hg _]. apply Nat.eqb_eq in Hg.
  rewrite !length_app in Hg.
  destruct (hasDuplicates (map (fun f => toLowerCase (name f)) files)) eqn:Ed.
  { cbn [when length] in Hg. lia. }
  apply hasDuplicates_NoDup in Ed.
  apply (NoDup_map_compat (fun f => toLowerCase (name f)) generateFileId); [|done].
  intros x y E. apply generateFileId_inj in E as (-> & _). done.
Qed.

Lemma countStatus_all s h :
  Forall (fun kv => status (snd kv) = s) (uploadProgress h) →
  countStatus s h = length (uploadProgress h).
Proof.
  unfold countStatus. induction 1 as [|kv m Hkv Hm IH]; cbn [List.filter length]; [done|].
  rewrite Hkv. replace (statusEqb s s) with true by (by destruct s).
  cbn [length]. by rewrite IH.
Qed.

(** X14.  When a selected batch of files with names in ASCII passes
    validation, [selectFiles] creates one task per file: the ids of the
    files are pairwise distinct, the progress map holds them in the order
    of the files, every task is ['pending'] with progress 0, and the
    statistics count as many tasks, all pending, as there are files.  (The
    names are in ASCII so that the duplicate-name test of [validateFiles],
    which compares lower-cased names, is the one the source makes.) *)
Theorem X14_valid_batch_one_task_per_file (cfg : FileValidationConfig)
    (files : list File) (h : Hook) :
  Forall (fun f => isAscii (name f) = true) files →
  batchValid (validateFiles files cfg) = true →
  let h1 := selectFiles cfg files h in
  NoDup (map generateFileId files)
  ∧ JsMap.keys (uploadProgress h1) = map generateFileId files
  ∧ Forall (fun kv => status (snd kv) = pending ∧ progress (snd kv) = 0%Z)
           (uploadProgress h1)
  ∧ st_total (getUploadStats h1) = length files
  ∧ st_pending (getUploadStats h1) = length files.
Proof.
  intros _ Hv h1. pose proof (batchValid_ids cfg files Hv) as Hnd.
  assert (Hmap : ∃ val : File → UploadProgress,
            (∀ f, status (val f) = pending ∧ progress (val f) = 0%Z)
            ∧ uploadProgress h1 = map (fun f => (generateFileId f, val f)) files).
  { unfold h1, selectFiles. cbn [uploadProgress withSelection]. rewrite Hv.
    eexists (fun file => {| fileId := generateFileId file; fileName := name file;
                            progress := 0; uploaded := 0; total := size file;
                            speed := 0; status := pending; errorText := _ |}).
    split; [done|].
    rewrite (fold_set_new generateFileId _ files []); [done | exact Hnd]. }
  destruct Hmap as (val & Hval & Hmap).
  assert (Hlen : length (uploadProgress h1) = length files)
    by (by rewrite Hmap, length_map).
  assert (Hall : Forall (fun kv => status (snd kv) = pending ∧ progress (snd kv) = 0%Z)
                        (uploadProgress h1)).
  { rewrite Hmap. apply Forall_forall. intros kv Hkv. apply list_elem_of_In in Hkv.
    apply in_map_iff in Hkv as (f & <- & _). apply Hval. }
  split; [done|]. split; [|split; [done|split]].
  - rewrite Hmap. unfold JsMap.keys. rewrite map_map. done.
  - done.
  - cbn [getUploadStats st_pending]. rewrite countStatus_all; [done|].
    eapply Forall_impl; [exact Hall|]. by intros kv [? _].
Qed.
End FileIds.

Section UploadControl.
Import FileValidation FileUpload.

Lemma statusOf_fold_cancel (l : list (string * UploadProgress)) : ∀ acc id,
  statusOf id
    (fold_left
       (fun acc kv =>
          match status (snd kv) with
          | uploading | pending => updateProgress (fst kv) cancelledUpdate acc
          | _ => acc
          end) l acc)
  = if existsb (fun kv => String.eqb (fst kv) id && negb (isTerminal (status (snd kv)))) l
    then (fun _ => cancelled) <$> statusOf id acc
    else statusOf id acc.
Proof.
  induction l as [|[k p] l IH]; intros acc id; cbn [fold_left existsb fst snd]; [done|].
  rewrite IH.
  destruct (status p) eqn:Es; cbn [isTerminal negb];
    rewrite ?andb_false_r, ?andb_true_r; cbn [orb]; try done;
    rewrite statusOf_updateProgress; cbn [u_status cancelledUpdate default];
    destruct (String.eqb k id); cbn [orb]; try done;
    destruct (existsb _ l); destruct (statusOf id acc); done.
Qed.

Lemma existsb_entry (m : list (string * UploadProgress)) id :
  JsMap.wf m →
  existsb (fun kv => String.eqb (fst kv) id && negb (isTerminal (status (snd kv)))) m
  = match JsMap.get id m with
    | Some p => negb (isTerminal (status p))
    | None => false
    end.
Proof.
  unfold JsMap.wf, JsMap.keys. induction m as [|[k p] m IH]; cbn [existsb JsMap.get fst snd map]; [done|].
  intros Hnd. apply NoDup_cons in Hnd as [Hk Hnd]. rewrite (String.eqb_sym k id).
  destruct (String.eqb_spec id k) as [->|Hne]; cbn [andb orb]; [|by apply IH].
  destruct (negb (isTerminal (status p))); [done|]. cbn [orb]. rewrite IH by done.
  replace (JsMap.get k m) with (@None UploadProgress); [done|].
  symmetry. apply JsMap_get_None. intros Hin. apply Hk. by apply list_elem_of_In.
Qed.

Lemma abort_keeps ctl c ab : In c ab → In c (abort ctl ab).
Proof. unfold abort. destruct (existsb _ ab); [done|]. intros H. apply in_app_iff. by left. Qed.

Lemma abort_adds ctl ab : In ctl (abort ctl ab).
Proof.
  unfold abort. destruct (existsb (Nat.eqb ctl) ab) eqn:E.
  - apply existsb_exists in E as (x & Hx & E). apply Nat.eqb_eq in E. by subst.
  - apply in_app_iff. right. by left.
Qed.

Lemma abort_all (l : list (string * nat)) : ∀ ab id ctl,
  (In (id, ctl) l ∨ In ctl ab) →
  In ctl (fold_left (fun acc kv => abort (snd kv) acc) l ab).
Proof.
  induction l as [|[k c] l IH]; intros ab id ctl H; cbn [fold_left snd].
  - destruct H as [[]|H]; done.
  - apply (IH _ id). destruct H as [[E|H]|H].
    + injection E as -> ->. right. apply abort_adds.
    + by left.
    + right. by apply abort_keeps.
Qed.

Lemma isTerminal_forall (m : list (string * UploadProgress)) :
  (∀ kv, In kv m → isTerminal (status (snd kv)) = true) →
  forallb (fun kv => isTerminal (status (snd kv))) m = true.
Proof. intros H. by apply forallb_forall. Qed.

Lemma uploadProgress_fold_cancel (l : list (string * UploadProgress)) : ∀ acc,
  JsMap.keys
    (uploadProgress
       (fold_left
          (fun acc kv =>
             match status (snd kv) with
             | uploading | pending => updateProgress (fst kv) cancelledUpdate acc
             | _ => acc
             end) l acc))
  = JsMap.keys (uploadProgress acc)
  ∧ uploadQueue (fold_left
          (fun acc kv =>
             match status (snd kv) with
             | uploading | pending => updateProgress (fst kv) cancelledUpdate acc
             | _ => acc
             end) l acc) = uploadQueue acc
  ∧ activeUploads (fold_left
          (fun acc kv =>
             match status (snd kv) with
             | uploading | pending => updateProgress (fst kv) cancelledUpdate acc
             | _ => acc
             end) l acc) = activeUploads acc
  ∧ abortControllers (fold_left
          (fun acc kv =>
             match status (snd kv) with
             | uploading | pending => updateProgress (fst kv) cancelledUpdate acc
             | _ => acc
             end) l acc) = abortControllers acc
  ∧ aborted (fold_left
          (fun acc kv =>
             match status (snd kv) with
             | uploading | pending => updateProgress (fst kv) cancelledUpdate acc
             | _ => acc
             end) l acc) = aborted acc.
Proof.
  induction l as [|[k p] l IH]; intros acc; cbn [fold_left fst snd]; [done|].
  assert (Hup : ∀ upd,
    JsMap.keys (uploadProgress (updateProgress k upd acc)) = JsMap.keys (uploadProgress acc)
    ∧ uploadQueue (updateProgress k upd acc) = uploadQueue acc
    ∧ activeUploads (updateProgress k upd acc) = activeUploads acc
    ∧ abortControllers (updateProgress k upd acc) = abortControllers acc
    ∧ aborted (updateProgress k upd acc) = aborted acc).
  { intros upd. unfold updateProgress.
    destruct (JsMap.get k (uploadProgress acc)) as [cur|] eqn:E; [|done].
    cbn [uploadProgress withProgress uploadQueue activeUploads abortControllers aborted].
    split; [|done]. apply JsMap_keys_set_old. apply JsMap_get_Some_In in E.
    unfold JsMap.keys. apply in_map_iff. by exists (k, cur). }
  destruct (status p);
    destruct (IH acc) as (I1 & I2 & I3 & I4 & I5);
    destruct (IH (updateProgress k cancelledUpdate acc)) as (J1 & J2 & J3 & J4 & J5);
    destruct (Hup cancelledUpdate) as (U1 & U2 & U3 & U4 & U5);
    rewrite ?I1, ?I2, ?I3, ?I4, ?I5, ?J1, ?J2, ?J3, ?J4, ?J5; done.
Qed.

(** X15.  [cancelAllUploads] turns every ['pending'] and ['uploading']
    task into ['cancelled'] and leaves the status of the finished tasks
    (['completed'], ['error'], ['cancelled']) as it is; it empties the
    queue, the set of active uploads and the map of controllers, aborts
    every controller the map held, and afterwards no task is uploading and
    [isCompleted] is true. *)
Theorem X15_cancelAllUploads_spares_finished (h : Hook) :
  JsMap.wf (uploadProgress h) →
  let h' := cancelAllUploads h in
  (∀ id, statusOf id h'
         = (fun s => if isTerminal s then s else cancelled) <$> statusOf id h)
  ∧ uploadQueue h' = []
  ∧ activeUploads h' = []
  ∧ abortControllers h' = []
  ∧ (∀ id ctl, In (id, ctl) (abortControllers h) → In ctl (aborted h'))
  ∧ isUploading h' = false
  ∧ isCompleted h' = true.
Proof.
  intros Hwf h'.
  assert (Hst : ∀ id, statusOf id h'
            = (fun s => if isTerminal s then s else cancelled) <$> statusOf id h).
  { intros id. unfold h', cancelAllUploads. rewrite statusOf_fold_cancel.
    rewrite existsb_entry by done. unfold statusOf. cbn [uploadProgress withActive withQueue withControllers].
    destruct (JsMap.get id (uploadProgress h)) as [p|]; [|done]. cbn.
    by destruct (isTerminal (status p)). }
  destruct (uploadProgress_fold_cancel (uploadProgress h)
              (withActive [] (withQueue []
                 (withControllers []
                    (fold_left (fun acc kv => abort (snd kv) acc) (abortControllers h)
                               (aborted h)) h))))
    as (Hk & Hq & Ha & Hc & Hab).
  fold (cancelAllUploads h) in Hk, Hq, Ha, Hc, Hab. fold h' in Hk, Hq, Ha, Hc, Hab.
  assert (Hterm : ∀ kv, In kv (uploadProgress h') → isTerminal (status (snd kv)) = true).
  { intros [k p] Hin. cbn [snd].
    assert (Hwf' : JsMap.wf (uploadProgress h')) by (unfold JsMap.wf; by rewrite Hk).
    pose proof (Hst k) as Hs. unfold statusOf in Hs.
    rewrite (JsMap_get_In k p _ Hwf' Hin) in Hs. cbn in Hs.
    destruct (JsMap.get k (uploadProgress h)) as [p0|]; [|done]. cbn in Hs.
    injection Hs as ->. by destruct (isTerminal (status p0)) eqn:E. }
  split; [exact Hst|]. split; [done|]. split; [done|]. split; [done|]. split; [|split].
  - intros id ctl Hin. rewrite Hab. cbn [aborted withActive withQueue withControllers].
    apply (abort_all _ _ id). by left.
  - unfold isUploading. apply not_true_is_false. intros Hex.
    apply existsb_exists in Hex as (kv & Hin & Hs). specialize (Hterm kv Hin).
    by destruct (status (snd kv)).
  - by apply isTerminal_forall.
Qed.

(** X16.  [getUploadStats] counts every task once: the five counts by
    status add up to the total.  [isCompleted] is true exactly when no task
    is pending or uploading (in particular when there is no task), and
    [isUploading] exactly when the count of uploading tasks is not zero. *)
Theorem X16_upload_stats_partition (h : Hook) :
  let s := getUploadStats h in
  st_total s = (st_pending s + st_uploading s + st_completed s + st_error s
                + st_cancelled s)%nat
  ∧ (isCompleted h = true ↔ st_pending s = 0%nat ∧ st_uploading s = 0%nat)
  ∧ (isUploading h = true ↔ st_uploading s ≠ 0%nat).
Proof.
  cbv zeta. unfold getUploadStats, isCompleted, isUploading, countStatus.
  cbn [st_total st_pending st_uploading st_completed st_error st_cancelled].
  induction (uploadProgress h) as [|[k p] m (IH1 & IH2 & IH3)];
    cbn [List.filter length forallb existsb snd]; [split; [done|split; split; try done; lia]|].
  destruct (status p); cbn [statusEqb isTerminal length andb orb];
    (split; [lia|]); split; split; try done; try lia; try tauto; intros H; try apply IH2; try apply IH3; try tauto.
Qed.

Lemma total_progress_bounds (m : list (string * UploadProgress)) : ∀ acc,
  Forall (fun kv => (0 <= progress (snd kv) <= 100)%Z) m →
  (acc <= fold_left (fun sum kv => sum + progress (snd kv)) m acc
       <= acc + 100 * Z.of_nat (length m))%Z.
Proof.
  induction m as [|kv m IH]; intros acc Hall; cbn [fold_left length]; [lia|].
  apply Forall_cons in Hall as [Hkv Hall]. specialize (IH (acc + progress (snd kv))%Z Hall).
  lia.
Qed.

Lemma total_progress_all (m : list (string * UploadProgress)) (v : Z) : ∀ acc,
  Forall (fun kv => progress (snd kv) = v) m →
  fold_left (fun sum kv => sum + progress (snd kv))%Z m acc
  = (acc + v * Z.of_nat (length m))%Z.
Proof.
  induction m as [|kv m IH]; intros acc Hall; cbn [fold_left length]; [lia|].
  apply Forall_cons in Hall as [Hkv Hall]. rewrite (IH _ Hall), Hkv. lia.
Qed.

(** X17.  When every task has a progress between 0 and 100,
    [getOverallProgress] is between 0 and 100; it is 0 when there is no
    task and 100 when every task is at 100. *)
Theorem X17_overall_progress_range (h : Hook) :
  Forall (fun kv => (0 <= progress (snd kv) <= 100)%Z) (uploadProgress h) →
  (0 <= getOverallProgress h <= 100)%Z
  ∧ (uploadProgress h = [] → getOverallProgress h = 0%Z)
  ∧ (uploadProgress h ≠ [] →
     Forall (fun kv => progress (snd kv) = 100%Z) (uploadProgress h) →
     getOverallProgress h = 100%Z).
Proof.
  intros Hall. unfold getOverallProgress.
  destruct (uploadProgress h) as [|kv m] eqn:Em; [split; [lia|]; split; done|].
  set (l := kv :: m) in *. unfold JsMap.size.
  assert (Hn : (0 < Z.of_nat (length l))%Z) by (unfold l; cbn [length]; lia).
  pose proof (total_progress_bounds l 0 Hall) as Hb.
  set (tot := fold_left _ l 0%Z) in *.
  split; [|split; [done|]].
  - split.
    + apply Z.div_pos; lia.
    + apply Z.lt_succ_r. apply Z.div_lt_upper_bound; lia.
  - intros _ H100. unfold tot. rewrite (total_progress_all l 100 0 H100).
    symmetry. apply (Z.div_unique _ _ 100 (Z.of_nat (length l))); lia.
Qed.
End UploadControl.

Section UploadSettle.
Import FileValidation FileUpload.

Lemma JsSet_has_delete x s : JsSet.has x (JsSet.delete x s) = false.
Proof.
  unfold JsSet.has, JsSet.delete. apply not_true_is_false. intros H.
  apply existsb_exists in H as (y & Hy & E). apply filter_In in Hy as [_ Hy].
  by rewrite E in Hy.
Qed.

Lemma uploadProgress_get_update id id' upd h :
  id' ≠ id →
  JsMap.get id' (uploadProgress (updateProgress id upd h))
  = JsMap.get id' (uploadProgress h).
Proof.
  intros Hne. unfold updateProgress.
  destruct (JsMap.get id (uploadProgress h)) as [cur|]; [|done].
  cbn [uploadProgress withProgress]. by apply JsMap_get_set_ne.
Qed.

(** What the settlement of the call that owns [ctl] leaves. *)
Lemma settle_spec ctl outcome h u :
  List.find (fun u => Nat.eqb (up_ctl u) ctl) (suspended h) = Some u →
  let id := generateFileId (up_file u) in
  let res := toResult id (snd (settleUpdate (up_file u) outcome)) in
  ∃ h', uploadSingleFileSettle ctl outcome h = Some h'
    ∧ uploadProgress h'
      = uploadProgress (updateProgress id (fst (settleUpdate (up_file u) outcome)) h)
    ∧ selectedFiles h' = selectedFiles h
    ∧ validationResults h' = validationResults h
    ∧ activeUploads h' = JsSet.delete id (activeUploads h)
    ∧ abortControllers h' = JsMap.delete id (abortControllers h)
    ∧ suspended h'
      = List.filter (fun u' => negb (Nat.eqb (up_ctl u') ctl)) (suspended h)
    ∧ batches h' = fst (noteResult ctl res (batches h))
    ∧ reports h' = reports h ++ snd (noteResult ctl res (batches h))
    ∧ success res = reportedSuccess outcome.
Proof.
  intros Hfind id res. unfold uploadSingleFileSettle. rewrite Hfind.
  fold id. destruct (settleUpdate (up_file u) outcome) as [upd r] eqn:Es.
  assert (Hfields : ∀ x, batches (updateProgress id upd x) = batches x
                         ∧ reports (updateProgress id upd x) = reports x
                         ∧ suspended (updateProgress id upd x) = suspended x
                         ∧ activeUploads (updateProgress id upd x) = activeUploads x
                         ∧ abortControllers (updateProgress id upd x) = abortControllers x
                         ∧ selectedFiles (updateProgress id upd x) = selectedFiles x
                         ∧ validationResults (updateProgress id upd x) = validationResults x).
  { intros x. unfold updateProgress. by destruct (JsMap.get id (uploadProgress x)). }
  destruct (Hfields h) as (Hb & Hr & Hs & Ha & Hc & Hsel & Hval).
  cbn [batches withSuspended withActive withControllers reports suspended
       activeUploads abortControllers nextController].
  rewrite Hb, Hr, Hs, Ha, Hc.
  unfold res. cbn [snd fst].
  destruct (noteResult ctl (toResult id r) (batches h)) as [bs out] eqn:En.
  eexists. split; [reflexivity|].
  cbn [uploadProgress withBatches withSuspended withActive withControllers selectedFiles
       validationResults activeUploads abortControllers suspended batches reports fst snd].
  rewrite Hsel, Hval.
  repeat (split; [reflexivity|]).
  unfold settleUpdate in Es. destruct outcome; injection Es as <- <-; reflexivity.
Qed.

(** X18.  When the [fetch] of a suspended upload settles, the rest of
    [uploadSingleFile] runs to its end: the task of that file becomes
    ['completed'], ['cancelled'] (aborted) or ['error'] according to the
    outcome, the entry of every other task is left as it was, the selection
    is unchanged, the file id leaves the set of active uploads and the call
    is no longer suspended. *)
Theorem X18_settle_touches_one_task (ctl : nat) (outcome : FetchOutcome) (h : Hook)
    (u : Upload) :
  List.find (fun u => Nat.eqb (up_ctl u) ctl) (suspended h) = Some u →
  let id := generateFileId (up_file u) in
  ∃ h', uploadSingleFileSettle ctl outcome h = Some h'
    ∧ statusOf id h'
      = (fun _ => match outcome with
                  | FetchOk _ => completed
                  | FetchAborted => cancelled
                  | _ => error
                  end) <$> statusOf id h
    ∧ (∀ id', id' ≠ id →
         JsMap.get id' (uploadProgress h') = JsMap.get id' (uploadProgress h))
    ∧ selectedFiles h' = selectedFiles h
    ∧ JsSet.has id (activeUploads h') = false
    ∧ ¬ In ctl (map up_ctl (suspended h')).
Proof.
  intros Hfind id.
  destruct (settle_spec ctl outcome h u Hfind)
    as (h' & Hset & Hup & Hsel & _ & Hact & _ & Hsus & _).
  fold id in Hup, Hact. exists h'. split; [done|]. split; [|split; [|split; [|split]]].
  - unfold statusOf at 1. rewrite Hup. fold (statusOf id (updateProgress id
      (fst (settleUpdate (up_file u) outcome)) h)).
    rewrite statusOf_updateProgress, String.eqb_refl.
    destruct (statusOf id h); [|done]. by destruct outcome.
  - intros id' Hne. rewrite Hup. by apply uploadProgress_get_update.
  - done.
  - rewrite Hact. apply JsSet_has_delete.
  - rewrite Hsus. intros Hin. apply in_map_iff in Hin as (u' & E & Hin).
    apply filter_In in Hin as [_ Hin]. by rewrite E, Nat.eqb_refl in Hin.
Qed.

Lemma find_suspended ctl (l : list Upload) :
  In ctl (map up_ctl l) → ∃ u, List.find (fun u => Nat.eqb (up_ctl u) ctl) l = Some u.
Proof.
  induction l as [|x l IH]; cbn [map In List.find]; [done|].
  intros [E|Hin].
  - rewrite E, Nat.eqb_refl. eauto.
  - destruct (Nat.eqb (up_ctl x) ctl); eauto.
Qed.

Lemma noteResult_single ctl res (b : Batch) :
  In ctl (awaiting b) →
  noteResult ctl res [b]
  = match List.filter (fun c => negb (Nat.eqb ctl c)) (awaiting b) with
    | [] => ([], [collected b ++ [res]])
    | remaining =>
        ([{| awaiting := remaining; collected := collected b ++ [res] |}], [])
    end.
Proof.
  intros Hin. cbn [noteResult].
  replace (existsb (Nat.eqb ctl) (awaiting b)) with true.
  - by destruct (List.filter _ (awaiting b)).
  - symmetry. apply existsb_exists. exists ctl. split; [done | apply Nat.eqb_refl].
Qed.

Lemma awaiting_left ctl (rest aw : list nat) :
  NoDup aw → ctl :: rest ≡ₚ aw →
  List.filter (fun c => negb (Nat.eqb ctl c)) aw ≡ₚ rest
  ∧ NoDup (List.filter (fun c => negb (Nat.eqb ctl c)) aw).
Proof.
  intros Hnd Hp. split.
  - assert (Hnd' : NoDup (ctl :: rest)) by (by rewrite Hp).
    apply NoDup_cons in Hnd' as [Hctl _].
    assert (E : List.filter (fun c => negb (Nat.eqb ctl c)) (ctl :: rest) = rest).
    { cbn [List.filter]. rewrite Nat.eqb_refl. cbn [negb].
      apply forallb_filter_id, forallb_forall. intros c Hc.
      destruct (Nat.eqb_spec ctl c) as [->|]; [|done].
      exfalso. apply Hctl. by apply list_elem_of_In. }
    rewrite <- E.
    assert (Hgen : ∀ (f : nat → bool) (l1 l2 : list nat),
              l1 ≡ₚ l2 → List.filter f l1 ≡ₚ List.filter f l2).
    { intros f l1 l2 H. induction H as [|x l1 l2 H IH|x y l|l1 l2 l3 H1 IH1 H2 IH2];
        cbn [List.filter].
      - done.
      - destruct (f x); [by constructor | done].
      - destruct (f x), (f y); try done. constructor.
      - by etrans. }
    symmetry. by apply Hgen.
  - clear Hp. induction Hnd as [|x l Hx Hl IH]; cbn [List.filter]; [constructor|].
    destruct (negb (Nat.eqb ctl x)); [|done]. apply NoDup_cons. split; [|done].
    intros Hin. apply Hx. apply list_elem_of_In in Hin. apply list_elem_of_In.
    apply filter_In in Hin. tauto.
Qed.

Lemma batch_settles (l : list (nat * FetchOutcome)) : ∀ (h : Hook) (b : Batch),
  batches h = [b] →
  NoDup (awaiting b) → l ≠ [] →
  map fst l ≡ₚ awaiting b →
  (∀ ctl, In ctl (awaiting b) → In ctl (map up_ctl (suspended h))) →
  (∃ h' report,
     settleAll l h = Some h'
     ∧ batches h' = []
     ∧ reports h' = reports h ++ [collected b ++ report]
     ∧ map success report = map (fun call => reportedSuccess (snd call)) l)
  ∧ (∀ l1 l2, l = l1 ++ l2 → l2 ≠ [] →
       ∃ h1, settleAll l1 h = Some h1 ∧ reports h1 = reports h).
Proof.
  induction l as [|[ctl outcome] rest IH]; intros h b Hb Hnd Hne Hperm Hsus; [done|].
  cbn [map fst] in Hperm.
  assert (Hin : In ctl (awaiting b)).
  { apply list_elem_of_In. rewrite <- Hperm. by left. }
  destruct (find_suspended ctl (suspended h) (Hsus ctl Hin)) as [u Hfind].
  destruct (settle_spec ctl outcome h u Hfind)
    as (h1 & Hset & _ & _ & _ & _ & _ & Hsus1 & Hb1 & Hr1 & Hok).
  rewrite Hb, noteResult_single in Hb1, Hr1 by done.
  destruct (awaiting_left ctl (map fst rest) (awaiting b) Hnd Hperm) as [Hleft Hndleft].
  set (res := toResult (generateFileId (up_file u))
                       (snd (settleUpdate (up_file u) outcome))) in *.
  destruct rest as [|call rest'].
  - (* the last awaited call *)
    cbn [map] in Hleft. apply Permutation_nil_r in Hleft. rewrite Hleft in Hb1, Hr1.
    cbn [fst snd] in Hb1, Hr1. split.
    + exists h1, [res]. cbn [settleAll]. rewrite Hset. cbn [settleAll map snd].
      split; [done|]. split; [done|]. split; [done|]. by rewrite Hok.
    + intros l1 l2 El Hl2. destruct l1 as [|x l1].
      * exists h. by cbn [settleAll].
      * exfalso. cbn [app] in El. injection El as _ El. symmetry in El.
        apply app_eq_nil in El as [_ El]. done.
  - set (rest := call :: rest') in *.
    destruct (List.filter (fun c => negb (Nat.eqb ctl c)) (awaiting b)) as [|c0 left'] eqn:El.
    { symmetry in Hleft. apply Permutation_nil_r in Hleft. done. }
    cbn [fst snd] in Hb1, Hr1. rewrite app_nil_r in Hr1.
    set (b1 := {| awaiting := c0 :: left'; collected := collected b ++ [res] |}) in *.
    destruct (IH h1 b1 Hb1 Hndleft ltac:(done) ltac:(by symmetry)) as [Hall Hpre].
    { intros c Hc. cbn [awaiting b1] in Hc. rewrite <- El in Hc.
      apply filter_In in Hc as [Hc Hne']. rewrite Hsus1.
      specialize (Hsus c Hc). apply in_map_iff in Hsus as (u' & E & Hu').
      apply in_map_iff. exists u'. split; [done|]. apply filter_In. split; [done|].
      rewrite E. destruct (Nat.eqb_spec c ctl) as [->|]; [|done].
      by rewrite Nat.eqb_refl in Hne'. }
    split.
    + destruct Hall as (h' & report & Hs & Hbs & Hrs & Hsucc).
      exists h', (res :: report). cbn [settleAll]. rewrite Hset.
      split; [done|]. split; [done|]. split.
      * rewrite Hrs, Hr1. cbn [collected b1]. by rewrite <- app_assoc.
      * cbn [map snd]. by rewrite Hok, Hsucc.
    + intros l1 l2 E Hl2. destruct l1 as [|x l1].
      * exists h. by cbn [settleAll].
      * cbn [app] in E. injection E as <- E.
        destruct (Hpre l1 l2 E Hl2) as (h2 & Hs2 & Hr2).
        exists h2. cbn [settleAll]. rewrite Hset. split; [done|]. by rewrite Hr2, Hr1.
Qed.

(** X19.  A call of [uploadFiles] reports once, when the last of the
    uploads it awaits has settled: if the awaited calls settle each once, in
    any order, then [onAllUploadsComplete] is called exactly once, with one
    result per awaited call in the order of settlement, [success] being true
    for a response and for an aborted upload and false for a failure; and
    as long as one awaited call has not settled nothing is reported. *)
Theorem X19_batch_reports_once (l : list (nat * FetchOutcome)) (h : Hook) (b : Batch) :
  batches h = [b] →
  NoDup (awaiting b) → awaiting b ≠ [] →
  map fst l ≡ₚ awaiting b →
  (∀ ctl, In ctl (awaiting b) → In ctl (map up_ctl (suspended h))) →
  (∃ h' report,
     settleAll l h = Some h'
     ∧ batches h' = []
     ∧ reports h' = reports h ++ [collected b ++ report]
     ∧ length report = length (awaiting b)
     ∧ map success report = map (fun call => reportedSuccess (snd call)) l)
  ∧ (∀ l1 l2, l = l1 ++ l2 → l2 ≠ [] →
       ∃ h1, settleAll l1 h = Some h1 ∧ reports h1 = reports h).
Proof.
  intros Hb Hnd Hne Hperm Hsus.
  assert (Hl : l ≠ []).
  { intros ->. cbn [map] in Hperm. symmetry in Hperm.
    apply Permutation_nil_r in Hperm. done. }
  destruct (batch_settles l h b Hb Hnd Hl Hperm Hsus) as [Hall Hpre].
  split; [|exact Hpre].
  destruct Hall as (h' & report & Hs & Hbs & Hrs & Hsucc).
  exists h', report. split; [done|]. split; [done|]. split; [done|]. split; [|done].
  apply (f_equal (@length bool)) in Hsucc. rewrite !length_map in Hsucc.
  rewrite Hsucc. rewrite <- (length_map fst). by apply Permutation_length.
Qed.

Lemma selectFiles_wf cfg files h : JsMap.wf (uploadProgress (selectFiles cfg files h)).
Proof.
  unfold selectFiles. cbn [uploadProgress withSelection].
  assert (Hgen : ∀ (l : list File) (g : File → UploadProgress) m, JsMap.wf m →
    JsMap.wf (fold_left (fun m file => JsMap.set (generateFileId file) (g file) m) l m)).
  { induction l as [|x l IH]; intros g m Hm; cbn [fold_left]; [done|].
    apply IH. by apply JsMap_set_wf. }
  apply (Hgen files (fun file => _)). apply NoDup_nil_2.
Qed.

Lemma JsMap_get_delete_eq {A} k (m : list (string * A)) :
  JsMap.wf m → JsMap.get k (JsMap.delete k m) = None.
Proof.
  intros Hwf. rewrite JsMap_delete_filter by done. rewrite JsMap_get_filter by done.
  destruct (JsMap.get k m); [|done]. cbn [fst]. by rewrite String.eqb_refl.
Qed.

Lemma JsMap_get_delete_ne {A} k k' (m : list (string * A)) :
  k ≠ k' → JsMap.get k' (JsMap.delete k m) = JsMap.get k' m.
Proof.
  intros Hne. induction m as [|[k0 v0] m IH]; cbn [JsMap.delete JsMap.get]; [done|].
  destruct (String.eqb_spec k k0) as [->|Hk].
  - destruct (String.eqb_spec k' k0); [congruence | done].
  - cbn [JsMap.get]. destruct (String.eqb k' k0); [done | apply IH].
Qed.

(** X20.  [removeFile] removes the file and its task and leaves every
    other task as it was, but it does not validate again: the validation
    result of the batch as selected stays, so that after a file has been
    removed from a batch that failed validation, the offending file
    included, [uploadFiles] still returns at its guard. *)
Theorem X20_removeFile_keeps_batch_verdict (cfg : FileValidationConfig) (K : Z)
    (files : list File) (h : Hook) (id : string) :
  let h0 := selectFiles cfg files h in
  let h1 := removeFile id h0 in
  validationResults h1 = Some (validateFiles files cfg)
  ∧ selectedFiles h1
    = List.filter (fun f => negb (String.eqb (generateFileId f) id)) files
  ∧ statusOf id h1 = None
  ∧ (∀ id', id' ≠ id → statusOf id' h1 = statusOf id' h0)
  ∧ (batchValid (validateFiles files cfg) = false → uploadFiles K h1 = h1).
Proof.
  intros h0 h1.
  pose proof (selectFiles_wf cfg files h) as Hwf. fold h0 in Hwf.
  assert (Hc : validationResults (cancelUpload id h0) = Some (validateFiles files cfg)
               ∧ selectedFiles (cancelUpload id h0) = files
               ∧ JsMap.wf (uploadProgress (cancelUpload id h0))
               ∧ ∀ id', id' ≠ id →
                   statusOf id' (cancelUpload id h0) = statusOf id' h0).
  { unfold cancelUpload.
    set (hq := withQueue _ _).
    assert (Hq : uploadProgress hq = uploadProgress h0
                 ∧ validationResults hq = Some (validateFiles files cfg)
                 ∧ selectedFiles hq = files).
    { unfold hq. by destruct (JsMap.get id (abortControllers h0)). }
    destruct Hq as (Hq1 & Hq2 & Hq3).
    split; [|split; [|split]].
    - unfold updateProgress. by destruct (JsMap.get id (uploadProgress hq)).
    - unfold updateProgress. by destruct (JsMap.get id (uploadProgress hq)).
    - unfold updateProgress. destruct (JsMap.get id (uploadProgress hq)).
      + cbn [uploadProgress withProgress]. apply JsMap_set_wf. by rewrite Hq1.
      + by rewrite Hq1.
    - intros id' Hne. rewrite statusOf_updateProgress.
      destruct (String.eqb_spec id id'); [congruence|]. unfold statusOf. by rewrite Hq1. }
  destruct Hc as (Hval & Hsel & Hwfc & Hother).
  unfold h1, removeFile. cbn [validationResults selectedFiles withSelection].
  split; [done|]. split; [by rewrite Hsel|]. split; [|split].
  - unfold statusOf. cbn [uploadProgress withSelection].
    by rewrite JsMap_get_delete_eq.
  - intros id' Hne. unfold statusOf at 1. cbn [uploadProgress withSelection].
    rewrite JsMap_get_delete_ne by done. by apply Hother.
  - intros Hbad. unfold uploadFiles. cbn [validationResults withSelection].
    by rewrite Hval, Hbad.
Qed.
End UploadSettle.

Section UploadClear.
Import FileValidation FileUpload.

Lemma suspended_fold_cancel (l : list (string * UploadProgress)) : ∀ acc,
  suspended
    (fold_left
       (fun acc kv =>
          match status (snd kv) with
          | uploading | pending => updateProgress (fst kv) cancelledUpdate acc
          | _ => acc
          end) l acc)
  = suspended acc.
Proof.
  induction l as [|[k p] l IH]; intros acc; cbn [fold_left fst snd]; [done|].
  assert (Hup : suspended (updateProgress k cancelledUpdate acc) = suspended acc).
  { unfold updateProgress. by destruct (JsMap.get k (uploadProgress acc)). }
  destruct (status p); rewrite IH; done.
Qed.

(** X30.  [clearFiles] forgets the selection, the tasks and the
    validation result, empties the queue and aborts every registered
    controller, but the uploads in flight are still suspended at their
    [fetch]; when one of them settles afterwards its progress update finds
    no task, and the progress map and the selection stay empty. *)
Theorem X30_clearFiles_forgets_tasks (h : Hook) (ctl : nat) (outcome : FetchOutcome)
    (u : Upload) :
  List.find (fun u => Nat.eqb (up_ctl u) ctl) (suspended h) = Some u →
  let h0 := clearFiles h in
  selectedFiles h0 = []
  ∧ uploadProgress h0 = []
  ∧ validationResults h0 = None
  ∧ uploadQueue h0 = []
  ∧ (∀ id c, In (id, c) (abortControllers h) → In c (aborted h0))
  ∧ ∃ h', uploadSingleFileSettle ctl outcome h0 = Some h'
          ∧ uploadProgress h' = []
          ∧ selectedFiles h' = [].
Proof.
  intros Hfind h0.
  destruct (uploadProgress_fold_cancel (uploadProgress h)
              (withActive [] (withQueue []
                 (withControllers []
                    (fold_left (fun acc kv => abort (snd kv) acc) (abortControllers h)
                               (aborted h)) h))))
    as (_ & Hq & _ & _ & Hab).
  fold (cancelAllUploads h) in Hq, Hab.
  assert (Hsus : suspended h0 = suspended h).
  { unfold h0, clearFiles, cancelAllUploads. cbn [suspended withSelection].
    by rewrite suspended_fold_cancel. }
  split; [done|]. split; [done|]. split; [done|].
  split; [unfold h0, clearFiles; cbn [uploadQueue withSelection]; by rewrite Hq|].
  split.
  - intros id c Hin. unfold h0, clearFiles. cbn [aborted withSelection]. rewrite Hab.
    cbn [aborted withActive withQueue withControllers]. apply (abort_all _ _ id). by left.
  - rewrite <- Hsus in Hfind.
    destruct (settle_spec ctl outcome h0 u Hfind) as (h' & Hs & Hup & Hsel & _).
    exists h'. split; [done|]. split; [|by rewrite Hsel].
    rewrite Hup. unfold updateProgress.
    change (uploadProgress h0) with (@nil (string * UploadProgress)). done.
Qed.
End UploadClear.

Section OptimisticProperties.
Import ErrorHandler OptimisticUpdate.
Context {T : Type}.

Lemma elapse_no_timers (now : Z) (h : Hook T) : timers h = [] → elapse now h = h.
Proof. intros E. unfold elapse. by rewrite E. Qed.

(** After a failure the one pending timeout runs when the window has
    passed, and not before. *)
Lemma elapse_rejected (delay : option Z) (h : Hook T) (x : T) (e : ErrorValue)
    (failedAt now : Z) :
  settledBefore h →
  let h2 := updateRejected delay e failedAt (executeOptimisticUpdate x h) in
  elapse now h2
  = if (failedAt + rollbackDelay delay <=? now)%Z
    then {| state := {| data := data (state h); loading := false;
                        error := Some (toNetworkError e); isOptimistic := false |};
            rollbackTimeoutRef := Some (nextTimer h);
            originalDataRef := data (state h);
            timers := [];
            nextTimer := S (nextTimer h) |}
    else h2.
Proof.
  intros Hs h2. pose proof (rejected_timers delay h x e failedAt Hs) as Ht. fold h2 in Ht.
  unfold elapse. rewrite Ht. cbn [fold_left t_due].
  destruct (_ <=? _)%Z; [|done].
  unfold fire. rewrite Ht. cbn [t_id t_error List.filter]. rewrite Nat.eqb_refl. done.
Qed.

Lemma settled_after_rejected (delay : option Z) (h : Hook T) (x : T) (e : ErrorValue)
    (failedAt : Z) :
  settledBefore h →
  settledBefore (updateRejected delay e failedAt (executeOptimisticUpdate x h)).
Proof.
  intros Hs. unfold settledBefore. rewrite rejected_timers by done.
  constructor; [reflexivity | constructor].
Qed.

(** X21.  While the hook is used one call at a time (every update
    applied after the one before it has settled), an optimistic update
    whose operation succeeds ends with the server's result as data, not
    optimistic, without error; no rollback is pending afterwards, also when
    the update was applied during the grace window of an earlier failure,
    so the state does not change as time passes. *)
Theorem X21_resolved_update_is_final (delay : option Z) (h : Hook T) (x result : T) :
  sequential delay h →
  let h2 := updateResolved result (executeOptimisticUpdate x h) in
  state h2 = {| data := result; loading := false; error := None;
                isOptimistic := false |}
  ∧ timers h2 = []
  ∧ ∀ now, elapse now h2 = h2.
Proof.
  intros Hseq h2. pose proof (sequential_settled delay h Hseq) as Hs.
  assert (Ht : timers h2 = []).
  { unfold h2, updateResolved, executeOptimisticUpdate. cbn [timers].
    by apply clearTimeout_settled. }
  split; [done|]. split; [done|]. intros now. by apply elapse_no_timers.
Qed.

(** X22.  While the hook is used one call at a time,
    [rollbackImmediately] called after a failed update restores at once the
    data the hook displayed when the update was applied, clears the error,
    and cancels the pending rollback: nothing changes when the grace window
    ends. *)
Theorem X22_rollbackImmediately_cancels_timeout (delay : option Z) (h : Hook T) (x : T)
    (e : ErrorValue) (failedAt : Z) :
  sequential delay h →
  let h2 := updateRejected delay e failedAt (executeOptimisticUpdate x h) in
  let h3 := rollbackImmediately h2 in
  state h3 = {| data := data (state h); loading := false; error := None;
                isOptimistic := false |}
  ∧ ∀ now, elapse now h3 = h3.
Proof.
  intros Hseq h2 h3. pose proof (sequential_settled delay h Hseq) as Hs.
  split; [done|]. intros now. apply elapse_no_timers.
  unfold h3, rollbackImmediately. cbn [timers].
  apply clearTimeout_settled. by apply settled_after_rejected.
Qed.

(** X23.  [updateData] called during the grace window of a failed
    update replaces the data and keeps the error; the pending rollback still
    runs when the window ends, but it restores the data [updateData] stored,
    so the state is the same after it. *)
Theorem X23_updateData_outlives_rollback (delay : option Z) (h : Hook T) (x newData : T)
    (e : ErrorValue) (failedAt now : Z) :
  settledBefore h →
  (failedAt + rollbackDelay delay <= now)%Z →
  let h2 := updateRejected delay e failedAt (executeOptimisticUpdate x h) in
  let h3 := updateData newData h2 in
  state h3 = {| data := newData; loading := false;
                error := Some (toNetworkError e); isOptimistic := false |}
  ∧ state (elapse now h3) = state h3
  ∧ timers (elapse now h3) = [].
Proof.
  intros Hs Hdue h2 h3. split; [done|].
  pose proof (rejected_timers delay h x e failedAt Hs) as Ht. fold h2 in Ht.
  unfold elapse. change (timers h3) with (timers h2). rewrite Ht.
  cbn [fold_left t_due]. destruct (Z.leb_spec (failedAt + rollbackDelay delay) now); [|lia].
  unfold fire. change (timers h3) with (timers h2). rewrite Ht.
  cbn [state timers t_id t_error List.filter]. rewrite Nat.eqb_refl. done.
Qed.

(** X24.  The value a rollback restores is the one displayed when the
    update was applied.  If a second update is applied during the grace
    window of a failed first one and fails too, the rollback restores the
    speculative value of the first update; if it is applied after the window
    has ended, the rollback restores the value the hook held before the
    first update. *)
Theorem X24_rollback_target_is_displayed_value (delay : option Z) (h : Hook T) (x y : T)
    (e e' : ErrorValue) (failedAt appliedAt failedAt' now : Z) :
  settledBefore h →
  (failedAt' + rollbackDelay delay <= now)%Z →
  let h2 := updateRejected delay e failedAt (executeOptimisticUpdate x h) in
  let h3 := executeOptimisticUpdate y (elapse appliedAt h2) in
  let h4 := updateRejected delay e' failedAt' h3 in
  data (state h3) = y
  ∧ ((appliedAt < failedAt + rollbackDelay delay)%Z →
       data (state (elapse now h4)) = x)
  ∧ ((failedAt + rollbackDelay delay <= appliedAt)%Z →
       data (state (elapse now h4)) = data (state h)).
Proof.
  intros Hs Hdue h2 h3 h4. split; [done|].
  pose proof (elapse_rejected delay h x e failedAt appliedAt Hs) as He. fold h2 in He.
  assert (Hs2 : settledBefore (elapse appliedAt h2)).
  { destruct (settledBefore_sequential delay h x x e failedAt appliedAt x) as [_ H].
    by apply H. }
  pose proof (elapse_rejected delay (elapse appliedAt h2) y e' failedAt' now Hs2) as He4.
  fold h3 in He4. fold h4 in He4.
  destruct (Z.leb_spec (failedAt' + rollbackDelay delay) now); [|lia].
  rewrite He4. cbn [state data]. rewrite He.
  split; intros Hw.
  - destruct (Z.leb_spec (failedAt + rollbackDelay delay) appliedAt); [lia | done].
  - destruct (Z.leb_spec (failedAt + rollbackDelay delay) appliedAt); [done | lia].
Qed.
End OptimisticProperties.

Section AsyncFacts.
Import ErrorHandler AsyncOperation.
Context {T A : Type}.
Implicit Types (h : Hook T A).

Lemma elapse_no_timers_async (now : Z) h : timers h = [] → elapse now h = h.
Proof. intros E. unfold elapse. by rewrite E. Qed.

Lemma not_aborted_fresh (ab : list nat) (ctl bound : nat) :
  Forall (fun c => (c < bound)%nat) ab → (bound <= ctl)%nat →
  existsb (Nat.eqb ctl) ab = false.
Proof.
  intros Hall Hle. apply not_true_is_false. intros H.
  apply existsb_exists in H as (c & Hc & E). apply Nat.eqb_eq in E. subst c.
  rewrite Forall_forall in Hall. apply list_elem_of_In in Hc. specialize (Hall _ Hc). lia.
Qed.

Lemma aborted_abortCurrent (ref : option nat) (ab : list nat) (ctl : nat) :
  existsb (Nat.eqb ctl) (abortCurrent ref ab)
  = existsb (Nat.eqb ctl) ab
    || match ref with Some r => Nat.eqb ctl r | None => false end.
Proof.
  unfold abortCurrent. destruct ref as [r|]; [|by rewrite orb_false_r].
  destruct (existsb (Nat.eqb r) ab) eqn:E.
  - destruct (Nat.eqb_spec ctl r) as [->|]; [by rewrite E | by rewrite orb_false_r].
  - rewrite existsb_app. cbn [existsb]. by rewrite orb_false_r.
Qed.

Lemma abortCurrent_bound (ref : option nat) (ab : list nat) (bound : nat) :
  Forall (fun c => (c < bound)%nat) ab →
  (∀ r, ref = Some r → (r < bound)%nat) →
  Forall (fun c => (c < bound)%nat) (abortCurrent ref ab).
Proof.
  intros Hab Href. unfold abortCurrent. destruct ref as [r|]; [|done].
  destruct (existsb _ ab); [done|]. apply Forall_app. split; [done|].
  constructor; [by apply Href | constructor].
Qed.

(** [execute] without debouncing starts the call at once. *)
Lemma execute_immediate (debounce : option Z) (now : Z) (a : A) h :
  (debounceMs debounce <= 0)%Z →
  execute debounce now a h
  = {| state := {| data := data (state h); loading := true; error := None;
                   lastUpdated := lastUpdated (state h) |};
       abortControllerRef := Some (nextController h);
       debounceTimeoutRef := debounceTimeoutRef h;
       aborted := abortCurrent (abortControllerRef h) (aborted h);
       timers := clearTimeout (debounceTimeoutRef h) (timers h);
       running := running h ++ [{| op_ctl := nextController h; op_args := a |}];
       nextController := S (nextController h);
       nextTimer := nextTimer h;
       invoked := invoked h ++ [a];
       notified := notified h |}.
Proof.
  intros HD. unfold execute.
  destruct (Z.gtb_spec (debounceMs debounce) 0); [lia | done].
Qed.

Lemma execute_wellFormed (debounce : option Z) (now : Z) (a : A) h :
  (debounceMs debounce <= 0)%Z → wellFormed h →
  wellFormed (execute debounce now a h).
Proof.
  intros HD (Hrun & Hab & Href). rewrite execute_immediate by done.
  unfold wellFormed. cbn [running aborted abortControllerRef nextController].
  split; [|split].
  - apply Forall_app. split.
    + eapply Forall_impl; [exact Hrun|]. intros op Hop. simpl in Hop. lia.
    + constructor; [cbn; lia | constructor].
  - eapply Forall_impl; [apply (abortCurrent_bound _ _ (nextController h)); done|].
    intros c Hc. simpl in Hc. lia.
  - intros ctl [= <-]. lia.
Qed.

(** The settlement of a suspended call whose controller is newer than
    those of the calls suspended before it. *)
Lemma operationSettled_found (retain : option bool) (o : Outcome T) (t : Z) h
    (pre post : list (@Operation A)) (ctl : nat) (a : A) :
  running h = pre ++ {| op_ctl := ctl; op_args := a |} :: post →
  Forall (fun x => (op_ctl x < ctl)%nat) pre →
  operationSettled retain ctl o t h
  = Some
      {| state :=
           if existsb (Nat.eqb ctl) (aborted h) then state h
           else settledState retain o t (state h);
         abortControllerRef := None;
         debounceTimeoutRef := debounceTimeoutRef h;
         aborted := aborted h;
         timers := timers h;
         running :=
           pre ++ List.filter (fun x => negb (Nat.eqb (op_ctl x) ctl)) post;
         nextController := nextController h;
         nextTimer := nextTimer h;
         invoked := invoked h;
         notified :=
           if existsb (Nat.eqb ctl) (aborted h) then notified h
           else notified h ++ [notification o] |}.
Proof.
  intros Hrun Hpre. unfold operationSettled. rewrite Hrun.
  set (op := {| op_ctl := ctl; op_args := a |}).
  assert (Hfind : List.find (fun x => Nat.eqb (op_ctl x) ctl) (pre ++ op :: post)
                  = Some op).
  { clear Hrun. induction Hpre as [|x l Hx Hl IH]; cbn [app List.find].
    - by rewrite Nat.eqb_refl.
    - destruct (Nat.eqb_spec (op_ctl x) ctl); [lia | done]. }
  rewrite Hfind. do 2 f_equal.
  rewrite List.filter_app. cbn [List.filter op_ctl op]. rewrite Nat.eqb_refl. cbn [negb].
  f_equal. apply forallb_filter_id, forallb_forall. intros x Hx.
  rewrite Forall_forall in Hpre. apply list_elem_of_In in Hx. specialize (Hpre x Hx).
  destruct (Nat.eqb_spec (op_ctl x) ctl); [lia | done].
Qed.

Lemma eqb_succ n : Nat.eqb (S n) n = false.
Proof. apply Nat.eqb_neq. lia. Qed.

Lemma older_calls (l : list (@Operation A)) (n m : nat) :
  Forall (fun x => (op_ctl x < n)%nat) l → (n <= m)%nat →
  Forall (fun x => (op_ctl x < m)%nat) l.
Proof. intros H Hle. eapply Forall_impl; [exact H|]. intros x Hx. simpl in Hx. lia. Qed.

(** X25.  Without debouncing, when [execute] is called a second time
    while the first call is still in flight, both calls of [asyncFunction]
    are made, and in whichever order the two settle the state ends as the
    second call alone leaves it: only the outcome of the second call is
    written to the state and passed to [onSuccess] or [onError]. *)
Theorem X25_latest_of_two_calls_wins (retain : option bool) (debounce : option Z) h
    (a1 a2 : A) (o1 o2 : Outcome T) (now1 now2 t1 t2 : Z) :
  wellFormed h →
  (debounceMs debounce <= 0)%Z →
  let c1 := nextController h in
  let c2 := S c1 in
  let h2 := execute debounce now2 a2 (execute debounce now1 a1 h) in
  invoked h2 = invoked h ++ [a1; a2]
  ∧ ∃ hA hB,
      (operationSettled retain c1 o1 t1 h2 ≫= operationSettled retain c2 o2 t2) = Some hA
      ∧ (operationSettled retain c2 o2 t2 h2 ≫= operationSettled retain c1 o1 t1) = Some hB
      ∧ state hA = settledState retain o2 t2 (state h2)
      ∧ state hB = state hA
      ∧ notified hA = notified h ++ [notification o2]
      ∧ notified hB = notified hA.
Proof.
  intros Hwf HD c1 c2 h2.
  destruct Hwf as (Hrun & Hab & Href).
  set (ab1 := abortCurrent (abortControllerRef h) (aborted h)).
  assert (Hab1 : Forall (fun c => (c < c1)%nat) ab1) by (by apply abortCurrent_bound).
  assert (Eh2 : h2 = {| state := {| data := data (state h); loading := true; error := None;
                                    lastUpdated := lastUpdated (state h) |};
                        abortControllerRef := Some c2;
                        debounceTimeoutRef := debounceTimeoutRef h;
                        aborted := abortCurrent (Some c1) ab1;
                        timers := clearTimeout (debounceTimeoutRef h)
                                    (clearTimeout (debounceTimeoutRef h) (timers h));
                        running := (running h ++ [{| op_ctl := c1; op_args := a1 |}])
                                   ++ [{| op_ctl := c2; op_args := a2 |}];
                        nextController := S c2;
                        nextTimer := nextTimer h;
                        invoked := (invoked h ++ [a1]) ++ [a2];
                        notified := notified h |}).
  { unfold h2. by rewrite !execute_immediate. }
  assert (Hin1 : existsb (Nat.eqb c1) (aborted h2) = true).
  { rewrite Eh2. cbn [aborted]. rewrite aborted_abortCurrent, Nat.eqb_refl. apply orb_true_r. }
  assert (Hin2 : existsb (Nat.eqb c2) (aborted h2) = false).
  { rewrite Eh2. cbn [aborted]. rewrite aborted_abortCurrent.
    rewrite (not_aborted_fresh ab1 c2 c1) by (done || (unfold c2; lia)).
    unfold c2. by rewrite eqb_succ. }
  split; [rewrite Eh2; cbn [invoked]; by rewrite <- app_assoc|].
  (* the older call settles first *)
  pose proof (operationSettled_found retain o1 t1 h2 (running h)
                [{| op_ctl := c2; op_args := a2 |}] c1 a1
                ltac:(rewrite Eh2; cbn [running]; by rewrite <- app_assoc) Hrun) as HA1.
  rewrite Hin1 in HA1. cbn [List.filter op_ctl] in HA1.
  unfold c2 in HA1 at 1. rewrite eqb_succ in HA1. cbn [negb] in HA1. fold c2 in HA1.
  (* the newer call settles first *)
  pose proof (operationSettled_found retain o2 t2 h2
                (running h ++ [{| op_ctl := c1; op_args := a1 |}]) [] c2 a2
                ltac:(by rewrite Eh2)
                ltac:(apply Forall_app; split;
                      [apply (older_calls _ c1); [done | unfold c2; lia]
                      | constructor; [cbn; unfold c2; lia | constructor]])) as HB1.
  rewrite Hin2 in HB1. cbn [List.filter] in HB1. rewrite app_nil_r in HB1.
  rewrite HA1, HB1. cbn [mbind option_bind].
  match goal with |- context [operationSettled retain c2 o2 t2 ?x] => set (hA1 := x) end.
  match goal with |- context [operationSettled retain c1 o1 t1 ?x] => set (hB1 := x) end.
  pose proof (operationSettled_found retain o2 t2 hA1 (running h) [] c2 a2 eq_refl
                ltac:(apply (older_calls _ c1); [done | unfold c2; lia])) as HA2.
  change (aborted hA1) with (aborted h2) in HA2. rewrite Hin2 in HA2.
  pose proof (operationSettled_found retain o1 t1 hB1 (running h) [] c1 a1 eq_refl Hrun)
    as HB2.
  change (aborted hB1) with (aborted h2) in HB2. rewrite Hin1 in HB2.
  rewrite HA2, HB2. eexists. eexists. split; [reflexivity|]. split; [reflexivity|].
  cbn [state notified hA1 hB1]. rewrite Eh2. cbn [notified]. done.
Qed.
End AsyncFacts.

Section AsyncProperties.
Import ErrorHandler AsyncOperation.
Context {T A : Type}.
Implicit Types (h : Hook T A).

(** X26.  The [finally] block of an aborted call clears
    [abortControllerRef] although it holds the controller of a newer call.
    So with three calls [a], [b], [c], if [a] settles after [b] was issued
    and before [c] is, [c] does not abort [b]; if then [c] resolves before
    [b], the data ends as the result of [b], the second call, not of the
    latest. *)
Theorem X26_superseded_call_can_overwrite_latest (retain : option bool)
    (debounce : option Z) h (a b c : A) (oa : Outcome T) (rb rc : T)
    (nowA nowB nowC ta tb tc : Z) :
  wellFormed h →
  (debounceMs debounce <= 0)%Z →
  let ca := nextController h in
  let cb := S ca in
  let cc := S cb in
  let h2 := execute debounce nowB b (execute debounce nowA a h) in
  ∃ h3 h5 h6,
    operationSettled retain ca oa ta h2 = Some h3
    ∧ abortControllerRef h3 = None
    ∧ operationSettled retain cc (Resolved rc) tc (execute debounce nowC c h3) = Some h5
    ∧ operationSettled retain cb (Resolved rb) tb h5 = Some h6
    ∧ data (state h5) = Some rc
    ∧ data (state h6) = Some rb
    ∧ invoked h6 = invoked h ++ [a; b; c]
    ∧ notified h6 = notified h ++ [inl rc; inl rb].
Proof.
  intros Hwf HD ca cb cc h2.
  destruct Hwf as (Hrun & Hab & Href).
  set (ab1 := abortCurrent (abortControllerRef h) (aborted h)).
  assert (Hab1 : Forall (fun x => (x < ca)%nat) ab1) by (by apply abortCurrent_bound).
  assert (Eh2 : h2 = {| state := {| data := data (state h); loading := true; error := None;
                                    lastUpdated := lastUpdated (state h) |};
                        abortControllerRef := Some cb;
                        debounceTimeoutRef := debounceTimeoutRef h;
                        aborted := abortCurrent (Some ca) ab1;
                        timers := clearTimeout (debounceTimeoutRef h)
                                    (clearTimeout (debounceTimeoutRef h) (timers h));
                        running := (running h ++ [{| op_ctl := ca; op_args := a |}])
                                   ++ [{| op_ctl := cb; op_args := b |}];
                        nextController := S cb;
                        nextTimer := nextTimer h;
                        invoked := (invoked h ++ [a]) ++ [b];
                        notified := notified h |}).
  { unfold h2. by rewrite !execute_immediate. }
  assert (Hina : existsb (Nat.eqb ca) (aborted h2) = true).
  { rewrite Eh2. cbn [aborted]. rewrite aborted_abortCurrent, Nat.eqb_refl. apply orb_true_r. }
  assert (Hfresh : ∀ x, (ca < x)%nat → existsb (Nat.eqb x) (aborted h2) = false).
  { intros x Hx. rewrite Eh2. cbn [aborted]. rewrite aborted_abortCurrent.
    rewrite (not_aborted_fresh ab1 x ca) by (done || lia).
    cbn [orb]. apply Nat.eqb_neq. lia. }
  pose proof (operationSettled_found retain oa ta h2 (running h)
                [{| op_ctl := cb; op_args := b |}] ca a
                ltac:(rewrite Eh2; cbn [running]; by rewrite <- app_assoc) Hrun) as H3.
  rewrite Hina in H3. cbn [List.filter op_ctl] in H3.
  unfold cb in H3 at 1. rewrite eqb_succ in H3. cbn [negb] in H3. fold cb in H3.
  match type of H3 with _ = Some ?x => set (h3 := x) in * end.
  exists h3.
  assert (E4 : execute debounce nowC c h3
               = {| state := {| data := data (state h); loading := true; error := None;
                                lastUpdated := lastUpdated (state h) |};
                    abortControllerRef := Some cc;
                    debounceTimeoutRef := debounceTimeoutRef h;
                    aborted := aborted h2;
                    timers := clearTimeout (debounceTimeoutRef h) (timers h2);
                    running := (running h ++ [{| op_ctl := cb; op_args := b |}])
                               ++ [{| op_ctl := cc; op_args := c |}];
                    nextController := S cc;
                    nextTimer := nextTimer h;
                    invoked := invoked h2 ++ [c];
                    notified := notified h |}).
  { rewrite execute_immediate by done. unfold h3. rewrite Eh2. reflexivity. }
  pose proof (operationSettled_found retain (Resolved rc) tc (execute debounce nowC c h3)
                (running h ++ [{| op_ctl := cb; op_args := b |}]) [] cc c
                ltac:(by rewrite E4)
                ltac:(apply Forall_app; split;
                      [apply (older_calls _ ca); [done | unfold cc, cb; lia]
                      | constructor; [cbn; unfold cc; lia | constructor]])) as H5.
  rewrite E4 in H5. cbn [aborted state notified invoked nextController nextTimer timers
                          debounceTimeoutRef] in H5.
  rewrite (Hfresh cc) in H5 by (unfold cc, cb; lia).
  cbn [List.filter] in H5. rewrite app_nil_r in H5. rewrite <- E4 in H5.
  match type of H5 with _ = Some ?x => set (h5 := x) in * end.
  pose proof (operationSettled_found retain (Resolved rb) tb h5 (running h) [] cb b eq_refl
                ltac:(apply (older_calls _ ca); [done | unfold cb; lia])) as H6.
  cbn [aborted h5] in H6. rewrite (Hfresh cb) in H6 by (unfold cb; lia).
  match type of H6 with _ = Some ?x => set (h6 := x) in * end.
  exists h5, h6. split; [done|]. split; [done|]. split; [done|]. split; [done|].
  split; [done|]. split; [done|].
  cbn [invoked notified h6 h5 notification]. rewrite Eh2. cbn [invoked].
  rewrite <- !app_assoc. done.
Qed.

(** [execute] with debouncing only sets a timeout. *)
Lemma execute_debounced (debounce : option Z) (now : Z) (a : A) h :
  (0 < debounceMs debounce)%Z →
  execute debounce now a h
  = {| state := state h;
       abortControllerRef := abortControllerRef h;
       debounceTimeoutRef := Some (nextTimer h);
       aborted := abortCurrent (abortControllerRef h) (aborted h);
       timers :=
         clearTimeout (debounceTimeoutRef h) (timers h) ++
           [{| t_id := nextTimer h; t_due := (now + debounceMs debounce)%Z;
               t_args := a |}];
       running := running h;
       nextController := nextController h;
       nextTimer := S (nextTimer h);
       invoked := invoked h;
       notified := notified h |}.
Proof.
  intros HD. unfold execute.
  destruct (Z.gtb_spec (debounceMs debounce) 0); [done | lia].
Qed.

Lemma elapse_early (now : Z) h (due : Z) (a : A) :
  pendingCall h due a → (now < due)%Z → elapse now h = h.
Proof.
  intros (i & Ht & _) Hlt. unfold elapse. rewrite Ht. cbn [fold_left t_due].
  destruct (Z.leb_spec due now); [lia | done].
Qed.

Lemma elapse_due (now : Z) h (due : Z) (a : A) :
  pendingCall h due a → (due <= now)%Z →
  invoked (elapse now h) = invoked h ++ [a]
  ∧ timers (elapse now h) = []
  ∧ loading (state (elapse now h)) = true.
Proof.
  intros (i & Ht & _) Hle. unfold elapse. rewrite Ht. cbn [fold_left t_due].
  destruct (Z.leb_spec due now); [|lia].
  unfold fire, executeOperation. cbn [invoked timers state loading t_args t_id].
  rewrite Ht. cbn [List.filter t_id]. rewrite Nat.eqb_refl. done.
Qed.

Lemma execute_pending (debounce : option Z) (now : Z) (a : A) h :
  (0 < debounceMs debounce)%Z →
  (timers h = [] ∨ ∃ due a0, pendingCall h due a0) →
  pendingCall (execute debounce now a h) (now + debounceMs debounce) a
  ∧ invoked (execute debounce now a h) = invoked h.
Proof.
  intros HD Hh. rewrite execute_debounced by done. split; [|done].
  exists (nextTimer h). cbn [timers debounceTimeoutRef]. split; [|done].
  destruct Hh as [E|(due & a0 & i & E & Er)]; rewrite E.
  - by destruct (debounceTimeoutRef h).
  - rewrite Er. cbn [clearTimeout List.filter t_id]. by rewrite Nat.eqb_refl.
Qed.

Lemma last_cons_default {X} (l : list X) : ∀ x d, List.last (x :: l) d = List.last l x.
Proof.
  induction l as [|y l IH]; intros x d; [done|].
  change (List.last (x :: y :: l) d) with (List.last (y :: l) d).
  by rewrite !IH.
Qed.

Lemma burst_keeps_last (debounce : option Z) (l : list (Z * A)) : ∀ h (t : Z) (a : A),
  (0 < debounceMs debounce)%Z →
  pendingCall h (t + debounceMs debounce) a →
  closeTogether (debounceMs debounce) ((t, a) :: l) →
  pendingCall (executeAll debounce l h)
              (fst (List.last l (t, a)) + debounceMs debounce)
              (snd (List.last l (t, a)))
  ∧ invoked (executeAll debounce l h) = invoked h.
Proof.
  induction l as [|[t' a'] l IH]; intros h t a HD Hp Hclose; [done|].
  destruct Hclose as [Hgap Hclose]. cbn [fst] in Hgap.
  unfold executeAll. cbn [fold_left fst snd].
  fold (executeAll debounce l (execute debounce t' a' (elapse t' h))).
  rewrite (elapse_early t' h _ a Hp Hgap).
  destruct (execute_pending debounce t' a' h HD) as [Hp' Hinv]; [right; eauto|].
  destruct (IH (execute debounce t' a' h) t' a' HD Hp' Hclose) as [Hlast Hinv'].
  rewrite Hinv' , Hinv. split; [|done].
  by rewrite last_cons_default.
Qed.

Lemma last_app_one {X} (l : list X) (x d : X) : List.last (l ++ [x]) d = x.
Proof. apply last_last. Qed.

(** X27.  With a positive [debounceMs] and no timeout pending at the
    start, a series of [execute] calls each made less than [debounceMs]
    after the one before starts no call of [asyncFunction] while it lasts;
    nothing happens until [debounceMs] after the last call, and then
    [asyncFunction] is called once, with the arguments of the last call. *)
Theorem X27_debounce_starts_last_call_only (debounce : option Z) h
    (calls : list (Z * A)) (tn : Z) (an : A) :
  (0 < debounceMs debounce)%Z →
  timers h = [] →
  closeTogether (debounceMs debounce) (calls ++ [(tn, an)]) →
  let h' := executeAll debounce (calls ++ [(tn, an)]) h in
  invoked h' = invoked h
  ∧ (∀ now, (now < tn + debounceMs debounce)%Z → elapse now h' = h')
  ∧ (∀ now, (tn + debounceMs debounce <= now)%Z →
       invoked (elapse now h') = invoked h ++ [an]
       ∧ timers (elapse now h') = []
       ∧ loading (state (elapse now h')) = true).
Proof.
  intros HD Ht Hclose h'.
  assert (Hp : pendingCall h' (tn + debounceMs debounce) an ∧ invoked h' = invoked h).
  { unfold h'. destruct calls as [|[t1 a1] rest].
    - unfold executeAll. cbn [app fold_left fst snd].
      rewrite (elapse_no_timers_async tn h Ht).
      apply execute_pending; [done | by left].
    - cbn [app]. unfold executeAll. cbn [fold_left fst snd].
      fold (executeAll debounce (rest ++ [(tn, an)]) (execute debounce t1 a1 (elapse t1 h))).
      rewrite (elapse_no_timers_async t1 h Ht).
      destruct (execute_pending debounce t1 a1 h HD (or_introl Ht)) as [Hp1 Hinv1].
      destruct (burst_keeps_last debounce (rest ++ [(tn, an)]) _ t1 a1 HD Hp1 Hclose)
        as [Hlast Hinv].
      rewrite last_app_one in Hlast. cbn [fst snd] in Hlast.
      split; [done|]. by rewrite Hinv. }
  destruct Hp as [Hp Hinv]. split; [done|]. split.
  - intros now Hnow. by apply (elapse_early now h' (tn + debounceMs debounce) an).
  - intros now Hnow.
    destruct (elapse_due now h' (tn + debounceMs debounce) an Hp Hnow) as (H1 & H2 & H3).
    rewrite H1, Hinv. done.
Qed.

(** X28.  [reset] after [execute] puts the initial state back and
    discards the call: without debouncing the call in flight is aborted, so
    that when it settles the state stays initial and no callback runs; with
    debouncing the timeout is cleared and the call is never started. *)
Theorem X28_reset_discards_pending_call (retain : option bool) (debounce : option Z) h
    (a : A) (o : Outcome T) (now t : Z) :
  wellFormed h →
  let h1 := reset (execute debounce now a h) in
  state h1 = initialState
  ∧ ((debounceMs debounce <= 0)%Z →
       ∃ h2, operationSettled retain (nextController h) o t h1 = Some h2
             ∧ state h2 = initialState
             ∧ notified h2 = notified h)
  ∧ ((0 < debounceMs debounce)%Z → timers h = [] →
       invoked h1 = invoked h ∧ ∀ later, elapse later h1 = h1).
Proof.
  intros (Hrun & Hab & Href) h1. split; [done|]. split.
  - intros HD. unfold h1. rewrite execute_immediate by done.
    unfold reset. cbn [abortControllerRef aborted debounceTimeoutRef timers running
                        nextController nextTimer invoked notified].
    match goal with |- context [operationSettled _ _ _ _ ?x] => set (hr := x) end.
    pose proof (operationSettled_found retain o t hr (running h) [] (nextController h) a
                  eq_refl Hrun) as Hs.
    cbn [aborted hr] in Hs. rewrite aborted_abortCurrent, Nat.eqb_refl, orb_true_r in Hs.
    rewrite Hs. eexists. split; [reflexivity|]. done.
  - intros HD Ht. unfold h1. rewrite execute_debounced by done.
    split; [done|]. intros later. apply elapse_no_timers_async.
    unfold reset. cbn [timers debounceTimeoutRef]. rewrite Ht.
    destruct (debounceTimeoutRef h); cbn [clearTimeout app List.filter t_id];
      by rewrite Nat.eqb_refl.
Qed.
End AsyncProperties.

Section TranslationFacts.
Import ErrorTranslation.
Variable t : string → string.
Variable tInherited : string → option string.
Variable toLowerCase : string → string.

Lemma partialMatch_key msg (entries : list (string * string)) translated :
  partialMatch t toLowerCase msg entries = Some translated →
  ∃ key, In key (map snd entries) ∧ translated = t key ∧ t key ≠ key.
Proof.
  induction entries as [|[pattern key] rest IH]; cbn [partialMatch map snd]; [done|].
  destruct (Cache.includes _ _).
  - destruct (String.eqb_spec (t key) key) as [E|NE].
    + intros H. destruct (IH H) as (k & Hk & Hr). exists k. split; [by right | done].
    + intros [= <-]. exists key. split; [by left | done].
  - intros H. destruct (IH H) as (k & Hk & Hr). exists k. split; [by right | done].
Qed.

Lemma partialMatch_untranslated msg (entries : list (string * string)) :
  (∀ key, In key (map snd entries) → t key = key) →
  partialMatch t toLowerCase msg entries = None.
Proof.
  induction entries as [|[pattern key] rest IH]; cbn [partialMatch map snd]; [done|].
  intros Hall. rewrite (Hall key (or_introl eq_refl)), String.eqb_refl.
  rewrite IH by (intros k Hk; apply Hall; by right). by destruct (Cache.includes _ _).
Qed.

Lemma includes_In_names x (l : list string) :
  FileValidation.includes x l = true → In x l.
Proof.
  unfold FileValidation.includes. intros H.
  apply existsb_exists in H as (y & Hy & E). apply String.eqb_eq in E. by subst.
Qed.

(** X29.  When [translateError] reports [isTranslated: false] the
    message is the original one.  When it reports [true], the message is
    the text [t] gives for one of the nine keys of [errorPatterns], and
    differs from that key; or, for a message that is the name of a member
    of [Object.prototype], it is what [t] returned for that member, which
    was not the member itself.  And when [t] hands back unchanged every key
    and, if the message is such a name, the member, the message comes back
    as it was, untranslated. *)
Theorem X29_translateError_never_shows_a_key (errorMessage : string) :
  let r := translateError t tInherited toLowerCase errorMessage in
  (isTranslated r = false → message r = errorMessage)
  ∧ (isTranslated r = true →
       (∃ key, In key (map snd errorPatterns)
               ∧ message r = t key ∧ t key ≠ key)
       ∨ (In errorMessage inheritedNames
          ∧ tInherited errorMessage = Some (message r)))
  ∧ ((∀ key, In key (map snd errorPatterns) → t key = key) →
     (In errorMessage inheritedNames → tInherited errorMessage = None) →
     r = {| message := errorMessage; isTranslated := false |}).
Proof.
  cbv zeta. unfold translateError, exactMatch.
  assert (Hpartial :
    let r := match partialMatch t toLowerCase errorMessage errorPatterns with
             | Some translated => {| message := translated; isTranslated := true |}
             | None => {| message := errorMessage; isTranslated := false |}
             end in
    (isTranslated r = false → message r = errorMessage)
    ∧ (isTranslated r = true →
         (∃ key, In key (map snd errorPatterns)
                 ∧ message r = t key ∧ t key ≠ key)
         ∨ (In errorMessage inheritedNames
            ∧ tInherited errorMessage = Some (message r)))
    ∧ ((∀ key, In key (map snd errorPatterns) → t key = key) →
       r = {| message := errorMessage; isTranslated := false |})).
  { cbv zeta.
    destruct (partialMatch t toLowerCase errorMessage errorPatterns) as [m|] eqn:Ep;
      cbn [isTranslated message].
    - split; [done|]. split.
      + intros _. left. destruct (partialMatch_key _ _ _ Ep) as (k & Hk & -> & Hne). eauto.
      + intros Hall. by rewrite partialMatch_untranslated in Ep.
    - split; [done|]. split; done. }
  cbv zeta in Hpartial. destruct Hpartial as (Hp1 & Hp2 & Hp3).
  destruct (JsMap.get errorMessage errorPatterns) as [key|] eqn:Eg.
  - assert (Hkey : In key (map snd errorPatterns)).
    { apply JsMap_get_Some_In in Eg. apply in_map_iff. by exists (errorMessage, key). }
    destruct (String.eqb_spec (t key) key) as [E|NE].
    + split; [done|]. split; [done|]. intros Hall _. by apply Hp3.
    + cbn [isTranslated message]. split; [done|]. split.
      * intros _. left. eauto.
      * intros Hall _. by specialize (Hall key Hkey).
  - destruct (FileValidation.includes errorMessage inheritedNames) eqn:Ei.
    + apply includes_In_names in Ei.
      destruct (tInherited errorMessage) as [text|] eqn:Et.
      * cbn [isTranslated message]. split; [done|]. split.
        -- intros _. by right.
        -- intros _ Hn. by specialize (Hn Ei).
      * split; [done|]. split; [|intros Hall _; by apply Hp3].
        intros Htr. destruct (Hp2 Htr) as [Hl|[_ Hr]]; [by left | done].
    + split; [done|]. split; [done|]. intros Hall _. by apply Hp3.
Qed.
End TranslationFacts.

(* --------------------------------------------------------------------- *)
(** ** The further properties on concrete inputs                          *)
(* --------------------------------------------------------------------- *)

Section RetryInstances.
Import ErrorHandler.

Lemma X3_retry_first_success_witness :
  let operation := fun a : Z =>
    if (a =? 2)%Z then Resolved "body" else Rejected timeoutError in
  let r := withRetry operation (fun _ => 0%Q) (fullConfig RETRY_standard)
                     emptyContext in
  settled r = inl "body" ∧ calls r = 2%nat.
Proof.
  intros operation r.
  assert (Hk : (1 <= Z.of_nat 2
                <= maxAttempts (mergeRetryConfig (fullConfig RETRY_standard)))%Z)
    by (split; vm_compute; discriminate).
  assert (Hfail : ∀ a, (1 <= a < Z.of_nat 2)%Z →
            ∃ e, operation a = Rejected e ∧ isRetryableError e = true).
  { intros a Ha. assert (a = 1%Z) as -> by lia. exists timeoutError. split; reflexivity. }
  destruct (X3_retry_first_success operation (fun _ => 0%Q) (fullConfig RETRY_standard)
              emptyContext 2 "body" Hk Hfail eq_refl) as (Hs & Hc & _).
  split; [exact Hs | exact Hc].
Defined.
End RetryInstances.

Section CacheInstances.
Import Cache.

Lemma twoEntries_reachable : reachable smallCacheConfig twoEntries.
Proof. apply reach_set, reach_set, reach_new. Qed.

Lemma X4_invalidate_removes_one_key_witness :
  (0 <= maxSize smallCacheConfig)%Z
  ∧ fst (get smallCacheConfig 20 "/dashboard" None
             (invalidate "/dashboard" None twoEntries)) = None
  ∧ fst (get smallCacheConfig 20 "/documents" None
             (invalidate "/dashboard" None twoEntries))
    = fst (get smallCacheConfig 20 "/documents" None twoEntries).
Proof.
  assert (Hmax : (0 <= maxSize smallCacheConfig)%Z) by (vm_compute; discriminate).
  destruct (X4_invalidate_removes_one_key smallCacheConfig twoEntries 20
              "/dashboard" None "/documents" None twoEntries_reachable Hmax)
    as [Hgone Hkept].
  split; [exact Hmax|]. split; [exact Hgone|].
  apply Hkept. vm_compute. discriminate.
Defined.

Lemma X5_invalidatePattern_removes_matching_keys_witness :
  (0 <= maxSize smallCacheConfig)%Z
  ∧ fst (get smallCacheConfig 20 "/documents" None
             (invalidatePattern "doc" twoEntries)) = None
  ∧ JsMap.keys (invalidatePattern "doc" twoEntries) = ["/dashboard:"].
Proof.
  assert (Hmax : (0 <= maxSize smallCacheConfig)%Z) by (vm_compute; discriminate).
  destruct (X5_invalidatePattern_removes_matching_keys smallCacheConfig twoEntries 20
              "doc" "/documents" None twoEntries_reachable Hmax)
    as (Hin & _ & Hkeys).
  split; [exact Hmax|]. split; [apply Hin; vm_compute; reflexivity|].
  rewrite Hkeys. vm_compute. reflexivity.
Defined.

Lemma X6_set_leaves_other_keys_witness :
  let m := set apiCacheConfig 0 "/dashboard" "stats" None None [] in
  (Z.of_nat (length m) < maxSize apiCacheConfig)%Z
  ∧ fst (get apiCacheConfig 20 "/dashboard" None
             (set apiCacheConfig 10 "/documents" "list" None None m))
    = fst (get apiCacheConfig 20 "/dashboard" None m).
Proof.
  intros m.
  assert (Hreach : reachable apiCacheConfig m) by apply reach_set, reach_new.
  assert (Hroom : (Z.of_nat (length m) < maxSize apiCacheConfig)%Z)
    by (vm_compute; reflexivity).
  assert (Hnow : (10 <= 20)%Z) by (vm_compute; discriminate).
  assert (Hne : generateKey "/dashboard" None ≠ generateKey "/documents" None)
    by (vm_compute; discriminate).
  split; [exact Hroom|].
  exact (X6_set_leaves_other_keys apiCacheConfig m 10 20 "/documents" "list" None None
           "/dashboard" None Hreach Hroom Hnow Hne).
Defined.

Lemma X7_overwrite_keeps_eviction_order_witness :
  let m1 := set smallCacheConfig 20 "/dashboard" "new" None None twoEntries in
  let m2 := set smallCacheConfig 30 "/health" "ok" None None m1 in
  Z.of_nat (length twoEntries) = maxSize smallCacheConfig
  ∧ JsMap.keys m1 = ["/dashboard:"; "/documents:"]
  ∧ JsMap.keys m2 = ["/documents:"; "/health:"]
  ∧ fst (get smallCacheConfig 40 "/dashboard" None m2) = None.
Proof.
  intros m1 m2.
  assert (Hm : twoEntries
               = (generateKey "/dashboard" None,
                  {| data := "body"; timestamp := 0; ttl := 300000 |})
                 :: [("/documents:",
                      {| data := "body"; timestamp := 10; ttl := 300000 |})])
    by (vm_compute; reflexivity).
  assert (Hfull : Z.of_nat (length twoEntries) = maxSize smallCacheConfig)
    by (vm_compute; reflexivity).
  assert (Hnow : (20 <= 30)%Z) by (vm_compute; discriminate).
  assert (Hfresh : Forall (fun e : string * CacheItem string => isFresh 30 e = true)
                          twoEntries).
  { rewrite Hm. repeat constructor. }
  assert (Httl : (0 <= Js.numOr None (defaultTTL smallCacheConfig))%Z)
    by (vm_compute; discriminate).
  assert (Hage : (30 - 20 <= Js.numOr None (defaultTTL smallCacheConfig))%Z)
    by (vm_compute; discriminate).
  assert (Hnew : ¬ In (generateKey "/health" None) (JsMap.keys twoEntries)).
  { rewrite Hm. vm_compute. intros [H|[H|[]]]; discriminate. }
  destruct (X7_overwrite_keeps_eviction_order smallCacheConfig twoEntries 20 30 40
              "/dashboard" "new" None None "/health" "ok" None None _ _
              twoEntries_reachable Hm Hfull Hnow Hfresh Httl Hage Httl Hnew)
    as (Hk1 & Hk2 & Hgone).
  split; [exact Hfull|]. split; [|split; [|exact Hgone]].
  - fold m1 in Hk1. rewrite Hk1. vm_compute. reflexivity.
  - fold m1 m2 in Hk2. rewrite Hk2. vm_compute. reflexivity.
Defined.
End CacheInstances.

Section ClientInstances.
Import ErrorHandler CachedApiClient.

Lemma X8_get_stores_then_serves_witness :
  let first := get 0 5 (answers "list") (fun _ => 0%Q) "/documents" defaultRequest
                   newClient in
  fst first = inl "list"
  ∧ fst (get 10 15 alwaysNotFound (fun _ => 0%Q) "/documents" defaultRequest
             (snd first)) = inl "list".
Proof.
  assert (Hreach : Cache.reachable apiCache (cache (newClient (V:=string))))
    by apply Cache.reach_new.
  assert (Huse : useCache defaultRequest ≠ Some false) by discriminate.
  assert (Httl : (0 <= Js.numOr (cacheTTL defaultRequest) (Cache.defaultTTL apiCache))%Z)
    by (vm_compute; discriminate).
  assert (Hmiss : fst (getLookup 0 "/documents" defaultRequest (newClient (V:=string)))
                  = None) by reflexivity.
  assert (Hok : settled (getFetch (answers "list") (fun _ => 0%Q) "/documents"
                                  defaultRequest) = inl "list") by reflexivity.
  assert (Hage : (10 - 5 <= Js.numOr (cacheTTL defaultRequest)
                                     (Cache.defaultTTL apiCache))%Z)
    by (vm_compute; discriminate).
  exact (X8_get_stores_then_serves (answers "list") alwaysNotFound (fun _ => 0%Q)
           (fun _ => 0%Q) "/documents" defaultRequest 0 5 10 15 newClient "list"
           Hreach Huse Httl Hmiss Hok eq_refl Hage).
Defined.

Lemma X9_write_invalidates_endpoint_witness :
  let c := getStore 0 "/documents" defaultRequest "list" newClient in
  let r := post (answers "created") (fun _ => 0%Q) "/documents/upload"
                defaultRequest c in
  baseEndpoint "/documents/upload" = Some "documents"
  ∧ fst r = inl "created"
  ∧ fst (getLookup 10 "/documents" defaultRequest c) = Some "list"
  ∧ fst (getLookup 10 "/documents" defaultRequest (snd r)) = None.
Proof.
  intros c r.
  assert (Hreach : Cache.reachable apiCache (cache c))
    by apply Cache.reach_set, Cache.reach_new.
  assert (Hseg : baseEndpoint "/documents/upload" = Some "documents") by reflexivity.
  destruct (X9_write_invalidates_endpoint POST (answers "created") (fun _ => 0%Q)
              "/documents/upload" defaultRequest c "documents" Hreach Hseg)
    as [Hdone _].
  destruct (Hdone "created" eq_refl 10%Z "/documents" defaultRequest) as [Hgone _].
  split; [exact Hseg|]. split; [reflexivity|]. split; [reflexivity|].
  apply Hgone. reflexivity.
Defined.

Lemma X10_stale_while_revalidate_cycle_witness :
  let c := getStore 0 "/dashboard" dashboardRequest "stats" newClient in
  let c1 := snd (getLookup 10 "/dashboard" dashboardRequest c) in
  fst (getLookup 10 "/dashboard" dashboardRequest c) = Some "stats"
  ∧ backgroundRefreshPromises c1 !! "/dashboard" = Some 0%nat
  ∧ ∃ c2 c3,
      refreshSettled 0 (Responded "fresh") 50 c1 = Some c2
      ∧ refreshFinally 0 c2 = Some c3
      ∧ backgroundRefreshPromises c3 !! "/dashboard" = None
      ∧ fst (getLookup 60 "/dashboard" dashboardRequest c3) = Some "fresh".
Proof.
  intros c c1.
  assert (Hinv : refreshInvariant c) by (apply invariant_cache, invariant_new).
  assert (Hreach : Cache.reachable apiCache (cache c))
    by apply Cache.reach_set, Cache.reach_new.
  assert (Huse : useCache dashboardRequest ≠ Some false) by discriminate.
  assert (Hfree : backgroundRefreshPromises c
                    !! Js.optStrOr (cacheKey dashboardRequest) "/dashboard" = None)
    by reflexivity.
  assert (Httl : (0 <= Js.numOr (cacheTTL dashboardRequest)
                                (Cache.defaultTTL apiCache))%Z)
    by (vm_compute; discriminate).
  assert (Hhit : fst (getLookup 10 "/dashboard" dashboardRequest c) = Some "stats")
    by reflexivity.
  assert (Hage : (60 - 50 <= Js.numOr (cacheTTL dashboardRequest)
                                      (Cache.defaultTTL apiCache))%Z)
    by (vm_compute; discriminate).
  destruct (X10_stale_while_revalidate_cycle "/dashboard" dashboardRequest c 10 50 60
              "stats" "fresh" Hinv Hreach Huse eq_refl Hfree Httl Hhit eq_refl Hage)
    as (Hreg & Hok & _).
  split; [exact Hhit|]. split; [exact Hreg | exact Hok].
Defined.
End ClientInstances.

Section UploadInstances.
Import FileValidation FileUpload.

Lemma X11_validateFile_ignores_letter_case_witness :
  let upper := {| name := "Report.PDF"; size := 1000; type := "application/pdf";
                  lastModified := 7 |} in
  toLowerCase (name upper) = toLowerCase (name (pdf "report.pdf"))
  ∧ validateFile upper DEFAULT_VALIDATION_CONFIG
    = validateFile (pdf "report.pdf") DEFAULT_VALIDATION_CONFIG.
Proof.
  intros upper.
  assert (Hn : toLowerCase (name upper) = toLowerCase (name (pdf "report.pdf")))
    by reflexivity.
  split; [exact Hn|].
  exact (X11_validateFile_ignores_letter_case upper (pdf "report.pdf")
           DEFAULT_VALIDATION_CONFIG Hn eq_refl eq_refl).
Defined.

Lemma X12_total_size_error_never_alone_witness :
  In TotalTooLarge (globalErrors (validateFiles threeNotes tightConfig))
  ∧ (In TooManyFiles (globalErrors (validateFiles threeNotes tightConfig))
     ∨ ∃ f, In f threeNotes ∧ In TooLarge (errors (validateFile f tightConfig))).
Proof.
  assert (Hm : maxFiles tightConfig = Some 2%Z) by reflexivity.
  assert (Hpos : (0 < 2)%Z) by reflexivity.
  assert (Hmax : (0 <= maxSize tightConfig)%Z) by (vm_compute; discriminate).
  assert (Hin : In TotalTooLarge (globalErrors (validateFiles threeNotes tightConfig)))
    by (vm_compute; auto).
  split; [exact Hin|].
  exact (X12_total_size_error_never_alone threeNotes tightConfig 2 Hm Hpos Hmax Hin).
Defined.

Lemma X14_valid_batch_one_task_per_file_witness :
  Forall (fun f => isAscii (name f) = true) tenFiles
  ∧ batchValid (validateFiles tenFiles DEFAULT_VALIDATION_CONFIG) = true
  ∧ st_total (getUploadStats (selectFiles DEFAULT_VALIDATION_CONFIG tenFiles newHook))
    = 10%nat
  ∧ st_pending (getUploadStats (selectFiles DEFAULT_VALIDATION_CONFIG tenFiles newHook))
    = 10%nat.
Proof.
  assert (Hv : batchValid (validateFiles tenFiles DEFAULT_VALIDATION_CONFIG) = true)
    by (vm_compute; reflexivity).
  assert (Ha : Forall (fun f => isAscii (name f) = true) tenFiles)
    by (repeat constructor).
  destruct (X14_valid_batch_one_task_per_file DEFAULT_VALIDATION_CONFIG tenFiles
              newHook Ha Hv) as (_ & _ & _ & Htotal & Hpending).
  split; [exact Ha|]. split; [exact Hv|]. split; [exact Htotal | exact Hpending].
Defined.

Lemma X15_cancelAllUploads_spares_finished_witness :
  JsMap.wf (uploadProgress oneDone)
  ∧ statusOf (generateFileId (pdf "a0.pdf")) oneDone = Some completed
  ∧ statusOf (generateFileId (pdf "a1.pdf")) oneDone = Some uploading
  ∧ statusOf (generateFileId (pdf "a0.pdf")) (cancelAllUploads oneDone)
    = Some completed
  ∧ statusOf (generateFileId (pdf "a1.pdf")) (cancelAllUploads oneDone)
    = Some cancelled
  ∧ isCompleted (cancelAllUploads oneDone) = true.
Proof.
  assert (Hwf : JsMap.wf (uploadProgress oneDone)).
  { apply (bool_decide_unpack _). vm_compute. reflexivity. }
  destruct (X15_cancelAllUploads_spares_finished oneDone Hwf)
    as (Hst & _ & _ & _ & _ & _ & Hdone).
  split; [exact Hwf|]. split; [reflexivity|]. split; [reflexivity|].
  split; [rewrite Hst; reflexivity|]. split; [rewrite Hst; reflexivity | exact Hdone].
Defined.

Lemma X17_overall_progress_range_witness :
  (0 <= getOverallProgress oneDone <= 100)%Z.
Proof.
  assert (Hall : Forall (fun kv => (0 <= progress (snd kv) <= 100)%Z)
                        (uploadProgress oneDone)).
  { vm_compute. repeat (constructor; [split; discriminate|]). constructor. }
  destruct (X17_overall_progress_range oneDone Hall) as (Hrange & _).
  exact Hrange.
Defined.

Lemma X18_settle_touches_one_task_witness :
  ∃ h', uploadSingleFileSettle 3 (FetchNotOk 500 "Internal Server Error") twoStarted
        = Some h'
    ∧ statusOf (generateFileId (pdf "a1.pdf")) h' = Some error
    ∧ statusOf (generateFileId (pdf "a0.pdf")) h' = Some uploading.
Proof.
  assert (Hfind : List.find (fun u => Nat.eqb (up_ctl u) 3) (suspended twoStarted)
                  = Some {| up_ctl := 3; up_file := pdf "a1.pdf" |})
    by (vm_compute; reflexivity).
  destruct (X18_settle_touches_one_task 3 (FetchNotOk 500 "Internal Server Error")
              twoStarted _ Hfind) as (h' & Hs & Hown & Hother & _).
  cbn [up_file] in Hown, Hother.
  exists h'. split; [exact Hs|]. split.
  - rewrite Hown. reflexivity.
  - unfold statusOf. rewrite Hother; [reflexivity | vm_compute; discriminate].
Defined.

Lemma X19_batch_reports_once_witness :
  let l := [(3%nat, FetchFailed "Failed to fetch"); (2%nat, FetchOk "{}")] in
  reports twoStarted = []
  ∧ (∃ h1, settleAll [(3%nat, FetchFailed "Failed to fetch")] twoStarted = Some h1
           ∧ reports h1 = reports twoStarted)
  ∧ ∃ h' report,
      settleAll l twoStarted = Some h'
      ∧ reports h' = reports twoStarted ++ [[] ++ report]
      ∧ map success report = [false; true].
Proof.
  intros l.
  set (b := {| awaiting := [2%nat; 3%nat]; collected := [] |}).
  assert (Hb : batches twoStarted = [b]) by (vm_compute; reflexivity).
  assert (Hnd : NoDup (awaiting b)).
  { apply (bool_decide_unpack _). vm_compute. reflexivity. }
  assert (Hne : awaiting b ≠ []) by discriminate.
  assert (Hperm : map fst l ≡ₚ awaiting b) by apply perm_swap.
  assert (Hsus : ∀ ctl, In ctl (awaiting b) → In ctl (map up_ctl (suspended twoStarted))).
  { intros ctl [<-|[<-|[]]]; vm_compute; tauto. }
  destruct (X19_batch_reports_once l twoStarted b Hb Hnd Hne Hperm Hsus)
    as [(h' & report & Hs & _ & Hr & _ & Hsucc) Hbefore].
  split; [reflexivity|]. split.
  - apply (Hbefore [(3%nat, FetchFailed "Failed to fetch")] [(2%nat, FetchOk "{}")]);
      [reflexivity | discriminate].
  - exists h', report. split; [exact Hs|]. split; [exact Hr | exact Hsucc].
Defined.
Lemma X30_clearFiles_forgets_tasks_witness :
  ∃ h', uploadSingleFileSettle 3 (FetchOk "{}") (clearFiles twoStarted) = Some h'
        ∧ uploadProgress h' = []
        ∧ selectedFiles h' = [].
Proof.
  assert (Hfind : List.find (fun u => Nat.eqb (up_ctl u) 3) (suspended twoStarted)
                  = Some {| up_ctl := 3; up_file := pdf "a1.pdf" |})
    by (vm_compute; reflexivity).
  destruct (X30_clearFiles_forgets_tasks twoStarted 3 (FetchOk "{}") _ Hfind)
    as (_ & _ & _ & _ & _ & Hlate).
  exact Hlate.
Defined.
End UploadInstances.

Section OptimisticInstances.
Import ErrorHandler OptimisticUpdate.

Lemma X21_resolved_update_is_final_witness :
  let h := elapse 2000 (updateRejected None offline 1000
                          (executeOptimisticUpdate "draft 1"
                             (useOptimisticUpdate "saved"))) in
  sequential None h
  ∧ isOptimistic (state h) = true
  ∧ ∀ now, elapse now (updateResolved "v2" (executeOptimisticUpdate "draft 2" h))
           = updateResolved "v2" (executeOptimisticUpdate "draft 2" h).
Proof.
  intros h.
  assert (Hs : sequential None h) by (do 2 constructor; constructor).
  destruct (X21_resolved_update_is_final None h "draft 2" "v2" Hs) as (_ & _ & Hfinal).
  split; [exact Hs|]. split; [reflexivity | exact Hfinal].
Defined.

Lemma X22_rollbackImmediately_cancels_timeout_witness :
  let h := useOptimisticUpdate "saved" in
  let h3 := rollbackImmediately
              (updateRejected None offline 1000 (executeOptimisticUpdate "draft" h)) in
  sequential None h ∧ data (state h3) = "saved" ∧ elapse 4000 h3 = h3.
Proof.
  intros h h3. assert (Hs : sequential None h) by constructor.
  destruct (X22_rollbackImmediately_cancels_timeout None h "draft" offline 1000 Hs)
    as (Hstate & Hlater).
  split; [exact Hs|]. split; [|exact (Hlater 4000%Z)].
  fold h3 in Hstate. rewrite Hstate. reflexivity.
Defined.

Lemma X23_updateData_outlives_rollback_witness :
  let h := useOptimisticUpdate "saved" in
  let h3 := updateData "confirmed"
              (updateRejected None offline 1000 (executeOptimisticUpdate "draft" h)) in
  settledBefore h
  ∧ data (state (elapse 4000 h3)) = "confirmed"
  ∧ error (state (elapse 4000 h3)) = Some (toNetworkError offline).
Proof.
  intros h h3. assert (Hs : settledBefore h) by constructor.
  assert (Hdue : (1000 + rollbackDelay None <= 4000)%Z) by (vm_compute; discriminate).
  destruct (X23_updateData_outlives_rollback None h "draft" "confirmed" offline 1000
              4000 Hs Hdue) as (Hstate & Hlater & _).
  fold h3 in Hstate, Hlater.
  split; [exact Hs|]. rewrite Hlater, Hstate. split; reflexivity.
Defined.

Lemma X24_rollback_target_is_displayed_value_witness :
  let h := useOptimisticUpdate "saved" in
  let h2 := updateRejected None offline 1000 (executeOptimisticUpdate "draft 1" h) in
  let h4 := updateRejected None offline 2500
              (executeOptimisticUpdate "draft 2" (elapse 2000 h2)) in
  settledBefore h ∧ data (state (elapse 6000 h4)) = "draft 1".
Proof.
  intros h h2 h4. assert (Hs : settledBefore h) by constructor.
  assert (Hdue : (2500 + rollbackDelay None <= 6000)%Z) by (vm_compute; discriminate).
  destruct (X24_rollback_target_is_displayed_value None h "draft 1" "draft 2" offline
              offline 1000 2000 2500 6000 Hs Hdue) as (_ & Hwithin & _).
  split; [exact Hs|]. apply Hwithin. vm_compute. reflexivity.
Defined.
End OptimisticInstances.

Section AsyncInstances.
Import ErrorHandler AsyncOperation.

Lemma idle_wellFormed : wellFormed idle.
Proof. split; [constructor|]. split; [constructor|]. intros ctl H. discriminate H. Qed.

Lemma X25_latest_of_two_calls_wins_witness :
  let h2 := execute None 10 "ab" (execute None 0 "a" idle) in
  wellFormed idle
  ∧ invoked h2 = ["a"; "ab"]
  ∧ ∃ hA hB,
      (operationSettled None 0 (Resolved "for a") 30 h2
         ≫= operationSettled None 1 (Resolved "for ab") 40) = Some hA
      ∧ (operationSettled None 1 (Resolved "for ab") 40 h2
           ≫= operationSettled None 0 (Resolved "for a") 30) = Some hB
      ∧ data (state hA) = Some "for ab"
      ∧ data (state hB) = Some "for ab".
Proof.
  intros h2.
  assert (HD : (debounceMs None <= 0)%Z) by (vm_compute; discriminate).
  destruct (X25_latest_of_two_calls_wins None None idle "a" "ab" (Resolved "for a")
              (Resolved "for ab") 0 10 30 40 idle_wellFormed HD)
    as (Hinv & hA & hB & HA & HB & HsA & HsB & _).
  split; [exact idle_wellFormed|]. split; [exact Hinv|].
  exists hA, hB. split; [exact HA|]. split; [exact HB|].
  split; [rewrite HsA; reflexivity | rewrite HsB, HsA; reflexivity].
Defined.

Lemma X26_superseded_call_can_overwrite_latest_witness :
  let h2 := execute None 10 "ab" (execute None 0 "a" idle) in
  ∃ h3 h5 h6,
    operationSettled None 0 (Resolved "for a") 20 h2 = Some h3
    ∧ operationSettled None 2 (Resolved "for abc") 40 (execute None 30 "abc" h3) = Some h5
    ∧ operationSettled None 1 (Resolved "for ab") 50 h5 = Some h6
    ∧ invoked h6 = ["a"; "ab"; "abc"]
    ∧ data (state h6) = Some "for ab".
Proof.
  intros h2.
  assert (HD : (debounceMs None <= 0)%Z) by (vm_compute; discriminate).
  destruct (X26_superseded_call_can_overwrite_latest None None idle "a" "ab" "abc"
              (Resolved "for a") "for ab" "for abc" 0 10 30 20 50 40
              idle_wellFormed HD)
    as (h3 & h5 & h6 & H3 & _ & H5 & H6 & _ & Hdata & Hinv & _).
  exists h3, h5, h6. split; [exact H3|]. split; [exact H5|]. split; [exact H6|].
  split; [exact Hinv | exact Hdata].
Defined.

Lemma X27_debounce_starts_last_call_only_witness :
  let h := executeAll (Some 300%Z) ([(0%Z, "a"); (100%Z, "ab")] ++ [(250%Z, "abc")])
                      idle in
  invoked h = []
  ∧ elapse 549 h = h
  ∧ invoked (elapse 550 h) = ["abc"].
Proof.
  intros h.
  assert (HD : (0 < debounceMs (Some 300%Z))%Z) by reflexivity.
  assert (Hclose : closeTogether (debounceMs (Some 300%Z))
                     ([(0%Z, "a"); (100%Z, "ab")] ++ [(250%Z, "abc")])).
  { repeat split. }
  destruct (X27_debounce_starts_last_call_only (Some 300%Z) idle
              [(0%Z, "a"); (100%Z, "ab")] 250 "abc" HD eq_refl Hclose)
    as (Hnone & Hearly & Hlate).
  split; [exact Hnone|]. split.
  - apply Hearly. reflexivity.
  - destruct (Hlate 550%Z) as (Hinv & _); [vm_compute; discriminate | exact Hinv].
Defined.

Lemma X28_reset_discards_pending_call_witness :
  let h1 := reset (execute None 0 "a" idle) in
  ∃ h2, operationSettled None 0 (Resolved "for a") 50 h1 = Some h2
        ∧ state h2 = initialState
        ∧ notified h2 = [].
Proof.
  intros h1.
  destruct (X28_reset_discards_pending_call None None idle "a" (Resolved "for a") 0 50
              idle_wellFormed) as (_ & Hnow & _).
  apply Hnow. vm_compute. discriminate.
Defined.
End AsyncInstances.

(** End of the development. *)
